(** * PyRate orbital correction (pyrate/orbital.py)

    A shallow embedding of the orbital-error correction module of PyRate
    and the properties its specification states about it.

    Modelling conventions.
    - Numbers.  The module computes with NumPy floating-point arrays.  The
      embedding is parametric in the number type: class [Numeric] gives
      the operations the code uses (constants, [+], [-], [*], unary minus,
      the integer-to-float conversion and [isnan]) and assumes no law about
      them.  Laws (ring, order, NaN propagation) are hypotheses of exactly
      the theorems that need them.  The narrowing of the design matrices to
      [float32] is not modelled.
    - Arrays.  A one-dimensional array is a [list]; a matrix is the list of
      its rows; a phase raster is a row-major buffer together with its
      shape.
    - External solvers.  [scipy.linalg.lstsq], [numpy.linalg.pinv] and
      [numpy.median] are parameters (class [Solvers]).
    - Errors.  A raising function returns [inl e]; [OrbitalError] carries
      its message, the run-time errors of Python and NumPy are separate
      constructors.
    - Objects.  Interferograms are Python objects mutated in place: the
      stateful functions run over a heap of objects addressed by
      references, so that a sequence may hold one object twice.  The state
      also keeps a ghost log of the design matrices constructed so far.
    - Sequences.  The functions take their sequences of interferograms
      as lists or tuples; a sequence that is only iterated, measured and
      indexed is the list of its items, and [mlooked], which is also
      formatted into a message, keeps its kind ([pyseq]).
    - Module [algorithm] ([master_slave_ids], [get_all_epochs],
      [get_epoch_count]) and the [Ifg] class are not among the sources;
      what the code uses of them is modelled from the specification.
    - The last part embeds the functions of the workflow driver
      (pyrate/scripts/run_pyrate.py) that guard the orbital correction and
      choose the reference pixel. *)

From Stdlib Require Import ZArith Ascii Ring Ring_theory OrderedRing ZMicromega.
From stdpp Require Import base option list gmap strings pretty.

Local Open Scope nat_scope.

(** ** Errors *)

Inductive PyErr : Type :=
  | OrbitalError (msg : string)
  | ValueError
  | KeyError
  | IndexError
  | AttributeError
  | TypeError.

Definition result (A : Type) : Type := (PyErr + A)%type.

Definition ok {A} (a : A) : result A := inr a.
Definition raise {A} (e : PyErr) : result A := inl e.

Definition bindR {A B} (c : result A) (k : A -> result B) : result B :=
  match c with
  | inl e => inl e
  | inr a => k a
  end.

Notation "'let?' x ':=' c 'in' k" := (bindR c (fun x => k))
  (at level 10, x pattern, c at level 100, k at level 200).

(** ** Numbers *)

Class Numeric (num : Type) : Type := {
  f0 : num;
  f1 : num;
  fadd : num -> num -> num;
  fsub : num -> num -> num;
  fmul : num -> num -> num;
  fneg : num -> num;
  of_nat : nat -> num;
  isnan : num -> bool
}.

Class Solvers (num : Type) : Type := {
  lstsq : list (list num) -> list num -> list num;
  pinv : list (list num) -> list (list num);
  median : list num -> num
}.

(** Exact integers: no value is a NaN. *)
#[export] Instance Z_numeric : Numeric Z := {|
  f0 := 0%Z; f1 := 1%Z;
  fadd := Z.add; fsub := Z.sub; fmul := Z.mul; fneg := Z.opp;
  of_nat := Z.of_nat;
  isnan := fun _ => false
|}.

(** Exact integers extended with a no-data marker: [None] is NaN and every
    operation with a NaN operand gives NaN. *)
Definition lift2 (f : Z -> Z -> Z) (a b : option Z) : option Z :=
  match a, b with
  | Some x, Some y => Some (f x y)
  | _, _ => None
  end.

#[export] Instance NaNZ_numeric : Numeric (option Z) := {|
  f0 := Some 0%Z; f1 := Some 1%Z;
  fadd := lift2 Z.add; fsub := lift2 Z.sub; fmul := lift2 Z.mul;
  fneg := fun a => match a with Some x => Some (- x)%Z | None => None end;
  of_nat := fun n => Some (Z.of_nat n);
  isnan := fun a => match a with Some _ => false | None => true end
|}.

(** ** Module constants *)

Definition INDEPENDENT_METHOD : string := "INDEPENDENT_METHOD".
Definition NETWORK_METHOD : string := "NETWORK_METHOD".

Definition PLANAR : string := "PLANAR".
Definition QUADRATIC : string := "QUADRATIC".
Definition PART_CUBIC : string := "PART_CUBIC".

(** [degree not in [PLANAR, QUADRATIC, PART_CUBIC]], negated. *)
Definition degree_in_list (degree : string) : bool :=
  String.eqb degree PLANAR || String.eqb degree QUADRATIC
  || String.eqb degree PART_CUBIC.

(** ** get_num_params

    [offset] defaults to [None]; one parameter is added only when
    [offset is True]. *)
Definition get_num_params (degree : string) (offset : option bool) : result nat :=
  let? nparams :=
    if String.eqb degree PLANAR then ok 2
    else if String.eqb degree QUADRATIC then ok 5
    else if String.eqb degree PART_CUBIC then ok 6
    else raise (OrbitalError ("Invalid orbital model degree: " +:+ degree)) in
  match offset with
  | Some true => ok (nparams + 1)
  | _ => ok nparams
  end.

(** ** Interferograms *)

Definition epoch : Type := Z.

Section Model.
Context {num : Type} {NUM : Numeric num} {SOLV : Solvers num}.

(** A two-dimensional NumPy array in C order: shape and buffer. *)
Record Raster : Type := mkRaster {
  rshape : nat * nat;
  rdata : list num
}.

Record Ifg : Type := mkIfg {
  phase_data : Raster;
  nrows : nat;
  ncols : nat;
  x_size : num;
  y_size : num;
  master : epoch;
  slave : epoch
}.

(** Modelled from the spec: the [Ifg] class is not part of the sources;
    its [num_cells] attribute is [rows * cols] and its [shape] attribute
    is [(rows, cols)]. *)
Definition num_cells (ifg : Ifg) : nat := nrows ifg * ncols ifg.
Definition ifg_shape (ifg : Ifg) : nat * nat := (nrows ifg, ncols ifg).

(** The phase raster of a well-formed interferogram has the shape of the
    interferogram and a buffer of that size. *)
Definition wf_ifg (ifg : Ifg) : Prop :=
  rshape (phase_data ifg) = (nrows ifg, ncols ifg) /\
  length (rdata (phase_data ifg)) = nrows ifg * ncols ifg.

(** ** NumPy primitives *)

(** [meshgrid(xs, ys)]: two arrays of shape [(len ys, len xs)]. *)
Definition meshgrid (xs ys : list nat) : list (list nat) * list (list nat) :=
  (map (fun _ => xs) ys, map (fun y => map (fun _ => y) xs) ys).

(** [a.reshape(n)] of a two-dimensional array given by its rows. *)
Definition reshape_flat {A} (a : list (list A)) (n : nat) : result (list A) :=
  let v := concat a in
  if length v =? n then ok v else raise ValueError.

(** [range(n)] *)
Definition range (n : nat) : list nat := seq 0 n.

(** ** get_design_matrix *)

(** The columns written for one pixel, before the offset column. *)
Definition basis_row (degree : string) (x y : num) : list num :=
  if String.eqb degree PLANAR then [x; y]
  else if String.eqb degree QUADRATIC then
    [fmul x x; fmul y y; fmul x y; x; y]
  else if String.eqb degree PART_CUBIC then
    [fmul x (fmul y y); fmul x x; fmul y y; fmul x y; x; y]
  else [].

(** [data[:, -1] = 1] on one row. *)
Definition set_last (row : list num) (v : num) : list num :=
  match row with
  | [] => []
  | _ => take (length row - 1) row ++ [v]
  end.

(** One row of [data]: [empty] leaves the cells unset, the degree branch
    writes the leading columns, and with [offset is True] the last of the
    [nparams] columns is set to one. *)
Definition design_row (degree : string) (offset : bool) (nparams : nat)
    (x y : num) : list num :=
  let cols := basis_row degree x y in
  let row := cols ++ replicate (nparams - length cols) f0 in
  if offset then set_last row f1 else row.

Definition get_design_matrix (ifg : Ifg) (degree : string) (offset : bool)
    : result (list (list num)) :=
  if negb (degree_in_list degree) then
    raise (OrbitalError "Invalid degree argument")
  else
    let? nparams := get_num_params degree (Some offset) in
    let '(x, y) := meshgrid (range (ncols ifg)) (range (nrows ifg)) in
    let? x := reshape_flat x (num_cells ifg) in
    let? y := reshape_flat y (num_cells ifg) in
    let x := map (fun c => fmul (of_nat c) (x_size ifg)) x in
    let y := map (fun r => fmul (of_nat r) (y_size ifg)) y in
    ok (zip_with (design_row degree offset nparams) x y).

(** ** Array assignment

    [a[start:stop]] on an axis of length [n] covers the positions from
    [min start n] up to [min stop n]; the right-hand side of an assignment
    is broadcast to the slice: an axis of the same length is taken as it
    is, an axis of length one is repeated, anything else is an error. *)

Definition broadcast_to {A} (n : nat) (l : list A) : option (list A) :=
  if length l =? n then Some l
  else match l with
       | [a] => Some (replicate n a)
       | _ => None
       end.

Fixpoint mapR {A B} (f : A -> result B) (l : list A) : result (list B) :=
  match l with
  | [] => ok []
  | a :: l' => let? b := f a in let? bs := mapR f l' in ok (b :: bs)
  end.

(** [row[cs:ce] = brow] *)
Definition assign_row (row : list num) (cs ce : nat) (brow : list num)
    : result (list num) :=
  let c0 := min cs (length row) in
  let c1 := min ce (length row) in
  match broadcast_to (c1 - c0) brow with
  | Some vals => ok (take c0 row ++ vals ++ drop (c0 + (c1 - c0)) row)
  | None => raise ValueError
  end.

(** [ndm[rs:re, cs:ce] = blk] *)
Definition assign_block (ndm : list (list num)) (rs re cs ce : nat)
    (blk : list (list num)) : result (list (list num)) :=
  let r0 := min rs (length ndm) in
  let r1 := min re (length ndm) in
  match broadcast_to (r1 - r0) blk with
  | Some brows =>
      let? mid := mapR (fun rb => assign_row rb.1 cs ce rb.2)
                       (zip (take (r1 - r0) (drop r0 ndm)) brows) in
      ok (take r0 ndm ++ mid ++ drop (r0 + (r1 - r0)) ndm)
  | None => raise ValueError
  end.

(** [ndm[rs:re, col] = v] for a scalar [v] *)
Definition assign_col (ndm : list (list num)) (rs re col : nat) (v : num)
    : result (list (list num)) :=
  let r0 := min rs (length ndm) in
  let r1 := min re (length ndm) in
  let? mid := mapR (fun row => if col <? length row
                               then ok (<[col := v]> row)
                               else raise IndexError)
                   (take (r1 - r0) (drop r0 ndm)) in
  ok (take r0 ndm ++ mid ++ drop (r0 + (r1 - r0)) ndm).

(** [zeros([r, c])] *)
Definition zeros (r c : nat) : list (list num) := replicate r (replicate c f0).

(** [-tmp] *)
Definition mneg (m : list (list num)) : list (list num) := map (map fneg) m.

(** [d[k]] on a dictionary *)
Definition dict_get (d : gmap epoch nat) (k : epoch) : result nat :=
  match d !! k with
  | Some v => ok v
  | None => raise KeyError
  end.

(** [l[i]] on a sequence *)
Definition seq_get {A} (l : list A) (i : nat) : result A :=
  match l !! i with
  | Some v => ok v
  | None => raise IndexError
  end.

(** ** Epoch indexing (module [algorithm]) *)

(** Modelled from the spec: [algorithm.master_slave_ids] is not part of the
    sources.  It assigns each distinct epoch a dense index, enumerating the
    epochs in the order of their first occurrence in the given sequence. *)
Definition master_slave_ids (dates : list epoch) : gmap epoch nat :=
  foldl (fun ids d => match ids !! d with
                      | Some _ => ids
                      | None => <[d := size ids]> ids
                      end) ∅ dates.

(** Modelled from the spec: [algorithm.get_all_epochs] is not part of the
    sources.  It is the combined master-then-slave sequence of epochs. *)
Definition get_all_epochs (ifgs : list Ifg) : list epoch :=
  map master ifgs ++ map slave ifgs.

(** Modelled from the spec: [algorithm.get_epoch_count] is not part of the
    sources.  It counts the distinct master and slave epochs. *)
Definition get_epoch_count (ifgs : list Ifg) : nat :=
  size (list_to_set (get_all_epochs ifgs) : gset epoch).

(** ** get_network_design_matrix *)

(** The body of [for i, ifg in enumerate(ifgs)], from index [i] on. *)
Fixpoint ndm_loop (ids : gmap epoch nat) (ncoef offset_col : nat)
    (tmp : list (list num)) (offset : bool) (i : nat) (ifgs : list Ifg)
    (ndm : list (list num)) : result (list (list num)) :=
  match ifgs with
  | [] => ok ndm
  | ifg :: rest =>
      let rs := i * num_cells ifg in
      let? mi := dict_get ids (master ifg) in
      let m := mi * ncoef in
      let? si := dict_get ids (slave ifg) in
      let s := si * ncoef in
      let? ndm := assign_block ndm rs (rs + num_cells ifg) m (m + ncoef)
                               (mneg tmp) in
      let? ndm := assign_block ndm rs (rs + num_cells ifg) s (s + ncoef) tmp in
      let? ndm := if offset
                  then assign_col ndm rs (rs + num_cells ifg) (offset_col + i) f1
                  else ok ndm in
      ndm_loop ids ncoef offset_col tmp offset (S i) rest ndm
  end.

Definition get_network_design_matrix (ifgs : list Ifg) (degree : string)
    (offset : bool) : result (list (list num)) :=
  if negb (degree_in_list degree) then
    raise (OrbitalError "Invalid degree argument")
  else
    let nifgs := length ifgs in
    if nifgs <? 1 then
      raise (OrbitalError ("Invalid number of Ifgs: " +:+ pretty nifgs))
    else
      let nepochs := get_epoch_count ifgs in
      let? ncoef := get_num_params degree None in
      let? ifg0 := seq_get ifgs 0 in
      let nr := num_cells ifg0 * nifgs in
      let nc := ncoef * nepochs + (if offset then nifgs else 0) in
      let ndm := zeros nr nc in
      let dates := map master ifgs ++ map slave ifgs in
      let ids := master_slave_ids dates in
      let offset_col := nepochs * ncoef in
      let? tmp := get_design_matrix ifg0 degree false in
      ndm_loop ids ncoef offset_col tmp offset 0 ifgs ndm.

(** ** More NumPy primitives *)

(** [a[mask]] with a boolean mask over the first axis. *)
Definition bool_index {A} (mask : list bool) (a : list A) : result (list A) :=
  if length mask =? length a
  then ok (map snd (filter (fun p => p.1 = true) (zip mask a)))
  else raise IndexError.

(** [~isnan(v)] *)
Definition not_nan (v : list num) : list bool := map (fun a => negb (isnan a)) v.

(** The inner product of two vectors of one length. *)
Definition vdot (u v : list num) : num :=
  foldr (fun p acc => fadd (fmul p.1 p.2) acc) f0 (zip u v).

(** [dot(a, v)] of a matrix and a vector: the rows must have the length
    of [v].  (A matrix without rows has no recorded width and is accepted
    with any [v].) *)
Definition dot_mv (a : list (list num)) (v : list num) : result (list num) :=
  if forallb (fun row => length row =? length v) a
  then ok (map (fun row => vdot row v) a)
  else raise ValueError.

(** [a - b] on one-dimensional arrays, with NumPy's broadcasting of an
    array of length one. *)
Definition vec_sub (a b : list num) : result (list num) :=
  if length a =? length b then ok (zip_with fsub a b)
  else match a, b with
       | [x], _ => ok (map (fun y => fsub x y) b)
       | _, [y] => ok (map (fun x => fsub x y) a)
       | _, _ => raise ValueError
       end.

(** [reshape(v, shape)] of a vector to a raster. *)
Definition reshape_raster (v : list num) (shape : nat * nat) : result Raster :=
  if length v =? shape.1 * shape.2
  then ok {| rshape := shape; rdata := v |}
  else raise ValueError.

(** [reshape(a, n)] of a raster to a vector. *)
Definition raster_flat (a : Raster) (n : nat) : result (list num) :=
  if length (rdata a) =? n then ok (rdata a) else raise ValueError.

(** [a - b] on rasters of one shape.  NumPy's broadcasting between
    rasters of different shapes is not modelled: it is an error here. *)
Definition raster_sub (a b : Raster) : result Raster :=
  if bool_decide (rshape a = rshape b) && (length (rdata a) =? length (rdata b))
  then ok {| rshape := rshape a; rdata := zip_with fsub (rdata a) (rdata b) |}
  else raise ValueError.

(** [a + c] for a scalar [c]. *)
Definition raster_add_scalar (a : Raster) (c : num) : Raster :=
  {| rshape := rshape a; rdata := map (fun x => fadd x c) (rdata a) |}.

(** [a[~isnan(a)]]: the valid cells, as a vector. *)
Definition raster_valid (a : Raster) : list num :=
  filter (fun x => isnan x = false) (rdata a).

(** ** Objects and state *)

Definition ref : Type := nat.

(** A Python object: an interferogram, or an object without a
    [phase_data] attribute. *)
Inductive pyobj : Type :=
  | PyIfg (ifg : Ifg)
  | PyOther.

(** Ghost events: a design matrix has been constructed. *)
Inductive event : Type :=
  | EvDesignMatrix
  | EvNetworkDesignMatrix.

Record State : Type := mkState {
  heap : ref -> pyobj;
  built : list event
}.

Definition M (A : Type) : Type := State -> result A * State.

Definition ret {A} (a : A) : M A := fun st => (ok a, st).
Definition throw {A} (e : PyErr) : M A := fun st => (raise e, st).
Definition liftR {A} (c : result A) : M A := fun st => (c, st).

Definition bindM {A B} (c : M A) (k : A -> M B) : M B :=
  fun st =>
    match c st with
    | (inl e, st') => (inl e, st')
    | (inr a, st') => k a st'
    end.

Notation "'do!' x ':=' c 'in' k" := (bindM c (fun x => k))
  (at level 10, x pattern, c at level 100, k at level 200).

(** Reading the attributes of an interferogram object. *)
Definition get_ifg (r : ref) : M Ifg :=
  fun st =>
    match heap st r with
    | PyIfg ifg => (ok ifg, st)
    | PyOther => (raise AttributeError, st)
    end.

Definition set_phase_data (ifg : Ifg) (p : Raster) : Ifg :=
  {| phase_data := p; nrows := nrows ifg; ncols := ncols ifg;
     x_size := x_size ifg; y_size := y_size ifg;
     master := master ifg; slave := slave ifg |}.

Definition upd_heap (h : ref -> pyobj) (r : ref) (o : pyobj) : ref -> pyobj :=
  fun r' => if r' =? r then o else h r'.

(** Writing the phase raster of the object [r] in place. *)
Definition store_phase (r : ref) (p : Raster) : M unit :=
  fun st =>
    match heap st r with
    | PyIfg ifg =>
        (ok tt, {| heap := upd_heap (heap st) r (PyIfg (set_phase_data ifg p));
                   built := built st |})
    | PyOther => (raise AttributeError, st)
    end.

Definition log (ev : event) : M unit :=
  fun st => (ok tt, {| heap := heap st; built := built st ++ [ev] |}).

Fixpoint mapM {A B} (f : A -> M B) (l : list A) : M (list B) :=
  match l with
  | [] => ret []
  | a :: l' => do! b := f a in do! bs := mapM f l' in ret (b :: bs)
  end.

Fixpoint for_each {A} (f : A -> M unit) (l : list A) : M unit :=
  match l with
  | [] => ret tt
  | a :: l' => do! _ := f a in for_each f l'
  end.

(** ** _independent_correction *)

Definition _independent_correction (r : ref) (degree : string) (offset : bool)
    : M unit :=
  do! ifg := get_ifg r in
  do! vphase := liftR (raster_flat (phase_data ifg) (num_cells ifg)) in
  do! dm := liftR (get_design_matrix ifg degree offset) in
  do! _ := log EvDesignMatrix in
  do! tmp := liftR (bool_index (not_nan vphase) dm) in
  do! fd := liftR (bool_index (not_nan vphase) vphase) in
  let model := lstsq tmp fd in
  do! fwd := liftR (dot_mv dm model) in
  do! correction := liftR (reshape_raster fwd (rshape (phase_data ifg))) in
  do! phase := liftR (raster_sub (phase_data ifg) correction) in
  store_phase r phase.

(** ** _network_correction *)

(** [model[i:i+ncoef] for i in range(0, n * ncoef, ncoef)] *)
Definition coef_blocks (model : list num) (n ncoef : nat) : list (list num) :=
  map (fun k => take ncoef (drop (k * ncoef) model)) (seq 0 n).

(** The body of [for i in ifgs]. *)
Definition network_step (dm : list (list num)) (coefs : list (list num))
    (ids : gmap epoch nat) (shape0 : nat * nat) (offset : bool) (r : ref)
    : M unit :=
  do! i := get_ifg r in
  do! si := liftR (dict_get ids (slave i)) in
  do! cs := liftR (seq_get coefs si) in
  do! mi := liftR (dict_get ids (master i)) in
  do! cm := liftR (seq_get coefs mi) in
  do! diff := liftR (vec_sub cs cm) in
  do! orb := liftR (dot_mv dm diff) in
  do! orb := liftR (reshape_raster orb shape0) in
  if offset then
    do! tmp := liftR (raster_sub (phase_data i) orb) in
    let corr := raster_add_scalar orb (median (raster_valid tmp)) in
    do! phase := liftR (raster_sub (phase_data i) corr) in
    store_phase r phase
  else
    do! phase := liftR (raster_sub (phase_data i) orb) in
    store_phase r phase.

(** [vstack] of a list of column vectors: the stacked column, of shape
    (N, 1), given by its N cells. *)
Definition vstack (cols : list (list num)) : result (list num) :=
  match cols with
  | [] => raise ValueError
  | _ => ok (concat cols)
  end.

(** [squeeze] of a column of shape (N, 1) drops every axis of length one:
    the result is the vector of the N cells, except for N = 1, where it is
    a 0-d array holding the one cell. *)
Inductive squeezed : Type :=
  | Array0d (x : num)
  | Array1d (v : list num).

Definition squeeze (col : list num) : squeezed :=
  match col with
  | [x] => Array0d x
  | _ => Array1d col
  end.

(** What [_network_correction] does after building the network matrix when
    the stacked phase is 0-d.  The mask [~isnan(vphase)] is then a 0-d
    boolean, and indexing with it puts a new first axis in front: [tmp] has
    shape (k, 1, ncols) and [fd] shape (k), with k = 1 for a number and
    k = 0 for NaN.  For NaN the product [dot(pinv(tmp), fd)] has operands
    whose shapes do not agree.  For a number, [model] has shape
    (1, ncols): [model[i:i+ncoef]] cuts rows, every block of [coefs] has at
    most one row, and the product of the basis (with [ncoef >= 2] columns)
    and the difference of two blocks fails on the shapes for the first
    interferogram of the loop. *)
Definition network_correction_0d (x : num) (ifgs : list ref)
    (degree : string) : M unit :=
  if isnan x then throw ValueError
  else
    do! ncoef := liftR (get_num_params degree None) in
    do! objs := mapM get_ifg ifgs in
    do! ifg0 := liftR (seq_get objs 0) in
    do! dm := liftR (get_design_matrix ifg0 degree false) in
    do! _ := log EvDesignMatrix in
    throw ValueError.

Definition _network_correction (ifgs : list ref) (degree : string)
    (offset : bool) (m_ifgs : option (list ref)) : M unit :=
  let src_ifgs := match m_ifgs with None => ifgs | Some m => m end in
  do! cols := mapM (fun r => do! i := get_ifg r in
                             liftR (raster_flat (phase_data i) (num_cells i)))
                   src_ifgs in
  do! vphase := liftR (vstack cols) in
  do! src := mapM get_ifg src_ifgs in
  do! dm := liftR (get_network_design_matrix src degree offset) in
  do! _ := log EvNetworkDesignMatrix in
  match squeeze vphase with
  | Array0d x => network_correction_0d x ifgs degree
  | Array1d vphase =>
      do! tmp := liftR (bool_index (not_nan vphase) dm) in
      do! fd := liftR (bool_index (not_nan vphase) vphase) in
      do! model := liftR (dot_mv (pinv tmp) fd) in
      do! ncoef := liftR (get_num_params degree None) in
      do! objs := mapM get_ifg ifgs in
      let ids := master_slave_ids (get_all_epochs objs) in
      let coefs := coef_blocks model (size (dom ids)) ncoef in
      do! ifg0 := liftR (seq_get objs 0) in
      do! dm := liftR (get_design_matrix ifg0 degree false) in
      do! _ := log EvDesignMatrix in
      for_each (network_step dm coefs ids (ifg_shape ifg0) offset) ifgs
  end.

(** ** _validate_mlooked *)

(** [hasattr(i, 'phase_data')] *)
Definition has_phase_data (h : ref -> pyobj) (r : ref) : bool :=
  match h r with
  | PyIfg _ => true
  | PyOther => false
  end.

(** A Python sequence of objects.  The functions iterate over their
    sequences, take their length and index them, which a list and a tuple
    do alike; string formatting with [%] tells the two apart. *)
Inductive pyseq : Type :=
  | PyList (l : list ref)
  | PyTuple (l : list ref).

Definition items (s : pyseq) : list ref :=
  match s with
  | PyList l => l
  | PyTuple l => l
  end.

(** The rendering of an object in an error message (an object is shown by
    its address), and of a list of objects. *)
Definition repr_object (r : ref) : string :=
  "<object at " +:+ pretty r +:+ ">".

Definition repr_objects (l : list ref) : string :=
  "[" +:+ String.concat ", " (map repr_object l) +:+ "]".

Definition newline : string := String (Ascii.ascii_of_nat 10) EmptyString.

(** [msg % mlooked] for a message that ends in its one [%s]: a list is
    rendered as a whole; a tuple is taken as the tuple of the arguments,
    which fits the one [%s] only when it has exactly one element. *)
Definition percent_seq (msg : string) (mlooked : pyseq) : result string :=
  match mlooked with
  | PyList l => ok (msg +:+ repr_objects l)
  | PyTuple [r] => ok (msg +:+ repr_object r)
  | PyTuple _ => raise TypeError
  end.

Definition _validate_mlooked (mlooked : pyseq) (ifgs : list ref) : M unit :=
  fun st =>
    if negb (length (items mlooked) =? length ifgs) then
      (raise (OrbitalError "Mismatching # ifgs and # multilooked ifgs"), st)
    else
      let tmp := map (has_phase_data (heap st)) (items mlooked) in
      if negb (forallb id tmp) then
        match percent_seq ("Mismatching types in multilooked ifgs arg:"
                           +:+ newline) mlooked with
        | inl e => (raise e, st)
        | inr msg => (raise (OrbitalError msg), st)
        end
      else (ok tt, st).

(** ** orbital_correction *)

Definition orbital_correction (ifgs : list ref) (degree method : string)
    (mlooked : option pyseq) (offset : bool) : M unit :=
  if negb (degree_in_list degree) then
    throw (OrbitalError ("Invalid degree of " +:+ degree
                         +:+ " for orbital correction"))
  else if String.eqb method NETWORK_METHOD then
    match mlooked with
    | None => _network_correction ifgs degree offset None
    | Some ml =>
        do! _ := _validate_mlooked ml ifgs in
        _network_correction ifgs degree offset (Some (items ml))
    end
  else if String.eqb method INDEPENDENT_METHOD then
    for_each (fun i => _independent_correction i degree offset) ifgs
  else
    throw (OrbitalError ("Unknown method: '" +:+ method
                         +:+ "', need INDEPENDENT or NETWORK method")).

End Model.

(** * Concrete interferograms

    Small inputs over the exact integers, on which the definitions are
    evaluated. *)

(** A 2 x 3 raster whose phase is [x + y] for pixel sizes 3 and 2. *)
Definition ex_ifg : @Ifg Z :=
  {| phase_data := {| rshape := (2, 3); rdata := [0; 3; 6; 2; 5; 8]%Z |};
     nrows := 2; ncols := 3; x_size := 3%Z; y_size := 2%Z;
     master := 10%Z; slave := 20%Z |}.

Definition ex_ifg2 : @Ifg Z :=
  {| phase_data := {| rshape := (2, 3); rdata := [0; 3; 6; 2; 5; 8]%Z |};
     nrows := 2; ncols := 3; x_size := 3%Z; y_size := 2%Z;
     master := 20%Z; slave := 30%Z |}.

(** A 1 x 2 raster whose master and slave epochs are the same date. *)
Definition ifg_same_epoch : @Ifg Z :=
  {| phase_data := {| rshape := (1, 2); rdata := [0; 0]%Z |};
     nrows := 1; ncols := 2; x_size := 1%Z; y_size := 1%Z;
     master := 10%Z; slave := 10%Z |}.

(** A multilooked (1 x 1) copy of [ex_ifg]: the same pair of epochs. *)
Definition ex_ifg_mlooked : @Ifg Z :=
  {| phase_data := {| rshape := (1, 1); rdata := [4]%Z |};
     nrows := 1; ncols := 1; x_size := 9%Z; y_size := 4%Z;
     master := 10%Z; slave := 20%Z |}.

(** Stand-ins for the external solvers on the exact integers: a
    least-squares solver that answers the coefficients of [ex_ifg], the
    transpose in place of the pseudo-inverse (it has the shape of one), and
    the middle element in place of the median. *)
Definition ex_transpose (m : list (list Z)) : list (list Z) :=
  match m with
  | [] => []
  | row :: _ =>
      map (fun j => map (fun r => default 0%Z (r !! j)) m) (seq 0 (length row))
  end.

Definition ex_solvers : Solvers Z :=
  {| lstsq := fun _ _ => [1; 1]%Z;
     pinv := ex_transpose;
     median := fun l => default 0%Z (l !! (length l / 2)) |}.

(** A heap with [ex_ifg] at address 0, [ex_ifg2] at address 1 and objects
    without phase data elsewhere. *)
Definition ex_state : @State Z :=
  {| heap := fun r => match r with
                      | 0 => PyIfg ex_ifg
                      | 1 => PyIfg ex_ifg2
                      | _ => PyOther
                      end;
     built := [] |}.

(** A multilooked (1 x 1) copy of [ex_ifg2], and a heap that holds the two
    interferograms at addresses 0 and 1 and their multilooked copies at
    addresses 2 and 3. *)
Definition ex_ifg2_mlooked : @Ifg Z :=
  {| phase_data := {| rshape := (1, 1); rdata := [7]%Z |};
     nrows := 1; ncols := 1; x_size := 9%Z; y_size := 4%Z;
     master := 20%Z; slave := 30%Z |}.

Definition ex_state_mlooked : @State Z :=
  {| heap := fun r => match r with
                      | 0 => PyIfg ex_ifg
                      | 1 => PyIfg ex_ifg2
                      | 2 => PyIfg ex_ifg_mlooked
                      | 3 => PyIfg ex_ifg2_mlooked
                      | _ => PyOther
                      end;
     built := [] |}.

(** The same on integers with a no-data marker: a 1 x 2 raster whose
    second pixel is no-data. *)
Definition nan_ifg : @Ifg (option Z) :=
  {| phase_data := {| rshape := (1, 2); rdata := [Some 5%Z; None] |};
     nrows := 1; ncols := 2; x_size := Some 1%Z; y_size := Some 1%Z;
     master := 10%Z; slave := 20%Z |}.

Definition nan_solvers : Solvers (option Z) :=
  {| lstsq := fun _ _ => [Some 1%Z; Some 1%Z];
     pinv := fun m => m;
     median := fun l => default (Some 0%Z) (l !! (length l / 2)) |}.

Definition nan_state : @State (option Z) :=
  {| heap := fun r => match r with
                      | 0 => PyIfg nan_ifg
                      | _ => PyOther
                      end;
     built := [] |}.

(** * Properties *)

(** ** Generic list facts *)

Lemma concat_uniform_length {A} (ls : list (list A)) (n : nat) :
  Forall (fun l => length l = n) ls -> length (concat ls) = length ls * n.
Proof.
  induction 1 as [|l ls Hl _ IH]; simpl; [done|].
  rewrite length_app, IH, Hl. done.
Qed.

Lemma concat_uniform_lookup {A} (ls : list (list A)) (n r c : nat) :
  Forall (fun l => length l = n) ls -> c < n ->
  concat ls !! (r * n + c) = ls !! r ≫= (fun l => l !! c).
Proof.
  intros Hall Hc. revert r.
  induction Hall as [|l ls Hl _ IH]; intros r; simpl.
  - by rewrite !lookup_nil.
  - destruct r as [|r]; simpl.
    + rewrite lookup_app_l by lia. done.
    + rewrite lookup_app_r by lia.
      replace (n + r * n + c - length l) with (r * n + c) by lia.
      apply IH.
Qed.

Lemma degree_in_list_spec (degree : string) :
  degree_in_list degree = true <-> degree ∈ [PLANAR; QUADRATIC; PART_CUBIC].
Proof.
  unfold degree_in_list. rewrite !orb_true_iff, !String.eqb_eq.
  rewrite !elem_of_cons, elem_of_nil. tauto.
Qed.

Lemma get_num_params_valid (degree : string) (offset : option bool) :
  degree ∈ [PLANAR; QUADRATIC; PART_CUBIC] ->
  exists n, get_num_params degree offset = ok n /\ 2 <= n.
Proof.
  rewrite !elem_of_cons, elem_of_nil.
  intros [->|[->|[->|[]]]]; destruct offset as [[]|]; vm_compute; eauto 10.
Qed.

(** C5.  [get_num_params] gives 2 for PLANAR, 5 for QUADRATIC and 6 for
    PART_CUBIC, one more exactly when [offset] is [True] (and not for
    [False] or the default [None]); a degree outside the enumeration
    raises the orbital error for an invalid degree. *)
Theorem get_num_params_spec (offset : option bool) :
  let extra := match offset with Some true => 1 | _ => 0 end in
  get_num_params PLANAR offset = ok (2 + extra) /\
  get_num_params QUADRATIC offset = ok (5 + extra) /\
  get_num_params PART_CUBIC offset = ok (6 + extra) /\
  (forall degree : string,
     degree ∉ [PLANAR; QUADRATIC; PART_CUBIC] ->
     get_num_params degree offset
     = raise (OrbitalError ("Invalid orbital model degree: " +:+ degree))).
Proof.
  repeat split; try (by destruct offset as [[]|]).
  intros degree Hd. unfold get_num_params.
  rewrite !elem_of_cons, elem_of_nil in Hd.
  destruct (String.eqb_spec degree PLANAR); [tauto|].
  destruct (String.eqb_spec degree QUADRATIC); [tauto|].
  destruct (String.eqb_spec degree PART_CUBIC); [tauto|].
  done.
Qed.

Lemma get_num_params_spec_witness :
  get_num_params "CUBIC" (Some true)
  = raise (OrbitalError "Invalid orbital model degree: CUBIC").
Proof.
  apply (get_num_params_spec (Some true)).
  rewrite !elem_of_cons, elem_of_nil. vm_compute.
  intros [H|[H|[H|[]]]]; discriminate H.
Defined.

Section DesignMatrix.
Context {num : Type} {NUM : Numeric num}.
Implicit Types (ifg : @Ifg num) (degree : string) (offset : bool).

Lemma meshgrid_x_lookup (nr nc r c : nat) :
  r < nr -> c < nc ->
  concat (meshgrid (range nc) (range nr)).1 !! (r * nc + c) = Some c.
Proof.
  intros Hr Hc. unfold meshgrid, range; simpl.
  rewrite (concat_uniform_lookup _ nc).
  - rewrite list_lookup_fmap, lookup_seq_lt by done. simpl.
    by rewrite lookup_seq_lt.
  - apply Forall_fmap, Forall_forall. intros. simpl. by rewrite length_seq.
  - done.
Qed.

Lemma meshgrid_y_lookup (nr nc r c : nat) :
  r < nr -> c < nc ->
  concat (meshgrid (range nc) (range nr)).2 !! (r * nc + c) = Some r.
Proof.
  intros Hr Hc. unfold meshgrid, range; simpl.
  rewrite (concat_uniform_lookup _ nc).
  - rewrite list_lookup_fmap, lookup_seq_lt by done. simpl.
    by rewrite list_lookup_fmap, lookup_seq_lt.
  - apply Forall_fmap, Forall_forall. intros. simpl.
    by rewrite length_map, length_seq.
  - done.
Qed.

Lemma meshgrid_length (nr nc : nat) :
  length (concat (meshgrid (range nc) (range nr)).1) = nr * nc /\
  length (concat (meshgrid (range nc) (range nr)).2) = nr * nc.
Proof.
  unfold meshgrid, range; simpl. split.
  - rewrite (concat_uniform_length _ nc).
    + by rewrite length_map, length_seq.
    + apply Forall_fmap, Forall_forall. intros. simpl. by rewrite length_seq.
  - rewrite (concat_uniform_length _ nc).
    + by rewrite length_map, length_seq.
    + apply Forall_fmap, Forall_forall. intros. simpl.
      by rewrite length_map, length_seq.
Qed.

(** The polynomial terms of the three degrees, as the specification lists
    them. *)
Definition poly_terms (degree : string) (x y : num) : list num :=
  if decide (degree = PLANAR) then [x; y]
  else if decide (degree = QUADRATIC) then
    [fmul x x; fmul y y; fmul x y; x; y]
  else [fmul x (fmul y y); fmul x x; fmul y y; fmul x y; x; y].

Lemma design_row_terms degree offset (n : nat) (x y : num) :
  degree ∈ [PLANAR; QUADRATIC; PART_CUBIC] ->
  get_num_params degree (Some offset) = ok n ->
  design_row degree offset n x y
  = poly_terms degree x y ++ (if offset then [f1] else []).
Proof.
  rewrite !elem_of_cons, elem_of_nil.
  intros [->|[->|[->|[]]]]; destruct offset; intros [= <-]; reflexivity.
Qed.

Lemma get_design_matrix_unfold ifg degree offset :
  degree ∈ [PLANAR; QUADRATIC; PART_CUBIC] ->
  exists n,
    get_num_params degree (Some offset) = ok n /\
    get_design_matrix ifg degree offset
    = ok (zip_with (design_row degree offset n)
            (map (fun c => fmul (of_nat c) (x_size ifg))
                 (concat (meshgrid (range (ncols ifg)) (range (nrows ifg))).1))
            (map (fun r => fmul (of_nat r) (y_size ifg))
                 (concat (meshgrid (range (ncols ifg)) (range (nrows ifg))).2))).
Proof.
  intros Hd.
  destruct (get_num_params_valid degree (Some offset) Hd) as (n & Hn & _).
  exists n. split; [done|].
  unfold get_design_matrix.
  apply degree_in_list_spec in Hd. rewrite Hd, Hn. simpl.
  destruct (meshgrid_length (nrows ifg) (ncols ifg)) as [Hx Hy].
  unfold reshape_flat, num_cells. simpl in Hx, Hy |- *.
  rewrite Hx, Hy, Nat.eqb_refl. done.
Qed.

(** C2.  For a degree of the enumeration, [get_design_matrix] returns a
    matrix with [num_cells] rows, one per pixel in row-major order, and
    [get_num_params degree offset] columns.  The row of the pixel in row
    [r] and column [c] holds, for [x = c * x_size] and [y = r * y_size],
    the terms [x, y] (PLANAR), [x², y², x·y, x, y] (QUADRATIC) or
    [x·y², x², y², x·y, x, y] (PART_CUBIC), followed by a final one exactly
    when [offset] is true.  The function only reads its argument (it has no
    state to write), and its result is the same whatever the phase raster
    holds, no-data pixels included. *)
Theorem get_design_matrix_spec ifg degree offset :
  degree ∈ [PLANAR; QUADRATIC; PART_CUBIC] ->
  exists dm : list (list num),
    get_design_matrix ifg degree offset = ok dm /\
    length dm = num_cells ifg /\
    Forall (fun row => get_num_params degree (Some offset) = ok (length row)) dm /\
    (forall r c, r < nrows ifg -> c < ncols ifg ->
       let x := fmul (of_nat c) (x_size ifg) in
       let y := fmul (of_nat r) (y_size ifg) in
       exists row,
         dm !! (r * ncols ifg + c) = Some row /\
         row = poly_terms degree x y ++ (if offset then [f1] else []) /\
         (degree = PLANAR -> poly_terms degree x y = [x; y]) /\
         (degree = QUADRATIC ->
            poly_terms degree x y = [fmul x x; fmul y y; fmul x y; x; y]) /\
         (degree = PART_CUBIC ->
            poly_terms degree x y
            = [fmul x (fmul y y); fmul x x; fmul y y; fmul x y; x; y]) /\
         (offset = true <-> last row = Some f1 /\
                            length row = S (length (poly_terms degree x y)))) /\
    (forall phase : Raster,
       get_design_matrix (set_phase_data ifg phase) degree offset = ok dm).
Proof.
  intros Hd.
  destruct (get_design_matrix_unfold ifg degree offset Hd) as (n & Hn & Hdm).
  destruct (meshgrid_length (nrows ifg) (ncols ifg)) as [Hx Hy].
  eexists. split; [exact Hdm|]. split; [|split; [|split]].
  - rewrite length_zip_with, !length_map, Hx, Hy. unfold num_cells. lia.
  - apply Forall_forall. intros row Hrow.
    apply list_elem_of_lookup in Hrow as [k Hk].
    apply lookup_zip_with_Some in Hk as (x & y & -> & _ & _).
    rewrite (design_row_terms _ _ n) by done.
    rewrite Hn. f_equal.
    revert Hd Hn. rewrite !elem_of_cons, elem_of_nil.
    intros [->|[->|[->|[]]]]; destruct offset; intros [= <-]; reflexivity.
  - intros r c Hr Hc x y. eexists. split; [|split; [reflexivity|]].
    + rewrite lookup_zip_with, !list_lookup_fmap.
      rewrite meshgrid_x_lookup, meshgrid_y_lookup by done. simpl.
      by rewrite (design_row_terms _ _ n).
    + split; [by intros ->|]. split; [by intros ->|]. split; [by intros ->|].
      destruct offset.
      * split; [intros _|done]. split; [apply last_snoc|].
        rewrite length_app. simpl. lia.
      * split; [done|]. intros [_ Hlen]. rewrite app_nil_r in Hlen. lia.
  - intros phase.
    destruct (get_design_matrix_unfold (set_phase_data ifg phase) degree offset Hd)
      as (n' & Hn' & Hdm').
    rewrite Hn in Hn'. injection Hn' as <-. exact Hdm'.
Qed.

End DesignMatrix.

(** ** The state monad *)

Section Monad.
Context {num : Type} {NUM : Numeric num}.
Implicit Types (st : @State num).

Lemma bindM_inv {A B} (c : M A) (k : A -> M B) st (r : result B) st' :
  bindM c k st = (r, st') ->
  (exists e, c st = (inl e, st') /\ r = inl e) \/
  (exists a st1, c st = (inr a, st1) /\ k a st1 = (r, st')).
Proof.
  unfold bindM. destruct (c st) as [[e|a] st1]; intros H.
  - left. exists e. by inversion H.
  - right. by exists a, st1.
Qed.

Lemma bindM_ok_inv {A B} (c : M A) (k : A -> M B) st (b : B) st' :
  bindM c k st = (inr b, st') ->
  exists a st1, c st = (inr a, st1) /\ k a st1 = (inr b, st').
Proof.
  intros H. apply bindM_inv in H as [(e & _ & [=])|H]. done.
Qed.

Lemma liftR_inv {A} (c : result A) st (r : result A) st' :
  liftR c st = (r, st') -> r = c /\ st' = st.
Proof. by intros [= <- <-]. Qed.

Lemma get_ifg_inv (x : ref) st (r : result Ifg) st' :
  get_ifg x st = (r, st') -> st' = st.
Proof. unfold get_ifg. destruct (heap st x); by intros [= _ <-]. Qed.

Lemma get_ifg_ok_inv (x : ref) st (i : Ifg) st' :
  get_ifg x st = (inr i, st') -> heap st x = PyIfg i /\ st' = st.
Proof. unfold get_ifg. destruct (heap st x); intros [=]; by subst. Qed.

Lemma log_inv (ev : event) st (r : result unit) st' :
  log ev st = (r, st') ->
  r = inr tt /\ heap st' = heap st /\ built st' = built st ++ [ev].
Proof. by intros [= <- <-]. Qed.

(** A computation that leaves the heap as it found it. *)
Definition heap_pres {A} (c : M A) : Prop :=
  forall st r st', c st = (r, st') -> heap st' = heap st.

Lemma heap_pres_bind {A B} (c : M A) (k : A -> M B) :
  heap_pres c -> (forall a, heap_pres (k a)) -> heap_pres (bindM c k).
Proof.
  intros Hc Hk st r st' H.
  apply bindM_inv in H as [(e & H & _)|(a & st1 & H1 & H2)].
  - by eapply Hc.
  - rewrite (Hk _ _ _ _ H2). by eapply Hc.
Qed.

Lemma heap_pres_liftR {A} (c : result A) : heap_pres (liftR c).
Proof. by intros st r st' [= _ <-]. Qed.

Lemma heap_pres_ret {A} (a : A) : heap_pres (ret a).
Proof. by intros st r st' [= _ <-]. Qed.

Lemma heap_pres_get_ifg (x : ref) : heap_pres (get_ifg x).
Proof. intros st r st' H. by rewrite (get_ifg_inv _ _ _ _ H). Qed.

Lemma heap_pres_log (ev : event) : heap_pres (log ev).
Proof. by intros st r st' [= _ <-]. Qed.

Lemma heap_pres_mapM {A B} (f : A -> M B) (l : list A) :
  (forall a, heap_pres (f a)) -> heap_pres (mapM f l).
Proof.
  intros Hf. induction l as [|a l IH]; simpl.
  - apply heap_pres_ret.
  - apply heap_pres_bind; [done|]. intros b.
    apply heap_pres_bind; [done|]. intros bs. apply heap_pres_ret.
Qed.

Lemma heap_pres_throw {A} (e : PyErr) : heap_pres (throw (A := A) e).
Proof. by intros st r st' [= _ <-]. Qed.

(** The run on a 0-d stack touches no object and never returns. *)
Lemma heap_pres_network_0d (x : num) (ifgs : list ref) (degree : string) :
  heap_pres (network_correction_0d x ifgs degree).
Proof.
  unfold network_correction_0d. destruct (isnan x); [apply heap_pres_throw|].
  repeat (apply heap_pres_bind;
          [first [apply heap_pres_liftR | apply heap_pres_log
                 | apply heap_pres_mapM; intros ?; apply heap_pres_get_ifg]
          |intros ?]).
  apply heap_pres_throw.
Qed.

Lemma network_0d_raises (x : num) (ifgs : list ref) (degree : string)
    st r st' :
  network_correction_0d x ifgs degree st = (r, st') -> exists e, r = inl e.
Proof.
  unfold network_correction_0d. destruct (isnan x).
  { intros [= <- _]. by eexists. }
  intros H.
  repeat (apply bindM_inv in H as [(e & H & ->)|(? & ? & _ & H)];
          [by eexists|]).
  injection H as <- _. by eexists.
Qed.

Lemma mapM_get_ifg_ok (l : list ref) st (objs : list Ifg) st' :
  mapM get_ifg l st = (inr objs, st') ->
  st' = st /\ Forall2 (fun r i => heap st r = PyIfg i) l objs.
Proof.
  revert objs st'. induction l as [|a l IH]; simpl; intros objs st' H.
  - injection H as <- <-. by split.
  - apply bindM_ok_inv in H as (i & st1 & H1 & H).
    apply get_ifg_ok_inv in H1 as [Hi ->].
    apply bindM_ok_inv in H as (is' & st2 & H2 & H).
    apply IH in H2 as [-> Hall].
    injection H as <- <-. split; [done|]. by constructor.
Qed.

End Monad.

(** Inversion of a successful [liftR] step of a computation. *)
Tactic Notation "bind_liftR" hyp(H) ident(x) ident(Hx) :=
  apply bindM_ok_inv in H as (x & ? & Hx & H);
  apply liftR_inv in Hx as [Hx ->].

Create HintDb heap_pres.
#[global] Hint Resolve heap_pres_liftR heap_pres_ret heap_pres_get_ifg
  heap_pres_log heap_pres_mapM heap_pres_bind : heap_pres.

(** ** The orchestrator: validation failures *)

Section Orchestrator.
Context {num : Type} {NUM : Numeric num} {SOLV : Solvers num}.
Implicit Types (st : @State num) (ifgs ml : list ref) (degree method : string).

(** C8.  With a degree of the enumeration and a method that is neither
    INDEPENDENT_METHOD nor NETWORK_METHOD, [orbital_correction] raises the
    orbital error that names the unknown method, and the state it leaves is
    the state it was given: every phase raster is unchanged (and no design
    matrix was constructed). *)
Theorem orbital_correction_unknown_method ifgs degree method
    (mlooked : option pyseq) (offset : bool) st :
  degree ∈ [PLANAR; QUADRATIC; PART_CUBIC] ->
  method ∉ [INDEPENDENT_METHOD; NETWORK_METHOD] ->
  orbital_correction ifgs degree method mlooked offset st
  = (raise (OrbitalError ("Unknown method: '" +:+ method
                          +:+ "', need INDEPENDENT or NETWORK method")), st).
Proof.
  intros Hd Hm. unfold orbital_correction.
  apply degree_in_list_spec in Hd. rewrite Hd. simpl.
  rewrite !elem_of_cons, elem_of_nil in Hm.
  destruct (String.eqb_spec method NETWORK_METHOD); [tauto|].
  destruct (String.eqb_spec method INDEPENDENT_METHOD); [tauto|].
  done.
Qed.

(** The multilooked sequence is rejected by [_validate_mlooked]: its length
    differs from that of [ifgs], or one of its elements has no [phase_data]
    attribute. *)
Definition mlooked_mismatch st (ml : list ref) ifgs : Prop :=
  length ml ≠ length ifgs \/ exists r, r ∈ ml /\ heap st r = PyOther.

(** The sequence is a tuple as long as [ifgs], of other than one element:
    the tuples for which formatting the message of the type mismatch
    fails. *)
Definition tuple_slip (ml : pyseq) ifgs : Prop :=
  match ml with
  | PyList _ => False
  | PyTuple l => length l = length ifgs /\ length l ≠ 1
  end.

Lemma validate_mlooked_mismatch st (ml : pyseq) ifgs :
  mlooked_mismatch st (items ml) ifgs ->
  exists e, _validate_mlooked ml ifgs st = (raise e, st) /\
    (tuple_slip ml ifgs -> e = TypeError) /\
    (~ tuple_slip ml ifgs -> exists msg, e = OrbitalError msg).
Proof.
  intros Hmis. unfold _validate_mlooked.
  destruct (Nat.eqb_spec (length (items ml)) (length ifgs)) as [Hlen|Hlen];
    simpl.
  2:{ eexists. split; [done|]. split; [|by eexists].
      destruct ml; simpl in *; [done|]. by intros [? _]. }
  destruct Hmis as [Hne|(r & Hr & Hobj)]; [done|].
  assert (forallb id (map (has_phase_data (heap st)) (items ml)) = false) as ->.
  { apply not_true_is_false. intros Hall.
    rewrite forallb_forall in Hall.
    assert (id (has_phase_data (heap st) r) = true) as Hc
      by (apply Hall, in_map, list_elem_of_In, Hr).
    unfold id, has_phase_data in Hc. rewrite Hobj in Hc. discriminate Hc. }
  simpl. destruct ml as [l|[|r1 [|r2 l]]]; simpl in *.
  - eexists. split; [done|]. split; [done|by eexists].
  - by apply elem_of_nil in Hr.
  - eexists. split; [done|]. split; [by intros [_ ?]|by eexists].
  - eexists. split; [done|]. split; [done|]. intros []. split; [done|lia].
Qed.

(** X13.  The outcome of the NETWORK method for a multilooked sequence whose
    length differs from that of [ifgs], or which holds an element without
    the phase-data attribute: an error is raised and the state is left as
    it was (the log of constructed design matrices has not grown, and no
    phase raster has changed).  The error is an [OrbitalError], except for
    a valid degree and a tuple, as long as [ifgs], of two or more elements,
    where formatting the message raises [TypeError] instead. *)
Theorem orbital_correction_mlooked_mismatch ifgs degree (ml : pyseq)
    (offset : bool) st :
  mlooked_mismatch st (items ml) ifgs ->
  exists e,
    orbital_correction ifgs degree NETWORK_METHOD (Some ml) offset st
    = (raise e, st) /\
    (degree_in_list degree = true /\ tuple_slip ml ifgs -> e = TypeError) /\
    (~ (degree_in_list degree = true /\ tuple_slip ml ifgs) ->
       exists msg, e = OrbitalError msg).
Proof.
  intros Hmis. unfold orbital_correction.
  destruct (degree_in_list degree); simpl.
  2:{ eexists. split; [done|]. split; [by intros [? _]|by eexists]. }
  destruct (validate_mlooked_mismatch _ _ _ Hmis) as (e & Hrun & Hslip & Hok).
  exists e. unfold bindM. rewrite Hrun. split; [done|]. split.
  - intros [_ H]. by apply Hslip.
  - intros H. apply Hok. tauto.
Qed.

End Orchestrator.

(** ** No-data pixels stay no-data *)

Section NoData.
Context {num : Type} {NUM : Numeric num} {SOLV : Solvers num}.
Implicit Types (st : @State num) (h : ref -> @pyobj num).

(** Every interferogram of [h] is an interferogram of [h'], and each of its
    cells that holds the no-data marker still holds it. *)
Definition nan_kept h h' : Prop :=
  forall r ifg, h r = PyIfg ifg ->
    exists ifg', h' r = PyIfg ifg' /\
      forall p v, rdata (phase_data ifg) !! p = Some v -> isnan v = true ->
        exists v', rdata (phase_data ifg') !! p = Some v' /\ isnan v' = true.

Lemma nan_kept_refl h : nan_kept h h.
Proof. intros r ifg H. exists ifg. eauto. Qed.

Lemma nan_kept_trans h1 h2 h3 :
  nan_kept h1 h2 -> nan_kept h2 h3 -> nan_kept h1 h3.
Proof.
  intros H12 H23 r ifg H.
  destruct (H12 r ifg H) as (ifg2 & H2 & Hc2).
  destruct (H23 r ifg2 H2) as (ifg3 & H3 & Hc3).
  exists ifg3. split; [done|]. intros p v Hv Hnan.
  destruct (Hc2 p v Hv Hnan) as (v2 & Hv2 & Hnan2). eauto.
Qed.

Definition nan_pres {A} (c : M A) : Prop :=
  forall st r st', c st = (r, st') -> nan_kept (heap st) (heap st').

(** The continuation of a loop body that has read the object [x]. *)
Definition step_ok (x : ref) (i : Ifg) {A} (c : M A) : Prop :=
  forall st r st', heap st x = PyIfg i -> c st = (r, st') ->
    nan_kept (heap st) (heap st').

Lemma heap_pres_nan_pres {A} (c : M A) : heap_pres c -> nan_pres c.
Proof. intros Hc st r st' H. rewrite (Hc _ _ _ H). apply nan_kept_refl. Qed.

Lemma nan_pres_bind {A B} (c : M A) (k : A -> M B) :
  nan_pres c -> (forall a, nan_pres (k a)) -> nan_pres (bindM c k).
Proof.
  intros Hc Hk st r st' H.
  apply bindM_inv in H as [(e & H & _)|(a & st1 & H1 & H2)].
  - by eapply Hc.
  - eapply nan_kept_trans; [by eapply Hc|by eapply Hk].
Qed.

Lemma nan_pres_for_each {A} (f : A -> M unit) (l : list A) :
  (forall a, nan_pres (f a)) -> nan_pres (for_each f l).
Proof.
  intros Hf. induction l as [|a l IH]; simpl.
  - apply heap_pres_nan_pres, heap_pres_ret.
  - apply nan_pres_bind; [done|]. by intros [].
Qed.

Lemma step_ok_liftR_bind x i {A B} (c : result A) (k : A -> M B) :
  (forall a, c = inr a -> step_ok x i (k a)) ->
  step_ok x i (bindM (liftR c) k).
Proof.
  intros Hk st r st' Hx H.
  apply bindM_inv in H as [(e & H & _)|(a & st1 & H1 & H2)].
  - apply liftR_inv in H as [_ ->]. apply nan_kept_refl.
  - apply liftR_inv in H1 as [<- ->]. by eapply Hk.
Qed.

Lemma step_ok_log_bind x i {B} (ev : event) (k : unit -> M B) :
  step_ok x i (k tt) -> step_ok x i (bindM (log ev) k).
Proof.
  intros Hk st r st' Hx H.
  apply bindM_inv in H as [(e & [=] & _)|(a & st1 & H1 & H2)].
  apply log_inv in H1 as (_ & Hh & _). destruct a.
  rewrite <- Hh. apply (Hk _ _ _) in H2; [done|]. by rewrite Hh.
Qed.

Lemma step_ok_get_ifg (x : ref) {B} (k : Ifg -> M B) :
  (forall i, step_ok x i (k i)) -> nan_pres (bindM (get_ifg x) k).
Proof.
  intros Hk st r st' H.
  apply bindM_inv in H as [(e & H & _)|(a & st1 & H1 & H2)].
  - apply get_ifg_inv in H as ->. apply nan_kept_refl.
  - apply get_ifg_ok_inv in H1 as [Hx ->]. by eapply Hk.
Qed.

Hypothesis nan_sub : forall a b : num, isnan a = true -> isnan (fsub a b) = true.

Lemma step_ok_store x i (q p : Raster) :
  raster_sub (phase_data i) q = inr p -> step_ok x i (store_phase x p).
Proof using nan_sub.
  intros Hsub st r st' Hx H. unfold store_phase in H. rewrite Hx in H.
  injection H as <- <-. simpl.
  intros y ifg Hy. unfold upd_heap.
  destruct (Nat.eqb_spec y x) as [->|Hne]; [|by eapply nan_kept_refl].
  eexists. split; [done|]. simpl.
  rewrite Hx in Hy. injection Hy as <-.
  unfold raster_sub in Hsub.
  destruct (_ && _) eqn:Hc; [|done]. injection Hsub as <-. simpl.
  apply andb_true_iff in Hc as [_ Hlen%Nat.eqb_eq].
  intros k v Hv Hnan.
  destruct (lookup_lt_is_Some_2 (rdata q) k) as [w Hw].
  { rewrite <- Hlen. by eapply lookup_lt_Some. }
  exists (fsub v w). split; [|by apply nan_sub].
  rewrite lookup_zip_with, Hv. simpl. by rewrite Hw.
Qed.

Lemma independent_nan_pres (x : ref) (degree : string) (offset : bool) :
  nan_pres (_independent_correction x degree offset).
Proof using nan_sub.
  unfold _independent_correction.
  apply step_ok_get_ifg. intros i.
  repeat (first [apply step_ok_liftR_bind; intros ? ?
                |apply step_ok_log_bind]).
  by eapply step_ok_store.
Qed.

Lemma network_step_nan_pres dm coefs ids shape0 (offset : bool) (x : ref) :
  nan_pres (network_step dm coefs ids shape0 offset x).
Proof using nan_sub.
  unfold network_step.
  apply step_ok_get_ifg. intros i.
  do 7 (apply step_ok_liftR_bind; intros ? ?).
  destruct offset;
    repeat (apply step_ok_liftR_bind; intros ? ?); by eapply step_ok_store.
Qed.

Lemma network_nan_pres (ifgs : list ref) (degree : string) (offset : bool)
    (m_ifgs : option (list ref)) :
  nan_pres (_network_correction ifgs degree offset m_ifgs).
Proof using nan_sub.
  unfold _network_correction.
  do 5 (apply nan_pres_bind;
        [apply heap_pres_nan_pres; auto 6 with heap_pres|intros ?]).
  destruct (squeeze _); [apply heap_pres_nan_pres, heap_pres_network_0d|].
  repeat (apply nan_pres_bind;
          [apply heap_pres_nan_pres; auto 6 with heap_pres|intros ?]).
  apply nan_pres_for_each. intros x. apply network_step_nan_pres.
Qed.

End NoData.

(** C9.  In an arithmetic where a difference with a no-data minuend is
    no-data, the independent and the network correction (and so the
    orchestrator), whether they return or raise, leave every pixel that
    held the no-data marker holding it. *)
Theorem nodata_stays_nodata {num : Type} {NUM : Numeric num} {SOLV : Solvers num} :
  (forall a b : num, isnan a = true -> isnan (fsub a b) = true) ->
  forall (st : @State num) (degree : string) (offset : bool),
    (forall (x : ref) res st',
       _independent_correction x degree offset st = (res, st') ->
       nan_kept (heap st) (heap st')) /\
    (forall (ifgs : list ref) (m_ifgs : option (list ref)) res st',
       _network_correction ifgs degree offset m_ifgs st = (res, st') ->
       nan_kept (heap st) (heap st')) /\
    (forall (ifgs : list ref) (method : string) (mlooked : option pyseq)
            res st',
       orbital_correction ifgs degree method mlooked offset st = (res, st') ->
       nan_kept (heap st) (heap st')).
Proof.
  intros nan_sub st degree offset. split; [|split].
  - intros x res st' H. by eapply independent_nan_pres.
  - intros ifgs m_ifgs res st' H. by eapply network_nan_pres.
  - intros ifgs method mlooked res st'. unfold orbital_correction.
    destruct (degree_in_list degree); simpl.
    2:{ intros [= _ <-]. apply nan_kept_refl. }
    destruct (String.eqb method NETWORK_METHOD).
    { destruct mlooked as [ml|]; intros H; [|by eapply network_nan_pres].
      revert H. apply nan_pres_bind; [|intros ?; by apply network_nan_pres].
      intros s r s'. unfold _validate_mlooked.
      repeat case_match; intros [= _ <-]; apply nan_kept_refl. }
    destruct (String.eqb method INDEPENDENT_METHOD).
    { apply nan_pres_for_each. intros x. by apply independent_nan_pres. }
    intros [= _ <-]. apply nan_kept_refl.
Qed.

(** ** Epoch indexing *)

Section Epochs.

Definition ids_step (ids : gmap epoch nat) (d : epoch) : gmap epoch nat :=
  match ids !! d with
  | Some _ => ids
  | None => <[d := size ids]> ids
  end.

(** A dense index: every value is below the size and no value is
    assigned twice. *)
Definition dense (ids : gmap epoch nat) : Prop :=
  (forall d k, ids !! d = Some k -> k < size ids) /\
  (forall d1 d2 k, ids !! d1 = Some k -> ids !! d2 = Some k -> d1 = d2).

Lemma dense_empty : dense ∅.
Proof. split; intros *; by rewrite lookup_empty. Qed.

Lemma dense_step ids d : dense ids -> dense (ids_step ids d).
Proof.
  intros [Hlt Hinj]. unfold ids_step.
  destruct (ids !! d) eqn:Hd; [done|]. split.
  - intros d' k. rewrite map_size_insert_None by done.
    rewrite lookup_insert. case_decide.
    + intros [= <-]. lia.
    + intros H'. apply Hlt in H'. lia.
  - intros d1 d2 k. rewrite !lookup_insert.
    repeat case_decide; subst; try done.
    + intros [= <-] H2. apply Hlt in H2. lia.
    + intros H1 [= <-]. apply Hlt in H1. lia.
    + apply Hinj.
Qed.

Lemma ids_step_dom ids d : dom (ids_step ids d) = {[d]} ∪ dom ids.
Proof.
  unfold ids_step. destruct (ids !! d) eqn:Hd.
  - apply (elem_of_dom_2 ids) in Hd. set_solver.
  - by rewrite dom_insert_L.
Qed.

Lemma ids_fold_spec (dates : list epoch) (acc : gmap epoch nat) :
  dense acc ->
  dense (foldl ids_step acc dates) /\
  dom (foldl ids_step acc dates) = list_to_set dates ∪ dom acc.
Proof.
  revert acc. induction dates as [|d dates IH]; intros acc Hacc; simpl.
  - split; [done|]. set_solver.
  - destruct (IH (ids_step acc d) (dense_step _ _ Hacc)) as [Hd Hdom].
    split; [done|]. rewrite Hdom, ids_step_dom. set_solver.
Qed.

Lemma master_slave_ids_dense (dates : list epoch) : dense (master_slave_ids dates).
Proof. apply (ids_fold_spec dates ∅ dense_empty). Qed.

Lemma master_slave_ids_dom (dates : list epoch) :
  dom (master_slave_ids dates) = list_to_set dates.
Proof.
  destruct (ids_fold_spec dates ∅ dense_empty) as [_ H].
  unfold master_slave_ids. fold ids_step. rewrite H. set_solver.
Qed.

Lemma master_slave_ids_size (dates : list epoch) :
  size (master_slave_ids dates) = size (list_to_set dates : gset epoch).
Proof. by rewrite <- master_slave_ids_dom, size_dom. Qed.

Lemma master_slave_ids_lookup (dates : list epoch) (d : epoch) :
  d ∈ dates ->
  exists k, master_slave_ids dates !! d = Some k /\
            k < size (list_to_set dates : gset epoch).
Proof.
  intros Hd.
  assert (d ∈ dom (master_slave_ids dates)) as [k Hk]%elem_of_dom.
  { rewrite master_slave_ids_dom. set_solver. }
  exists k. split; [done|]. rewrite <- master_slave_ids_size.
  by eapply (master_slave_ids_dense dates).
Qed.

End Epochs.

Section EpochAgreement.
Context {num : Type} {NUM : Numeric num}.
Implicit Types (st : @State num) (ifgs mlooked : list (@Ifg num)).

(** The two sequences pair up interferograms of the same epochs. *)
Definition same_epochs mlooked ifgs : Prop :=
  Forall2 (fun m i => master m = master i /\ slave m = slave i) mlooked ifgs.

Lemma same_epochs_dates mlooked ifgs :
  same_epochs mlooked ifgs ->
  map master mlooked ++ map slave mlooked = get_all_epochs ifgs.
Proof.
  intros Hsame. unfold get_all_epochs.
  assert (map master mlooked = map master ifgs /\
          map slave mlooked = map slave ifgs) as [-> ->]; [|done].
  induction Hsame as [|m i ml is' [Hm Hs] _ [IHm IHs]]; [done|].
  simpl. by rewrite Hm, Hs, IHm, IHs.
Qed.

Lemma validate_mlooked_ok st (ml : pyseq) (ifgs : list ref) :
  length (items ml) = length ifgs ->
  (forall r, r ∈ items ml -> has_phase_data (heap st) r = true) ->
  _validate_mlooked ml ifgs st = (ok tt, st).
Proof.
  intros Hlen Hall. unfold _validate_mlooked.
  rewrite Hlen, Nat.eqb_refl. simpl.
  assert (forallb id (map (has_phase_data (heap st)) (items ml)) = true)
    as ->; [|done].
  apply forallb_forall. intros b [r [<- Hr]]%in_map_iff.
  apply Hall, list_elem_of_In, Hr.
Qed.

End EpochAgreement.


(** ** The network design matrix *)

Section ArrayAssign.
Context {num : Type} {NUM : Numeric num}.
Implicit Types (row brow vals : list num) (ndm blk : list (list num)).

(** The row [row] with [vals] written from column [c] on. *)
Definition put row (c : nat) vals : list num :=
  take c row ++ vals ++ drop (c + length vals) row.

Lemma put_length row c vals :
  c + length vals <= length row -> length (put row c vals) = length row.
Proof.
  intros H. unfold put. rewrite !length_app, length_take, length_drop. lia.
Qed.

Lemma put_lookup_in row c vals k :
  c + length vals <= length row -> k < length vals ->
  put row c vals !! (c + k) = vals !! k.
Proof.
  intros H Hk. unfold put.
  rewrite lookup_app_r by (rewrite length_take; lia).
  rewrite length_take, lookup_app_l by lia. f_equal. lia.
Qed.

Lemma put_lookup_out row c vals j :
  c + length vals <= length row -> j < c \/ c + length vals <= j ->
  put row c vals !! j = row !! j.
Proof.
  intros H Hj. unfold put. destruct (decide (j < c)).
  - rewrite lookup_app_l by (rewrite length_take; lia).
    by rewrite lookup_take_lt.
  - rewrite lookup_app_r by (rewrite length_take; lia).
    rewrite length_take, lookup_app_r by lia.
    rewrite lookup_drop. f_equal. lia.
Qed.

Lemma drop_app_app {A} (l1 l2 l3 : list A) :
  drop (length l1 + length l2) (l1 ++ l2 ++ l3) = l3.
Proof.
  rewrite app_assoc, <- length_app. apply drop_app_length.
Qed.

Lemma broadcast_to_exact {A} (l : list A) : broadcast_to (length l) l = Some l.
Proof. unfold broadcast_to. by rewrite Nat.eqb_refl. Qed.

Lemma mapR_ok_map {A B} (f : A -> result B) (g : A -> B) (l : list A) :
  Forall (fun a => f a = ok (g a)) l -> mapR f l = ok (map g l).
Proof.
  induction 1 as [|a l Ha _ IH]; simpl; [done|]. by rewrite Ha, IH.
Qed.

Lemma assign_row_exact row c vals :
  c + length vals <= length row ->
  assign_row row c (c + length vals) vals = ok (put row c vals).
Proof.
  intros H. unfold assign_row.
  rewrite (Nat.min_l c), (Nat.min_l (c + length vals)) by lia.
  replace (c + length vals - c) with (length vals) by lia.
  by rewrite broadcast_to_exact.
Qed.

Lemma assign_block_mid (above old below blk : list (list num)) (c w : nat) :
  length blk = length old ->
  Forall (fun r => c + w <= length r) old ->
  Forall (fun b => length b = w) blk ->
  assign_block (above ++ old ++ below) (length above)
               (length above + length old) c (c + w) blk
  = ok (above ++ zip_with (fun r b => put r c b) old blk ++ below).
Proof.
  intros Hlen Hold Hblk. unfold assign_block.
  rewrite !length_app.
  rewrite (Nat.min_l (length above)), (Nat.min_l (length above + length old))
    by lia.
  replace (length above + length old - length above) with (length old) by lia.
  rewrite <- Hlen at 1. rewrite broadcast_to_exact.
  rewrite drop_app_length, take_app_length, take_app_length.
  rewrite (mapR_ok_map _ (fun rb => put rb.1 c rb.2)).
  - simpl. rewrite drop_app_app.
    rewrite (zip_with_zip (fun r b => put r c b)).
    do 3 f_equal. apply map_ext. by intros [r b].
  - apply Forall_forall. intros [r b] Hin. simpl.
    apply elem_of_zip_l in Hin as Hr. apply elem_of_zip_r in Hin as Hb.
    rewrite Forall_forall in Hold, Hblk.
    specialize (Hold _ Hr). specialize (Hblk _ Hb). subst w.
    by apply assign_row_exact.
Qed.

Lemma assign_col_mid (above old below : list (list num)) (col : nat) (v : num) :
  Forall (fun r => col < length r) old ->
  assign_col (above ++ old ++ below) (length above)
             (length above + length old) col v
  = ok (above ++ map (fun r => <[col := v]> r) old ++ below).
Proof.
  intros Hold. unfold assign_col.
  rewrite !length_app.
  rewrite (Nat.min_l (length above)), (Nat.min_l (length above + length old))
    by lia.
  replace (length above + length old - length above) with (length old) by lia.
  rewrite drop_app_length, take_app_length, take_app_length.
  rewrite (mapR_ok_map _ (fun r => <[col := v]> r)).
  - simpl. by rewrite drop_app_app.
  - eapply Forall_impl; [exact Hold|]. intros r Hr. simpl in *.
    destruct (Nat.ltb_spec col (length r)); [done|lia].
Qed.

End ArrayAssign.

Section NetworkMatrix.
Context {num : Type} {NUM : Numeric num}.
Implicit Types (ifg : @Ifg num) (ifgs : list (@Ifg num)) (tmp : list (list num)).

(** The index of an epoch (zero for an epoch the index does not know). *)
Definition idx (ids : gmap epoch nat) (e : epoch) : nat := default 0 (ids !! e).

(** A row of the matrix after the three assignments of one iteration: on a
    row of [w] zeros the negated basis row is written at the master's block,
    then the basis row at the slave's block, then the one of the offset
    column. *)
Definition net_row (w ncoef m s : nat) (ocol : option nat) (brow : list num)
    : list num :=
  let row := put (put (replicate w f0) (m * ncoef) (map fneg brow))
                 (s * ncoef) brow in
  match ocol with
  | Some c => <[c := f1]> row
  | None => row
  end.

Fixpoint net_blocks (ids : gmap epoch nat) (w ncoef oc : nat) tmp
    (offset : bool) (i : nat) ifgs : list (list num) :=
  match ifgs with
  | [] => []
  | ifg :: rest =>
      map (net_row w ncoef (idx ids (master ifg)) (idx ids (slave ifg))
                   (if offset then Some (oc + i) else None)) tmp
      ++ net_blocks ids w ncoef oc tmp offset (S i) rest
  end.

Lemma zip_with_replicate_map {A B C D} (f : A -> B -> C) (g : D -> B) (z : A)
    (l : list D) :
  zip_with f (replicate (length l) z) (map g l) = map (fun d => f z (g d)) l.
Proof. induction l as [|b l IH]; simpl; by f_equal. Qed.

Lemma zip_with_map_self {A B C} (f : B -> A -> C) (g : A -> B) (l : list A) :
  zip_with f (map g l) l = map (fun a => f (g a) a) l.
Proof. induction l as [|b l IH]; simpl; by f_equal. Qed.

Lemma put2_length (w ncoef m s : nat) (b : list num) :
  length b = ncoef -> m * ncoef + ncoef <= w -> s * ncoef + ncoef <= w ->
  length (put (put (replicate w f0) (m * ncoef) (map fneg b)) (s * ncoef) b) = w.
Proof.
  intros Hb Hm Hs.
  assert (length (put (replicate w f0) (m * ncoef) (map fneg b)) = w) as H1.
  { rewrite put_length; rewrite ?length_map, length_replicate; lia. }
  rewrite put_length; lia.
Qed.

Lemma net_iter (above below tmp : list (list num)) (w ncoef m s oc i : nat)
    (offset : bool) :
  Forall (fun b => length b = ncoef) tmp ->
  m * ncoef + ncoef <= w -> s * ncoef + ncoef <= w ->
  (offset = true -> oc + i < w) ->
  let rs := length above in
  let n := length tmp in
  let ndm := above ++ replicate n (replicate w f0) ++ below in
  (let? ndm := assign_block ndm rs (rs + n) (m * ncoef) (m * ncoef + ncoef)
                            (mneg tmp) in
   let? ndm := assign_block ndm rs (rs + n) (s * ncoef) (s * ncoef + ncoef) tmp in
   if offset then assign_col ndm rs (rs + n) (oc + i) f1 else ok ndm)
  = ok (above
        ++ map (net_row w ncoef m s (if offset then Some (oc + i) else None)) tmp
        ++ below).
Proof.
  intros Htmp Hm Hs Hoc rs n ndm. subst rs n ndm.
  set (z := replicate w f0).
  assert (length z = w) as Hz by apply length_replicate.
  pose proof (assign_block_mid above (replicate (length tmp) z) below
                (mneg tmp) (m * ncoef) ncoef) as H1.
  rewrite length_replicate in H1. rewrite H1; clear H1.
  - simpl. unfold mneg. rewrite zip_with_replicate_map.
    set (old1 := map _ tmp).
    pose proof (assign_block_mid above old1 below tmp (s * ncoef) ncoef) as H2.
    assert (length old1 = length tmp) as Hl1 by apply length_map.
    rewrite Hl1 in H2. rewrite H2; clear H2.
    + simpl. subst old1. rewrite zip_with_map_self.
      set (old2 := map _ tmp).
      destruct offset; [|done].
      pose proof (assign_col_mid above old2 below (oc + i) f1) as H3.
      assert (length old2 = length tmp) as Hl2 by apply length_map.
      rewrite Hl2 in H3. rewrite H3; clear H3.
      * subst old2. by rewrite map_map.
      * subst old2. apply Forall_fmap, Forall_forall. intros b Hb. simpl.
        rewrite Forall_forall in Htmp. specialize (Htmp _ Hb).
        unfold z. rewrite (put2_length w ncoef) by done. by apply Hoc.
    + done.
    + subst old1. apply Forall_fmap, Forall_forall. intros b Hb. simpl.
      rewrite Forall_forall in Htmp. specialize (Htmp _ Hb).
      rewrite put_length; rewrite ?length_map; lia.
    + done.
  - unfold mneg. by rewrite length_map.
  - apply Forall_replicate. lia.
  - unfold mneg. apply Forall_fmap. eapply Forall_impl; [exact Htmp|].
    intros b Hb. simpl. by rewrite length_map.
Qed.

(** The epochs of [ifg] have indexes below [nepochs]. *)
Definition indexed (ids : gmap epoch nat) (nepochs : nat) ifg : Prop :=
  (exists m, ids !! master ifg = Some m /\ m < nepochs) /\
  (exists s, ids !! slave ifg = Some s /\ s < nepochs).

Lemma ndm_loop_spec (ids : gmap epoch nat) (w ncoef oc nepochs : nat) tmp
    (offset : bool) (rest : list Ifg) :
  Forall (fun b => length b = ncoef) tmp ->
  ncoef * nepochs <= w ->
  Forall (fun ifg => num_cells ifg = length tmp /\ indexed ids nepochs ifg) rest ->
  forall (i : nat) (above : list (list num)),
    length above = i * length tmp ->
    (offset = true -> oc + i + length rest <= w) ->
    ndm_loop ids ncoef oc tmp offset i rest
      (above ++ replicate (length rest * length tmp) (replicate w f0))
    = ok (above ++ net_blocks ids w ncoef oc tmp offset i rest).
Proof.
  intros Htmp Hw. induction 1 as [|ifg rest [Hn [(m & Hm & Hmlt) (s & Hs & Hslt)]] _ IH];
    intros i above Habove Hoc; simpl.
  - done.
  - unfold dict_get. rewrite Hm, Hs. simpl.
    unfold idx. rewrite Hm, Hs. simpl.
    rewrite replicate_add, Hn, <- Habove.
    pose proof (net_iter above (replicate (length rest * length tmp) (replicate w f0))
                  tmp w ncoef m s oc i offset Htmp) as Hit.
    simpl in Hit.
    assert (m * ncoef + ncoef <= w) as Hmw by nia.
    assert (s * ncoef + ncoef <= w) as Hsw by nia.
    assert (offset = true -> oc + i < w) as Hoc' by (intros Ho; specialize (Hoc Ho); simpl in Hoc; lia).
    specialize (Hit Hmw Hsw Hoc').
    unfold bindR in Hit |- *.
    destruct (assign_block _ _ _ (m * ncoef) _ _) as [e|ndm1]; [done|].
    destruct (assign_block ndm1 _ _ _ _ _) as [e|ndm2]; [done|].
    destruct offset.
    + destruct (assign_col _ _ _ _ _) as [e|ndm3]; [done|].
      injection Hit as ->. rewrite app_assoc. rewrite IH.
      * by rewrite <- app_assoc.
      * rewrite length_app, length_map. lia.
      * intros _. specialize (Hoc eq_refl). simpl in Hoc. lia.
    + injection Hit as ->. simpl. rewrite (app_assoc above). rewrite IH.
      * by rewrite <- app_assoc.
      * rewrite length_app, length_map. lia.
      * done.
Qed.

Lemma net_row_length (w ncoef m s : nat) (ocol : option nat) (b : list num) :
  length b = ncoef -> m * ncoef + ncoef <= w -> s * ncoef + ncoef <= w ->
  length (net_row w ncoef m s ocol b) = w.
Proof.
  intros Hb Hm Hs. unfold net_row.
  destruct ocol; rewrite ?length_insert; by apply put2_length.
Qed.

Lemma net_row_slave (w ncoef m s : nat) (ocol : option nat) (b : list num) (k : nat) :
  length b = ncoef -> m * ncoef + ncoef <= w -> s * ncoef + ncoef <= w ->
  (forall c, ocol = Some c -> s * ncoef + ncoef <= c) ->
  k < ncoef ->
  net_row w ncoef m s ocol b !! (s * ncoef + k) = b !! k.
Proof.
  intros Hb Hm Hs Hoc Hk. unfold net_row.
  assert (length (put (replicate w f0) (m * ncoef) (map fneg b)) = w) as H1.
  { rewrite put_length; rewrite ?length_map, length_replicate; lia. }
  destruct ocol as [c|].
  - specialize (Hoc c eq_refl).
    rewrite list_lookup_insert_ne by lia. apply put_lookup_in; lia.
  - apply put_lookup_in; lia.
Qed.

Lemma net_row_master (w ncoef m s : nat) (ocol : option nat) (b : list num) (k : nat) :
  length b = ncoef -> m * ncoef + ncoef <= w -> s * ncoef + ncoef <= w ->
  (forall c, ocol = Some c -> m * ncoef + ncoef <= c) ->
  m ≠ s -> k < ncoef ->
  net_row w ncoef m s ocol b !! (m * ncoef + k) = fneg <$> b !! k.
Proof.
  intros Hb Hm Hs Hoc Hne Hk. unfold net_row.
  assert (length (put (replicate w f0) (m * ncoef) (map fneg b)) = w) as H1.
  { rewrite put_length; rewrite ?length_map, length_replicate; lia. }
  assert (put (put (replicate w f0) (m * ncoef) (map fneg b)) (s * ncoef) b
            !! (m * ncoef + k) = fneg <$> b !! k) as H2.
  { rewrite put_lookup_out by nia.
    rewrite put_lookup_in; rewrite ?length_map, ?length_replicate; try lia.
    apply list_lookup_fmap. }
  destruct ocol as [c|]; [|done].
  specialize (Hoc c eq_refl). by rewrite list_lookup_insert_ne by lia.
Qed.

Lemma net_row_offset (w ncoef m s c : nat) (b : list num) :
  length b = ncoef -> m * ncoef + ncoef <= w -> s * ncoef + ncoef <= w ->
  c < w ->
  net_row w ncoef m s (Some c) b !! c = Some f1.
Proof.
  intros Hb Hm Hs Hc. unfold net_row.
  apply list_lookup_insert_eq. by rewrite (put2_length w ncoef).
Qed.

Lemma net_row_zero (w ncoef m s : nat) (ocol : option nat) (b : list num) (c : nat) :
  length b = ncoef -> m * ncoef + ncoef <= w -> s * ncoef + ncoef <= w ->
  c < w ->
  ~ (m * ncoef <= c < m * ncoef + ncoef) ->
  ~ (s * ncoef <= c < s * ncoef + ncoef) ->
  ocol ≠ Some c ->
  net_row w ncoef m s ocol b !! c = Some f0.
Proof.
  intros Hb Hm Hs Hc Hnm Hns Hoc. unfold net_row.
  assert (length (put (replicate w f0) (m * ncoef) (map fneg b)) = w) as H1.
  { rewrite put_length; rewrite ?length_map, length_replicate; lia. }
  assert (put (put (replicate w f0) (m * ncoef) (map fneg b)) (s * ncoef) b
            !! c = Some f0) as H2.
  { rewrite put_lookup_out by lia.
    rewrite put_lookup_out; rewrite ?length_map, ?length_replicate; try lia.
    by apply lookup_replicate_2. }
  destruct ocol as [c'|]; [|done].
  rewrite list_lookup_insert_ne; [done|congruence].
Qed.

Lemma net_blocks_length ids (w ncoef oc : nat) tmp (offset : bool) (i : nat) ifgs :
  length (net_blocks ids w ncoef oc tmp offset i ifgs) = length ifgs * length tmp.
Proof.
  revert i. induction ifgs as [|ifg rest IH]; intros i; simpl; [done|].
  by rewrite length_app, length_map, IH.
Qed.

Lemma net_blocks_lookup ids (w ncoef oc : nat) tmp (offset : bool) ifgs :
  forall (i j r : nat) ifg (b : list num),
    ifgs !! j = Some ifg -> tmp !! r = Some b ->
    net_blocks ids w ncoef oc tmp offset i ifgs !! (j * length tmp + r)
    = Some (net_row w ncoef (idx ids (master ifg)) (idx ids (slave ifg))
                    (if offset then Some (oc + (i + j)) else None) b).
Proof.
  induction ifgs as [|ifg0 rest IH]; intros i j r ifg b Hj Hr; [done|].
  apply lookup_lt_Some in Hr as Hlt. simpl.
  destruct j as [|j]; simpl in Hj |- *.
  - injection Hj as ->. rewrite lookup_app_l by (by rewrite length_map).
    rewrite list_lookup_fmap, Hr. simpl. by rewrite Nat.add_0_r.
  - rewrite lookup_app_r by (rewrite length_map; lia).
    rewrite length_map.
    replace (length tmp + j * length tmp + r - length tmp)
      with (j * length tmp + r) by lia.
    rewrite (IH (S i) j r ifg b Hj Hr). do 3 f_equal.
    destruct offset; [|done]. f_equal. lia.
Qed.

Lemma net_blocks_widths ids (w ncoef oc nepochs : nat) tmp (offset : bool) ifgs :
  Forall (fun b => length b = ncoef) tmp ->
  ncoef * nepochs <= w ->
  Forall (indexed ids nepochs) ifgs ->
  forall i, Forall (fun row => length row = w)
                   (net_blocks ids w ncoef oc tmp offset i ifgs).
Proof.
  intros Htmp Hw. induction 1 as [|ifg rest [(m & Hm & Hmlt) (s & Hs & Hslt)] _ IH];
    intros i; simpl; [done|].
  apply Forall_app. split; [|apply IH].
  apply Forall_fmap. eapply Forall_impl; [exact Htmp|]. intros b Hb. simpl.
  unfold idx. rewrite Hm, Hs. simpl. apply net_row_length; [done|nia|nia].
Qed.

Lemma get_design_matrix_shape ifg (degree : string) (offset : bool)
    (dm : list (list num)) (n : nat) :
  get_design_matrix ifg degree offset = ok dm ->
  get_num_params degree (Some offset) = ok n ->
  length dm = num_cells ifg /\ Forall (fun row => length row = n) dm.
Proof.
  intros Hdm Hn.
  assert (degree ∈ [PLANAR; QUADRATIC; PART_CUBIC]) as Hd.
  { apply degree_in_list_spec. unfold get_design_matrix in Hdm.
    by destruct (degree_in_list degree). }
  destruct (get_design_matrix_unfold ifg degree offset Hd) as (n' & Hn' & Hdm').
  rewrite Hn in Hn'. injection Hn' as <-.
  rewrite Hdm in Hdm'. injection Hdm' as Hdm'. subst dm.
  destruct (meshgrid_length (nrows ifg) (ncols ifg)) as [Hx Hy]. split.
  - unfold meshgrid in Hx, Hy. simpl in Hx, Hy.
    rewrite length_zip_with, !length_map, Hx, Hy. unfold num_cells. lia.
  - apply Forall_forall. intros row Hrow.
    apply list_elem_of_lookup in Hrow as [k Hk].
    apply lookup_zip_with_Some in Hk as (x & y & -> & _ & _).
    rewrite (design_row_terms _ _ n) by done.
    revert Hd Hn. rewrite !elem_of_cons, elem_of_nil.
    intros [->|[->|[->|[]]]]; destruct offset; intros [= <-]; reflexivity.
Qed.

End NetworkMatrix.

Section NetworkMatrixSpec.
Context {num : Type} {NUM : Numeric num}.
Implicit Types (ifg : @Ifg num) (ifgs : list (@Ifg num)).

Lemma get_num_params_offset_false (degree : string) :
  get_num_params degree (Some false) = get_num_params degree None.
Proof. reflexivity. Qed.

Lemma get_design_matrix_geometry ifg ifg' (degree : string) (offset : bool) :
  nrows ifg = nrows ifg' -> ncols ifg = ncols ifg' ->
  x_size ifg = x_size ifg' -> y_size ifg = y_size ifg' ->
  get_design_matrix ifg degree offset = get_design_matrix ifg' degree offset.
Proof.
  intros Hr Hc Hx Hy. unfold get_design_matrix, num_cells.
  by rewrite Hr, Hc, Hx, Hy.
Qed.

Lemma all_indexed ifgs :
  Forall (indexed (master_slave_ids (get_all_epochs ifgs)) (get_epoch_count ifgs))
         ifgs.
Proof.
  apply Forall_forall. intros ifg Hin. unfold indexed, get_epoch_count.
  split; apply master_slave_ids_lookup; unfold get_all_epochs;
    rewrite elem_of_app, !list_elem_of_fmap; [left|right]; by exists ifg.
Qed.

(** The matrix [get_network_design_matrix] returns, in closed form. *)
Lemma get_network_design_matrix_closed ifgs (degree : string) (offset : bool)
    ifg0 (ncoef : nat) (tmp : list (list num)) :
  ifgs !! 0 = Some ifg0 ->
  Forall (fun ifg => num_cells ifg = num_cells ifg0) ifgs ->
  get_num_params degree None = ok ncoef ->
  get_design_matrix ifg0 degree false = ok tmp ->
  get_network_design_matrix ifgs degree offset
  = ok (net_blocks (master_slave_ids (get_all_epochs ifgs))
                   (ncoef * get_epoch_count ifgs
                    + (if offset then length ifgs else 0))
                   ncoef (get_epoch_count ifgs * ncoef) tmp offset 0 ifgs).
Proof.
  intros H0 Hcells Hn Htmp.
  destruct (get_design_matrix_shape ifg0 degree false tmp ncoef Htmp Hn)
    as [Hlen Hw].
  unfold get_network_design_matrix.
  assert (degree_in_list degree = true) as ->.
  { unfold get_design_matrix in Htmp. by destruct (degree_in_list degree). }
  simpl. destruct ifgs as [|i0 rest]; [done|].
  injection H0 as ->. simpl length. simpl Nat.ltb. cbv iota.
  rewrite Hn. simpl. rewrite Htmp. simpl.
  fold (get_all_epochs (ifg0 :: rest)).
  set (ids := master_slave_ids _). set (nep := get_epoch_count _).
  set (w := ncoef * nep + _).
  pose proof (ndm_loop_spec ids w ncoef (nep * ncoef) nep tmp offset
                (ifg0 :: rest) Hw) as Hloop.
  unfold zeros.
  replace (num_cells ifg0 * S (length rest))
    with (length (ifg0 :: rest) * length tmp) by (simpl; lia).
  apply (Hloop ltac:(subst w; lia)) with (i := 0) (above := []).
  - apply Forall_forall. intros ifg Hin. split.
    + rewrite Forall_forall in Hcells. rewrite (Hcells _ Hin). done.
    + pose proof (all_indexed (ifg0 :: rest)) as Hall.
      rewrite Forall_forall in Hall. by apply Hall.
  - done.
  - intros ->. subst w. simpl. lia.
Qed.

(** The claimed layout of the network design matrix.  [guard] says for
    which interferograms the master's column block holds the negated
    basis. *)
Definition network_layout (guard : Ifg -> Prop) ifgs (degree : string)
    (offset : bool) : Prop :=
  exists (ndm basis : list (list num)) (ncoef : nat) ifg0,
    ifgs !! 0 = Some ifg0 /\
    get_num_params degree None = ok ncoef /\
    get_design_matrix ifg0 degree false = ok basis /\
    get_network_design_matrix ifgs degree offset = ok ndm /\
    let n := num_cells ifg0 in
    let nifgs := length ifgs in
    let nepochs := get_epoch_count ifgs in
    let w := ncoef * nepochs + (if offset then nifgs else 0) in
    let ids := master_slave_ids (get_all_epochs ifgs) in
    length ndm = n * nifgs /\
    Forall (fun row => length row = w) ndm /\
    forall (i : nat) ifg (r : nat) (brow : list num),
      ifgs !! i = Some ifg -> basis !! r = Some brow ->
      (x_size ifg = x_size ifg0 -> y_size ifg = y_size ifg0 ->
       get_design_matrix ifg degree false = ok basis) /\
      exists (m s : nat) (row : list num),
        ids !! master ifg = Some m /\ m < nepochs /\
        ids !! slave ifg = Some s /\ s < nepochs /\
        ndm !! (i * n + r) = Some row /\
        (guard ifg -> forall k, k < ncoef ->
           row !! (m * ncoef + k) = fneg <$> brow !! k) /\
        (forall k, k < ncoef -> row !! (s * ncoef + k) = brow !! k) /\
        (offset = true -> row !! (nepochs * ncoef + i) = Some f1) /\
        (forall c, c < w ->
           ~ (m * ncoef <= c < m * ncoef + ncoef) ->
           ~ (s * ncoef <= c < s * ncoef + ncoef) ->
           (offset = true -> c ≠ nepochs * ncoef + i) ->
           row !! c = Some f0).

(** C1, as amended.  For a non-empty sequence of interferograms of one
    raster shape and a degree of the enumeration, the matrix has
    [num_cells * nifgs] rows and [ncoef * nepochs (+ nifgs with offset)]
    columns.  Its row-block [i] holds the offset-free design matrix
    (computed once, from the first interferogram; it is the design matrix of
    every interferogram of the same pixel sizes) in the column block of the
    slave epoch, its negation in the column block of the master epoch when
    the master epoch is not the slave epoch, ones in column
    [nepochs * ncoef + i] with offset, and zeros everywhere else. *)
Theorem get_network_design_matrix_layout ifgs (degree : string) (offset : bool)
    (shape : nat * nat) :
  ifgs ≠ [] ->
  degree ∈ [PLANAR; QUADRATIC; PART_CUBIC] ->
  Forall (fun ifg => ifg_shape ifg = shape) ifgs ->
  network_layout (fun ifg => master ifg ≠ slave ifg) ifgs degree offset.
Proof.
  intros Hne Hd Hshape.
  destruct ifgs as [|ifg0 rest] eqn:Hifgs; [done|]. rewrite <- Hifgs in *.
  assert (ifgs !! 0 = Some ifg0) as H0 by by subst.
  destruct (get_num_params_valid degree None Hd) as (ncoef & Hn & Hn2).
  destruct (get_design_matrix_unfold ifg0 degree false Hd) as (n' & Hn' & Htmp).
  set (basis := zip_with _ _ _) in Htmp.
  assert (Forall (fun ifg => num_cells ifg = num_cells ifg0) ifgs) as Hcells.
  { rewrite Forall_forall in Hshape |- *. intros ifg Hin.
    assert (ifg_shape ifg = ifg_shape ifg0) as [= Hr Hc].
    { rewrite (Hshape ifg Hin). symmetry. apply Hshape. subst. left. }
    unfold num_cells. by rewrite Hr, Hc. }
  pose proof (get_network_design_matrix_closed ifgs degree offset ifg0 ncoef
                basis H0 Hcells Hn Htmp) as Hndm.
  destruct (get_design_matrix_shape ifg0 degree false basis ncoef Htmp Hn)
    as [Hlen Hw].
  eexists. exists basis, ncoef, ifg0.
  split; [done|]. split; [done|]. split; [done|]. split; [exact Hndm|].
  cbv zeta.
  set (ids := master_slave_ids _). set (nep := get_epoch_count _).
  set (w := ncoef * nep + _).
  pose proof (all_indexed ifgs) as Hidx. fold ids nep in Hidx.
  split; [|split].
  - rewrite net_blocks_length, Hlen. lia.
  - apply (net_blocks_widths ids w ncoef _ nep); [done|subst w; lia|done].
  - intros i ifg r brow Hi Hr. split.
    { intros Hx Hy. rewrite <- Htmp.
      rewrite Forall_forall in Hshape.
      assert (ifg_shape ifg = ifg_shape ifg0) as [= Hrr Hcc].
      { rewrite (Hshape ifg) by (by eapply list_elem_of_lookup_2).
        symmetry. apply Hshape. subst. left. }
      by apply get_design_matrix_geometry. }
    rewrite Forall_forall in Hidx.
    destruct (Hidx ifg) as [(m & Hm & Hmlt) (s & Hs & Hslt)];
      [by eapply list_elem_of_lookup_2|].
    rewrite Forall_forall in Hw.
    assert (length brow = ncoef) as Hb
      by (by eapply Hw, list_elem_of_lookup_2).
    assert (m * ncoef + ncoef <= w) as Hmw by (subst w; nia).
    assert (s * ncoef + ncoef <= w) as Hsw by (subst w; nia).
    assert (i < length ifgs) as Hilt by by eapply lookup_lt_Some.
    eexists m, s, _.
    split; [done|]. split; [done|]. split; [done|]. split; [done|].
    split.
    { rewrite <- Hlen. rewrite (net_blocks_lookup _ _ _ _ _ _ _ 0 i r ifg brow Hi Hr).
      unfold idx. rewrite Hm, Hs. simpl. reflexivity. }
    split; [|split; [|split]].
    + intros Hms k Hk. apply net_row_master; try done.
      * intros c Hc. destruct offset; [|done]. injection Hc as <-. nia.
      * intros ->. apply Hms.
        by eapply (master_slave_ids_dense (get_all_epochs ifgs)).
    + intros k Hk. apply net_row_slave; try done.
      intros c Hc. destruct offset; [|done]. injection Hc as <-. nia.
    + intros ->. apply net_row_offset; try done. subst w. lia.
    + intros c Hc Hnm Hns Hoc. apply net_row_zero; try done.
      destruct offset; [|done]. intros [= Heq]. by apply Hoc.
Qed.

End NetworkMatrixSpec.

(** C1 as stated fails: for an interferogram whose master and slave are
    the same epoch, the two column blocks coincide and the block holds the
    basis, not its negation. *)
Lemma network_layout_same_epoch_counterexample :
  [ifg_same_epoch] ≠ [] /\
  PLANAR ∈ [PLANAR; QUADRATIC; PART_CUBIC] /\
  Forall (fun ifg => ifg_shape ifg = (1, 2)) [ifg_same_epoch] /\
  get_network_design_matrix [ifg_same_epoch] PLANAR false
  = ok [[0; 0]; [1; 0]]%Z /\
  ~ network_layout (fun _ => True) [ifg_same_epoch] PLANAR false.
Proof.
  split; [done|]. split; [by left|]. split; [by repeat constructor|].
  split; [by vm_compute|].
  intros (ndm & basis & ncoef & ifg0 & H0 & Hn & Hb & Hndm & _ & _ & Hrows).
  injection H0 as <-.
  vm_compute in Hn. injection Hn as <-.
  vm_compute in Hb. injection Hb as <-.
  destruct (Hrows 0 ifg_same_epoch 1 [1; 0]%Z eq_refl eq_refl)
    as (_ & m & s & row & Hm & _ & Hs & _ & _ & Hmaster & Hslave & _).
  vm_compute in Hm, Hs. injection Hm as <-. injection Hs as <-.
  specialize (Hmaster I 0 ltac:(lia)). specialize (Hslave 0 ltac:(lia)).
  rewrite Hslave in Hmaster. discriminate Hmaster.
Qed.

(** ** Equal coefficients cancel *)

Section Cancel.
Context {num : Type} {NUM : Numeric num}.
Hypothesis Rth : ring_theory f0 f1 fadd fmul fsub fneg (@eq num).
Add Ring num_ring : Rth.
Implicit Types (u v b c : list num).

Lemma vdot_nil_l v : vdot [] v = f0.
Proof. done. Qed.

Lemma vdot_cons (x y : num) u v :
  vdot (x :: u) (y :: v) = fadd (fmul x y) (vdot u v).
Proof. done. Qed.

Lemma vdot_app u1 u2 v1 v2 :
  length u1 = length v1 ->
  vdot (u1 ++ u2) (v1 ++ v2) = fadd (vdot u1 v1) (vdot u2 v2).
Proof.
  revert v1. induction u1 as [|x u1 IH]; intros [|y v1] Hlen; try done.
  - simpl. rewrite vdot_nil_l. ring.
  - simpl app. rewrite !vdot_cons, IH by (simpl in Hlen; lia). ring.
Qed.

Lemma vdot_zeros_l (k : nat) v : vdot (replicate k f0) v = f0.
Proof.
  revert v. induction k as [|k IH]; intros [|y v]; try done.
  simpl replicate. rewrite vdot_cons, IH. ring.
Qed.

Lemma vdot_zeros_r u (k : nat) : vdot u (replicate k f0) = f0.
Proof.
  revert k. induction u as [|x u IH]; intros [|k]; try done.
  simpl replicate. rewrite vdot_cons, IH. ring.
Qed.

Lemma vdot_neg b c : vdot (map fneg b) c = fneg (vdot b c).
Proof.
  revert c. induction b as [|x b IH]; intros [|y c]; simpl map.
  - rewrite vdot_nil_l. ring.
  - rewrite vdot_nil_l. ring.
  - unfold vdot. simpl. ring.
  - rewrite !vdot_cons, IH. ring.
Qed.

Lemma split3 {A} (l : list A) (k len : nat) :
  take k l ++ take len (drop k l) ++ drop (k + len) l = l.
Proof. by rewrite <- drop_drop, !take_drop. Qed.

Lemma vdot_split3 (row v : list num) (k len : nat) :
  k + len <= length row -> length v = length row ->
  vdot row v
  = fadd (vdot (take k row) (take k v))
         (fadd (vdot (take len (drop k row)) (take len (drop k v)))
               (vdot (drop (k + len) row) (drop (k + len) v))).
Proof.
  intros Hk Hv.
  transitivity (vdot (take k row ++ take len (drop k row) ++ drop (k + len) row)
                     (take k v ++ take len (drop k v) ++ drop (k + len) v)).
  { by rewrite !split3. }
  rewrite !vdot_app; rewrite ?length_take, ?length_drop; try lia. done.
Qed.

(** Writing [vals] at column [k] changes the product by what the written
    cells contribute, less what the overwritten cells contributed. *)
Lemma vdot_put (row vals v : list num) (k : nat) :
  k + length vals <= length row -> length v = length row ->
  vdot (put row k vals) v
  = fsub (fadd (vdot row v) (vdot vals (take (length vals) (drop k v))))
         (vdot (take (length vals) (drop k row)) (take (length vals) (drop k v))).
Proof.
  intros Hk Hv.
  rewrite (vdot_split3 row v k (length vals)) by done.
  unfold put.
  transitivity (vdot (take k row ++ vals ++ drop (k + length vals) row)
                     (take k v ++ take (length vals) (drop k v)
                      ++ drop (k + length vals) v)).
  { by rewrite !split3. }
  rewrite !vdot_app; rewrite ?length_take, ?length_drop; try lia. ring.
Qed.

(** The coefficient vector whose per-epoch blocks all equal [c] and whose
    offset entries are zero. *)
Definition equal_blocks (nepochs : nat) c (noffsets : nat) : list num :=
  concat (replicate nepochs c) ++ replicate noffsets f0.

Lemma equal_blocks_length (nepochs : nat) c (noffsets : nat) :
  length (equal_blocks nepochs c noffsets) = length c * nepochs + noffsets.
Proof.
  unfold equal_blocks.
  rewrite length_app, length_replicate, (concat_uniform_length _ (length c)).
  - rewrite length_replicate. lia.
  - by apply Forall_replicate.
Qed.

Lemma equal_blocks_block (nepochs : nat) c (noffsets e : nat) :
  e < nepochs ->
  take (length c) (drop (e * length c) (equal_blocks nepochs c noffsets)) = c.
Proof.
  unfold equal_blocks. revert e.
  induction nepochs as [|n IH]; intros e He; [lia|].
  simpl replicate. simpl concat. rewrite <- app_assoc.
  destruct e as [|e].
  - rewrite Nat.mul_0_l, drop_0. apply take_app_length.
  - replace (S e * length c) with (length c + e * length c) by lia.
    rewrite <- drop_drop, drop_app_length. apply IH. lia.
Qed.

Lemma equal_blocks_offset (nepochs : nat) c (noffsets j : nat) :
  j < noffsets ->
  take 1 (drop (length c * nepochs + j) (equal_blocks nepochs c noffsets)) = [f0].
Proof.
  intros Hj. unfold equal_blocks.
  rewrite drop_app_ge; rewrite (concat_uniform_length _ (length c));
    rewrite ?length_replicate; try lia; try (by apply Forall_replicate).
  replace (length c * nepochs + j - nepochs * length c) with j by lia.
  rewrite drop_replicate, take_replicate.
  by replace (1 `min` (noffsets - j)) with 1 by lia.
Qed.

Lemma put_segment_zero (w k1 k2 : nat) (vals : list num) (len : nat) :
  k1 + length vals <= w -> k2 + len <= w ->
  k2 + len <= k1 \/ k1 + length vals <= k2 ->
  take len (drop k2 (put (replicate w f0) k1 vals)) = replicate len f0.
Proof.
  intros H1 H2 Hdisj. apply list_eq. intros j.
  destruct (decide (j < len)) as [Hj|Hj].
  - rewrite lookup_take_lt, lookup_drop by done.
    rewrite put_lookup_out; rewrite ?length_replicate; try lia.
    rewrite !lookup_replicate_2; [done|lia|lia].
  - rewrite lookup_take_ge by lia. symmetry.
    apply lookup_replicate_None. lia.
Qed.

Lemma insert_as_put (row : list num) (k : nat) (x : num) :
  k < length row -> <[k := x]> row = put row k [x].
Proof.
  intros Hk. unfold put. simpl. rewrite insert_take_drop by done.
  by replace (k + 1) with (S k) by lia.
Qed.

Lemma net_row_cancel (w ncoef nepochs noffsets m s : nat) (ocol : option nat)
    b c :
  length b = ncoef -> length c = ncoef ->
  w = ncoef * nepochs + noffsets ->
  m < nepochs -> s < nepochs -> m ≠ s ->
  (forall col, ocol = Some col ->
     exists j, col = ncoef * nepochs + j /\ j < noffsets) ->
  vdot (net_row w ncoef m s ocol b) (equal_blocks nepochs c noffsets) = f0.
Proof.
  intros Hb Hc Hw Hm Hs Hms Hoc.
  set (v := equal_blocks nepochs c noffsets).
  assert (length v = w) as Hv.
  { subst v. rewrite equal_blocks_length. lia. }
  assert (m * ncoef + ncoef <= w) as Hmw by nia.
  assert (s * ncoef + ncoef <= w) as Hsw by nia.
  set (r1 := put (replicate w f0) (m * ncoef) (map fneg b)).
  assert (length r1 = w) as Hr1.
  { subst r1. rewrite put_length; rewrite ?length_map, length_replicate; lia. }
  assert (vdot (put r1 (s * ncoef) b) v = f0) as Hr2.
  { rewrite vdot_put by lia. subst r1.
    rewrite vdot_put; rewrite ?length_map, ?length_replicate; try lia.
    rewrite Hb.
    rewrite (put_segment_zero w (m * ncoef) (s * ncoef) _ ncoef);
      rewrite ?length_map; try lia;
      [|destruct (Nat.lt_total m s) as [?|[?|?]]; [right|done|left]; nia].
    rewrite drop_replicate, take_replicate.
    subst v. rewrite <- Hc.
    rewrite !equal_blocks_block by done.
    rewrite !vdot_zeros_l, vdot_neg. ring. }
  unfold net_row. fold r1. destruct ocol as [col|]; [|exact Hr2].
  destruct (Hoc col eq_refl) as (j & -> & Hj).
  assert (length (put r1 (s * ncoef) b) = w) as Hl2
    by (rewrite put_length; lia).
  rewrite insert_as_put by lia.
  assert (take 1 (drop (ncoef * nepochs + j) v) = replicate 1 f0) as Hz.
  { subst v. rewrite <- Hc. by apply equal_blocks_offset. }
  rewrite vdot_put by (simpl; lia). rewrite Hr2. simpl length.
  rewrite Hz, !vdot_zeros_r. ring.
Qed.

Lemma net_blocks_block ids (w ncoef oc : nat) (tmp : list (list num))
    (offset : bool) (ifgs : list Ifg) (i j : nat) (ifg : Ifg) :
  ifgs !! j = Some ifg ->
  take (length tmp) (drop (j * length tmp)
                          (net_blocks ids w ncoef oc tmp offset i ifgs))
  = map (net_row w ncoef (idx ids (master ifg)) (idx ids (slave ifg))
                 (if offset then Some (oc + (i + j)) else None)) tmp.
Proof.
  intros Hj. apply list_eq. intros r.
  destruct (tmp !! r) as [b|] eqn:Hr.
  - apply lookup_lt_Some in Hr as Hlt.
    rewrite lookup_take_lt, lookup_drop by done.
    rewrite (net_blocks_lookup _ _ _ _ _ _ _ i j r ifg b Hj Hr).
    by rewrite list_lookup_fmap, Hr.
  - apply lookup_ge_None in Hr as Hge.
    rewrite lookup_take_ge by done.
    by rewrite list_lookup_fmap, Hr.
Qed.

Lemma dot_mv_ok (a : list (list num)) v :
  Forall (fun row => length row = length v) a ->
  dot_mv a v = ok (map (fun row => vdot row v) a).
Proof.
  intros Ha. unfold dot_mv.
  assert (forallb (fun row => length row =? length v) a = true) as ->; [|done].
  apply forallb_forall. intros row Hrow. apply Nat.eqb_eq.
  rewrite Forall_forall in Ha. by apply Ha, list_elem_of_In.
Qed.

Lemma map_const_replicate {A B} (f : A -> B) (z : B) (l : list A) :
  Forall (fun a => f a = z) l -> map f l = replicate (length l) z.
Proof. induction 1 as [|a l Ha _ IH]; simpl; [done|]. by rewrite Ha, IH. Qed.

(** C6.  In a commutative ring, for an interferogram whose master and
    slave epochs differ, the product of its row-block of the network design
    matrix with a coefficient vector whose per-epoch blocks all equal one
    block [c], and whose offset entries are zero, is the zero vector. *)
Theorem network_rows_cancel (ifgs : list Ifg) (degree : string) (offset : bool)
    (shape : nat * nat) (ndm : list (list num)) (ncoef : nat) (c : list num)
    (i : nat) (ifg : Ifg) :
  ifgs ≠ [] ->
  degree ∈ [PLANAR; QUADRATIC; PART_CUBIC] ->
  Forall (fun ifg => ifg_shape ifg = shape) ifgs ->
  get_network_design_matrix ifgs degree offset = ok ndm ->
  get_num_params degree None = ok ncoef ->
  length c = ncoef ->
  ifgs !! i = Some ifg ->
  master ifg ≠ slave ifg ->
  let n := num_cells ifg in
  dot_mv (take n (drop (i * n) ndm))
         (equal_blocks (get_epoch_count ifgs) c
                       (if offset then length ifgs else 0))
  = ok (replicate n f0).
Proof.
  intros Hne Hd Hshape Hndm Hn Hc Hi Hms n.
  destruct ifgs as [|ifg0 rest] eqn:Hifgs; [done|]. rewrite <- Hifgs in *.
  assert (ifgs !! 0 = Some ifg0) as H0 by by subst.
  destruct (get_design_matrix_unfold ifg0 degree false Hd) as (n' & Hn' & Htmp).
  set (basis := zip_with _ _ _) in Htmp.
  assert (forall x, x ∈ ifgs -> num_cells x = num_cells ifg0) as Hcells.
  { rewrite Forall_forall in Hshape. intros x Hin.
    assert (ifg_shape x = ifg_shape ifg0) as [= Hr Hcc].
    { rewrite (Hshape x Hin). symmetry. apply Hshape. subst. left. }
    unfold num_cells. by rewrite Hr, Hcc. }
  rewrite (get_network_design_matrix_closed ifgs degree offset ifg0 ncoef
             basis H0) in Hndm; [|by apply Forall_forall|done..].
  injection Hndm as <-.
  destruct (get_design_matrix_shape ifg0 degree false basis ncoef Htmp Hn)
    as [Hlen Hw].
  subst n. rewrite (Hcells ifg) by (by eapply list_elem_of_lookup_2).
  rewrite <- Hlen.
  rewrite (net_blocks_block _ _ _ _ _ _ _ 0 i ifg Hi).
  set (ids := master_slave_ids _). set (nep := get_epoch_count _).
  set (noff := if offset then length ifgs else 0).
  pose proof (all_indexed ifgs) as Hidx. fold ids nep in Hidx.
  rewrite Forall_forall in Hidx.
  destruct (Hidx ifg) as [(m & Hm & Hmlt) (s & Hs & Hslt)];
    [by eapply list_elem_of_lookup_2|].
  unfold idx. rewrite Hm, Hs. simpl.
  assert (m ≠ s) as Hne'.
  { intros ->. apply Hms.
    by eapply (master_slave_ids_dense (get_all_epochs ifgs)). }
  assert (i < length ifgs) as Hilt by by eapply lookup_lt_Some.
  rewrite Forall_forall in Hw.
  rewrite dot_mv_ok.
  - f_equal. rewrite map_map. apply map_const_replicate, Forall_forall.
    intros b Hb. apply (net_row_cancel _ ncoef nep noff); try done.
    + by apply Hw.
    + intros col Hcol. subst noff. destruct offset; [|done].
      injection Hcol as <-. exists i. split; [lia|done].
  - apply Forall_fmap, Forall_forall. intros b Hb. simpl.
    rewrite equal_blocks_length, Hc.
    apply net_row_length; [by apply Hw|nia|nia].
Qed.

End Cancel.

(** ** The network correction *)

Section NetworkCorrection.
Context {num : Type} {NUM : Numeric num} {SOLV : Solvers num}.
Implicit Types (st : @State num) (i : @Ifg num) (h : ref -> @pyobj num).

(** The modelled orbital trend of one interferogram:
    [basis · (coef[slave] − coef[master])]. *)
Definition orb_of (basis coefs : list (list num)) (ids : gmap epoch nat) i
    : option (list num) :=
  s ← ids !! slave i;
  cs ← coefs !! s;
  m ← ids !! master i;
  cm ← coefs !! m;
  match vec_sub cs cm with
  | inr d => Some (map (fun row => vdot row d) basis)
  | inl _ => None
  end.

(** What is subtracted from a phase raster: the trend, plus with offset
    the median of the valid cells of [phase − trend]. *)
Definition subtracted (offset : bool) (phase orb : list num) : list num :=
  if offset then
    let resid := zip_with fsub phase orb in
    let med := median (filter (fun x => isnan x = false) resid) in
    map (fun o => fadd o med) orb
  else orb.

(** One correction of an object, in place. *)
Definition correct_obj (basis coefs : list (list num)) (ids : gmap epoch nat)
    (offset : bool) (o : pyobj) : pyobj :=
  match o with
  | PyIfg i =>
      match orb_of basis coefs ids i with
      | Some orb =>
          let phase := rdata (phase_data i) in
          PyIfg (set_phase_data i
                   {| rshape := rshape (phase_data i);
                      rdata := zip_with fsub phase (subtracted offset phase orb) |})
      | None => o
      end
  | PyOther => o
  end.

(** The number of times [r] occurs in a sequence of references. *)
Definition occurrences (r : ref) (l : list ref) : nat :=
  length (filter (fun x => x = r) l).

Lemma dict_get_ok (d : gmap epoch nat) (k : epoch) (v : nat) :
  inr v = dict_get d k -> d !! k = Some v.
Proof. unfold dict_get. destruct (d !! k); by intros [= ->]. Qed.

Lemma seq_get_ok {A} (l : list A) (k : nat) (v : A) :
  inr v = seq_get l k -> l !! k = Some v.
Proof. unfold seq_get. destruct (l !! k); by intros [= ->]. Qed.

Lemma dot_mv_inv (a : list (list num)) (v out : list num) :
  inr out = dot_mv a v -> out = map (fun row => vdot row v) a.
Proof. unfold dot_mv. destruct (forallb _ a); by intros [= ->]. Qed.

Lemma reshape_raster_inv (v : list num) (shape : nat * nat) (p : Raster) :
  inr p = reshape_raster v shape ->
  p = {| rshape := shape; rdata := v |} /\ length v = shape.1 * shape.2.
Proof.
  unfold reshape_raster. destruct (Nat.eqb_spec (length v) (shape.1 * shape.2));
    by intros [= ->].
Qed.

Lemma raster_sub_inv (a b p : Raster) :
  inr p = raster_sub a b ->
  p = {| rshape := rshape a; rdata := zip_with fsub (rdata a) (rdata b) |} /\
  rshape a = rshape b /\ length (rdata a) = length (rdata b).
Proof.
  unfold raster_sub. destruct (bool_decide _ && _) eqn:Hc; intros [= ->].
  apply andb_true_iff in Hc as [Hs%bool_decide_eq_true Hl%Nat.eqb_eq]. done.
Qed.

Lemma store_phase_ok (r : ref) (p : Raster) st i :
  heap st r = PyIfg i ->
  store_phase r p st
  = (ok tt, {| heap := upd_heap (heap st) r (PyIfg (set_phase_data i p));
               built := built st |}).
Proof. intros H. unfold store_phase. by rewrite H. Qed.

Lemma network_step_ok (dm coefs : list (list num)) (ids : gmap epoch nat)
    (shape0 : nat * nat) (offset : bool) (r : ref) st st' :
  network_step dm coefs ids shape0 offset r st = (inr tt, st') ->
  exists i orb,
    heap st r = PyIfg i /\
    orb_of dm coefs ids i = Some orb /\
    st' = {| heap := upd_heap (heap st) r
                       (correct_obj dm coefs ids offset (PyIfg i));
             built := built st |}.
Proof.
  unfold network_step. intros H.
  apply bindM_ok_inv in H as (i & st1 & Hi & H).
  apply get_ifg_ok_inv in Hi as [Hi ->].
  bind_liftR H si Hsi. apply dict_get_ok in Hsi.
  bind_liftR H cs Hcs. apply seq_get_ok in Hcs.
  bind_liftR H mi Hmi. apply dict_get_ok in Hmi.
  bind_liftR H cm Hcm. apply seq_get_ok in Hcm.
  bind_liftR H diff Hdiff.
  bind_liftR H orb Horb. apply dot_mv_inv in Horb.
  bind_liftR H orbr Horbr. apply reshape_raster_inv in Horbr as [-> _].
  assert (orb_of dm coefs ids i = Some orb) as Horbof.
  { unfold orb_of. rewrite Hsi. simpl. rewrite Hcs. simpl.
    rewrite Hmi. simpl. rewrite Hcm. simpl. rewrite <- Hdiff. by subst. }
  exists i, orb. split; [done|]. split; [done|].
  unfold correct_obj. rewrite Horbof. unfold subtracted.
  destruct offset.
  - bind_liftR H tmp Htmp. apply raster_sub_inv in Htmp as (-> & _ & _).
    bind_liftR H phase Hphase. apply raster_sub_inv in Hphase as (-> & _ & _).
    rewrite (store_phase_ok _ _ _ i Hi) in H. by injection H as <-.
  - bind_liftR H phase Hphase. apply raster_sub_inv in Hphase as (-> & _ & _).
    rewrite (store_phase_ok _ _ _ i Hi) in H. by injection H as <-.
Qed.

Lemma for_each_cons_ok {A} (f : A -> M unit) (a : A) (l : list A) st st' :
  for_each f (a :: l) st = (inr tt, st') ->
  exists st1, f a st = (inr tt, st1) /\ for_each f l st1 = (inr tt, st').
Proof.
  simpl. intros H. apply bindM_ok_inv in H as ([] & st1 & H1 & H). eauto.
Qed.

Lemma orb_of_epochs (basis coefs : list (list num)) (ids : gmap epoch nat) i i' :
  master i = master i' -> slave i = slave i' ->
  orb_of basis coefs ids i = orb_of basis coefs ids i'.
Proof. intros Hm Hs. unfold orb_of. by rewrite Hm, Hs. Qed.

Lemma network_loop_ok (dm coefs : list (list num)) (ids : gmap epoch nat)
    (shape0 : nat * nat) (offset : bool) (l : list ref) :
  forall st st',
    for_each (network_step dm coefs ids shape0 offset) l st = (inr tt, st') ->
    built st' = built st /\
    (forall r, heap st' r
               = Nat.iter (occurrences r l) (correct_obj dm coefs ids offset)
                          (heap st r)) /\
    (forall r, r ∈ l ->
       exists i orb, heap st r = PyIfg i /\ orb_of dm coefs ids i = Some orb).
Proof.
  induction l as [|a l IH]; intros st st' H.
  - injection H as <-. split; [done|]. split; [done|].
    intros r Hr. by apply elem_of_nil in Hr.
  - apply for_each_cons_ok in H as (st1 & H1 & H).
    apply network_step_ok in H1 as (i & orb & Hi & Horb & ->).
    apply IH in H as (Hb & Hheap & Hdef). simpl in Hb, Hheap, Hdef.
    split; [done|]. split.
    + intros r. rewrite Hheap. unfold occurrences, upd_heap.
      rewrite filter_cons. destruct (Nat.eqb_spec r a) as [->|Hne].
      * rewrite decide_True by done. simpl length.
        rewrite Nat.iter_succ_r. by rewrite Hi.
      * by rewrite decide_False by done.
    + intros r [->|Hr]%elem_of_cons; [by eauto|].
      destruct (Hdef r Hr) as (i' & orb' & Hi' & Horb').
      unfold upd_heap in Hi'. destruct (Nat.eqb_spec r a) as [->|Hne]; [|by eauto].
      exists i, orb. split; [done|]. done.
Qed.

Lemma mapM_flat_ok (l : list ref) st (cols : list (list num)) st' :
  mapM (fun r => bindM (get_ifg r) (fun i =>
                 liftR (raster_flat (phase_data i) (num_cells i)))) l st
  = (inr cols, st') ->
  st' = st /\
  forall src, Forall2 (fun r i => heap st r = PyIfg i) l src ->
    cols = map (fun i => rdata (phase_data i)) src.
Proof.
  revert cols st'. induction l as [|a l IH]; simpl; intros cols st' H.
  - injection H as <- <-. split; [done|]. intros src Hsrc.
    by apply Forall2_nil_inv_l in Hsrc as ->.
  - apply bindM_ok_inv in H as (c & st1 & H1 & H).
    apply bindM_ok_inv in H1 as (i & st2 & Hi & H1).
    apply get_ifg_ok_inv in Hi as [Hi ->].
    apply liftR_inv in H1 as [Hc ->].
    apply bindM_ok_inv in H as (cs & st2 & H2 & H).
    apply IH in H2 as [-> Hcs]. injection H as <- <-.
    split; [done|]. intros src Hsrc.
    apply Forall2_cons_inv_l in Hsrc as (i' & src' & Hi' & Hsrc' & ->).
    rewrite Hi in Hi'. injection Hi' as <-. simpl. f_equal; [|by apply Hcs].
    unfold raster_flat in Hc. destruct (_ =? _); by inversion Hc.
Qed.

Lemma coef_blocks_lookup (model : list num) (n ncoef e : nat) :
  e < n ->
  coef_blocks model n ncoef !! e = Some (take ncoef (drop (e * ncoef) model)).
Proof.
  intros He. unfold coef_blocks.
  by rewrite list_lookup_fmap, lookup_seq_lt.
Qed.

(** How the basis, the per-epoch coefficient blocks and the epoch index
    used by the correction loop are obtained: the network design matrix of
    the source sequence (the multilooked one when it is supplied) and the
    stacked phase are masked at the no-data cells, the pseudo-inverse gives
    the solved vector, and the vector is cut into blocks of [ncoef] cells,
    one per epoch of [ifgs]. *)
Definition network_solve h (ifgs : list ref) (degree : string) (offset : bool)
    (m_ifgs : option (list ref)) (basis coefs : list (list num))
    (ids : gmap epoch nat) : Prop :=
  exists (src objs : list Ifg) (ndm tmp : list (list num))
         (vphase fd model : list num) (ncoef : nat) (ifg0 : Ifg),
    Forall2 (fun r i => h r = PyIfg i)
            (match m_ifgs with None => ifgs | Some m => m end) src /\
    Forall2 (fun r i => h r = PyIfg i) ifgs objs /\
    vphase = concat (map (fun i => rdata (phase_data i)) src) /\
    get_network_design_matrix src degree offset = ok ndm /\
    bool_index (not_nan vphase) ndm = ok tmp /\
    bool_index (not_nan vphase) vphase = ok fd /\
    dot_mv (pinv tmp) fd = ok model /\
    get_num_params degree None = ok ncoef /\
    ids = master_slave_ids (get_all_epochs objs) /\
    coefs = coef_blocks model (get_epoch_count objs) ncoef /\
    (forall e, e < get_epoch_count objs ->
       coefs !! e = Some (take ncoef (drop (e * ncoef) model))) /\
    objs !! 0 = Some ifg0 /\
    get_design_matrix ifg0 degree false = ok basis.

Lemma squeeze_array1d (col v : list num) :
  squeeze col = Array1d v -> v = col /\ length col ≠ 1.
Proof.
  unfold squeeze. destruct col as [|x [|y col]]; intros [= <-]; by split.
Qed.

Lemma squeeze_not_single (col : list num) :
  length col ≠ 1 -> squeeze col = Array1d col.
Proof. by destruct col as [|x [|y col]]. Qed.

Lemma squeeze_array0d (col : list num) (x : num) :
  squeeze col = Array0d x -> col = [x].
Proof. unfold squeeze. by destruct col as [|y [|z col]]; intros [= <-]. Qed.

(** The steps of a returning run of [_network_correction], up to the
    correction loop. *)
Lemma network_correction_run_inv (ifgs : list ref) (degree : string)
    (offset : bool) (m_ifgs : option (list ref)) st st' :
  _network_correction ifgs degree offset m_ifgs st = (ok tt, st') ->
  exists (src objs : list Ifg) (ndm tmp : list (list num))
         (vphase fd model : list num) (ncoef : nat) (ifg0 : Ifg)
         (basis : list (list num)) st1,
    Forall2 (fun r i => heap st r = PyIfg i)
            (match m_ifgs with None => ifgs | Some m => m end) src /\
    Forall2 (fun r i => heap st r = PyIfg i) ifgs objs /\
    vphase = concat (map (fun i => rdata (phase_data i)) src) /\
    length vphase ≠ 1 /\
    get_network_design_matrix src degree offset = ok ndm /\
    bool_index (not_nan vphase) ndm = ok tmp /\
    bool_index (not_nan vphase) vphase = ok fd /\
    dot_mv (pinv tmp) fd = ok model /\
    get_num_params degree None = ok ncoef /\
    objs !! 0 = Some ifg0 /\
    get_design_matrix ifg0 degree false = ok basis /\
    heap st1 = heap st /\
    for_each (network_step basis
                (coef_blocks model
                   (size (dom (master_slave_ids (get_all_epochs objs)))) ncoef)
                (master_slave_ids (get_all_epochs objs)) (ifg_shape ifg0)
                offset) ifgs st1
    = (ok tt, st').
Proof.
  unfold _network_correction. intros H.
  apply bindM_ok_inv in H as (cols & st1 & Hcols & H).
  apply mapM_flat_ok in Hcols as [-> Hcols].
  bind_liftR H stacked Hv.
  apply bindM_ok_inv in H as (src & st1 & Hsrc & H).
  apply mapM_get_ifg_ok in Hsrc as [-> Hsrc].
  bind_liftR H ndm Hndm.
  apply bindM_ok_inv in H as ([] & st1 & Hlog & H). injection Hlog as <-.
  destruct (squeeze stacked) as [x|vphase] eqn:Hsq.
  { apply network_0d_raises in H as [e He]. discriminate He. }
  apply squeeze_array1d in Hsq as [-> Hlen].
  bind_liftR H tmp Htmp. bind_liftR H fd Hfd. bind_liftR H model Hmodel.
  bind_liftR H ncoef Hncoef.
  apply bindM_ok_inv in H as (objs & st1 & Hobjs & H).
  apply mapM_get_ifg_ok in Hobjs as [-> Hobjs]. simpl in Hobjs.
  bind_liftR H ifg0 Hifg0. apply seq_get_ok in Hifg0.
  bind_liftR H basis Hbasis.
  apply bindM_ok_inv in H as ([] & st1 & Hlog & H). injection Hlog as <-.
  exists src, objs, ndm, tmp, stacked, fd, model, ncoef, ifg0, basis.
  exists {| heap := heap st;
            built := (built st ++ [EvNetworkDesignMatrix]) ++ [EvDesignMatrix] |}.
  split; [done|]. split; [done|]. split.
  { specialize (Hcols src Hsrc). subst cols.
    unfold vstack in Hv. destruct (map _ src); by inversion Hv. }
  by repeat (split; [done|]).
Qed.

(** C3.  When the network correction returns, every object is left as its
    initial value corrected once per occurrence in [ifgs]; one correction
    of an interferogram subtracts from its phase, in place and in the shape
    of the raster, [orb = basis · (coef[slave] − coef[master])] without
    offset, and [orb] plus the median of the valid cells of [phase − orb]
    with offset.  [basis] is the offset-free full-resolution design matrix
    and [coef] the solved per-epoch blocks of width
    [get_num_params degree]. *)
Theorem network_correction_subtracts (ifgs : list ref) (degree : string)
    (offset : bool) (m_ifgs : option (list ref)) st st' :
  _network_correction ifgs degree offset m_ifgs st = (ok tt, st') ->
  exists (basis coefs : list (list num)) (ids : gmap epoch nat),
    network_solve (heap st) ifgs degree offset m_ifgs basis coefs ids /\
    (forall r, heap st' r
               = Nat.iter (occurrences r ifgs)
                          (correct_obj basis coefs ids offset) (heap st r)) /\
    (forall r, r ∈ ifgs ->
       exists i orb,
         heap st r = PyIfg i /\
         orb_of basis coefs ids i = Some orb /\
         (occurrences r ifgs = 1 ->
          let phase := rdata (phase_data i) in
          heap st' r
          = PyIfg (set_phase_data i
                     {| rshape := rshape (phase_data i);
                        rdata := zip_with fsub phase
                                          (subtracted offset phase orb) |}))).
Proof.
  intros H.
  apply network_correction_run_inv in H
    as (src & objs & ndm & tmp & vphase & fd & model & ncoef & ifg0 & basis
        & st1 & Hsrc & Hobjs & Hv & _ & Hndm & Htmp & Hfd & Hmodel & Hncoef
        & Hifg0 & Hbasis & Hst1 & H).
  apply network_loop_ok in H as (_ & Hheap & Hdef).
  rewrite Hst1 in Hheap, Hdef.
  rewrite size_dom, master_slave_ids_size in Hheap, Hdef.
  fold (get_epoch_count objs) in Hheap, Hdef.
  eexists basis, _, _. split; [|split; [exact Hheap|]].
  - exists src, objs, ndm, tmp, vphase, fd, model, ncoef, ifg0.
    repeat (split; [done|]). split; [|done].
    intros e He. by apply coef_blocks_lookup.
  - intros r Hr. destruct (Hdef r Hr) as (i & orb & Hi & Horb).
    exists i, orb. split; [done|]. split; [done|].
    intros Hone. rewrite Hheap, Hone. simpl.
    rewrite Hi. unfold correct_obj. by rewrite Horb.
Qed.

End NetworkCorrection.

(** ** The epoch index of the matrix and of the correction loop *)

Section EpochIndex.
Context {num : Type} {NUM : Numeric num} {SOLV : Solvers num}.
Implicit Types (st : @State num) (ndm blk : list (list num)).

Lemma heap_objects_unique st (l : list ref) (a b : list Ifg) :
  Forall2 (fun r i => heap st r = PyIfg i) l a ->
  Forall2 (fun r i => heap st r = PyIfg i) l b ->
  a = b.
Proof.
  intros Ha. revert b. induction Ha as [|r i l a Hi _ IH]; intros b Hb.
  - by apply Forall2_nil_inv_l in Hb.
  - apply Forall2_cons_inv_l in Hb as (i' & b' & Hi' & Hb' & ->).
    rewrite Hi in Hi'. injection Hi' as <-. f_equal. by apply IH.
Qed.

(** The rows of the [k]-th interferogram of a matrix whose interferograms
    take [n] rows each hold, in the column block of index [e], the rows of
    [blk]. *)
Definition block_at ndm (n k ncoef e : nat) blk : Prop :=
  forall (p : nat) (brow : list num),
    blk !! p = Some brow ->
    exists row,
      ndm !! (k * n + p) = Some row /\
      forall c, c < ncoef -> row !! (e * ncoef + c) = brow !! c.

Lemma same_epochs_count (mlooked ifgs : list (@Ifg num)) :
  same_epochs mlooked ifgs -> get_epoch_count mlooked = get_epoch_count ifgs.
Proof.
  intros Hsame. unfold get_epoch_count.
  change (get_all_epochs mlooked)
    with (map master mlooked ++ map slave mlooked).
  by rewrite (same_epochs_dates _ _ Hsame).
Qed.

(** C10.  In a returning run of the network correction with [mlooked]
    supplied, whose elements have the epochs of the elements of [ifgs]
    position by position (and one number of cells each), the network
    design matrix that is solved is the one of the multilooked
    interferograms, and its column blocks are those of the epoch index the
    correction loop derives from [ifgs]: the rows of the [k]-th multilooked
    interferogram hold the multilooked basis in the column block of the
    index of the slave epoch of the [k]-th interferogram of [ifgs], and the
    negated basis in that of its master epoch (when the two differ).  The
    loop then subtracts from the [k]-th interferogram the full-resolution
    basis applied to the difference of the blocks of the solved vector at
    these same two indexes, block [e] being the cells
    [e * ncoef .. e * ncoef + ncoef) of the vector, the cells that the
    columns of block [e] of the matrix multiply.  [_validate_mlooked] does
    not look at the epochs: it accepts every sequence of as many objects
    with phase data. *)
Theorem epoch_index_agreement (ifgs ml : list ref) (degree : string)
    (offset : bool) st st' (objs src : list Ifg) :
  Forall2 (fun r i => heap st r = PyIfg i) ifgs objs ->
  Forall2 (fun r m => heap st r = PyIfg m) ml src ->
  (forall m m', m ∈ src -> m' ∈ src -> num_cells m = num_cells m') ->
  same_epochs src objs ->
  _network_correction ifgs degree offset (Some ml) st = (ok tt, st') ->
  let ids := master_slave_ids (get_all_epochs objs) in
  let vphase := concat (map (fun m => rdata (phase_data m)) src) in
  exists (ndm tmp basis_m basis : list (list num)) (fd model : list num)
         (ncoef : nat) (m0 i0 : Ifg),
    let coefs := coef_blocks model (get_epoch_count objs) ncoef in
    master_slave_ids (get_all_epochs src) = ids /\
    src !! 0 = Some m0 /\ objs !! 0 = Some i0 /\
    get_num_params degree None = ok ncoef /\
    get_design_matrix m0 degree false = ok basis_m /\
    get_design_matrix i0 degree false = ok basis /\
    get_network_design_matrix src degree offset = ok ndm /\
    bool_index (not_nan vphase) ndm = ok tmp /\
    bool_index (not_nan vphase) vphase = ok fd /\
    dot_mv (pinv tmp) fd = ok model /\
    (forall (k : nat) (r : ref) (i : Ifg),
       ifgs !! k = Some r -> objs !! k = Some i ->
       exists (im is_ : nat) (orb : list num),
         ids !! master i = Some im /\ ids !! slave i = Some is_ /\
         block_at ndm (num_cells m0) k ncoef is_ basis_m /\
         (master i ≠ slave i ->
          block_at ndm (num_cells m0) k ncoef im (mneg basis_m)) /\
         coefs !! is_ = Some (take ncoef (drop (is_ * ncoef) model)) /\
         coefs !! im = Some (take ncoef (drop (im * ncoef) model)) /\
         orb_of basis coefs ids i = Some orb /\
         (occurrences r ifgs = 1 ->
          let phase := rdata (phase_data i) in
          heap st' r
          = PyIfg (set_phase_data i
                     {| rshape := rshape (phase_data i);
                        rdata := zip_with fsub phase
                                          (subtracted offset phase orb) |}))) /\
    (forall other : pyseq,
       length (items other) = length ifgs ->
       (forall r, r ∈ items other -> has_phase_data (heap st) r = true) ->
       _validate_mlooked other ifgs st = (ok tt, st)).
Proof.
  intros Hobjs Hsrc Hcells Hsame Hrun ids vphase.
  apply network_correction_run_inv in Hrun
    as (src' & objs' & ndm & tmp & vphase' & fd & model & ncoef & i0 & basis
        & st1 & Hsrc' & Hobjs' & Hv & _ & Hndm & Htmp & Hfd & Hmodel & Hncoef
        & Hi0 & Hbasis & Hst1 & Hloop).
  rewrite <- (heap_objects_unique _ _ _ _ Hsrc Hsrc') in *.
  rewrite <- (heap_objects_unique _ _ _ _ Hobjs Hobjs') in *.
  clear src' objs' Hsrc' Hobjs'. subst vphase'. fold vphase in Htmp, Hfd.
  apply network_loop_ok in Hloop as (_ & Hheap & Hdef).
  rewrite Hst1 in Hheap, Hdef.
  rewrite size_dom, master_slave_ids_size in Hheap, Hdef.
  fold (get_epoch_count objs) in Hheap, Hdef. fold ids in Hheap, Hdef.
  assert (master_slave_ids (get_all_epochs src) = ids) as Hids.
  { subst ids. unfold get_all_epochs at 1.
    by rewrite (same_epochs_dates _ _ Hsame). }
  assert (exists m0, src !! 0 = Some m0) as [m0 Hm0].
  { apply lookup_lt_is_Some_2. apply Forall2_length in Hsame.
    apply lookup_lt_Some in Hi0. lia. }
  assert (degree ∈ [PLANAR; QUADRATIC; PART_CUBIC]) as Hd.
  { apply degree_in_list_spec. unfold get_design_matrix in Hbasis.
    by destruct (degree_in_list degree). }
  destruct (get_design_matrix_unfold m0 degree false Hd) as (n' & Hn' & Hbm).
  set (basis_m := zip_with _ _ _) in Hbm.
  assert (Forall (fun m => num_cells m = num_cells m0) src) as Hcells0.
  { apply Forall_forall. intros m Hm. apply Hcells; [done|].
    by eapply list_elem_of_lookup_2. }
  pose proof (get_network_design_matrix_closed src degree offset m0 ncoef
                basis_m Hm0 Hcells0 Hncoef Hbm) as Hclosed.
  pose proof Hndm as Hndm0.
  rewrite Hclosed in Hndm. injection Hndm as Hndm.
  destruct (get_design_matrix_shape m0 degree false basis_m ncoef Hbm Hncoef)
    as [Hlen Hw].
  rewrite Hids in Hndm. rewrite (same_epochs_count _ _ Hsame) in Hndm.
  set (nep := get_epoch_count objs) in *.
  set (w := ncoef * nep + (if offset then length src else 0)) in Hndm.
  exists ndm, tmp, basis_m, basis, fd, model, ncoef, m0, i0. cbv zeta.
  split; [done|]. split; [done|]. split; [done|]. split; [done|].
  split; [done|]. split; [done|]. split; [exact Hndm0|].
  split; [done|]. split; [done|]. split; [done|]. split.
  2:{ intros other. apply validate_mlooked_ok. }
  intros k r i Hk Hi.
  pose proof (all_indexed objs) as Hidx. fold ids nep in Hidx.
  rewrite Forall_forall in Hidx.
  destruct (Hidx i) as [(im & Him & Himlt) (is_ & His & Hislt)];
    [by eapply list_elem_of_lookup_2|].
  destruct (Forall2_lookup_r _ _ _ _ _ Hsame Hi) as (m & Hm & Hmm & Hms).
  destruct (Hdef r) as (i' & orb & Hi' & Horb);
    [by eapply list_elem_of_lookup_2|].
  assert (i' = i) as ->.
  { destruct (Forall2_lookup_l _ _ _ _ _ Hobjs Hk) as (i2 & Hi2 & Hr2).
    rewrite Hi in Hi2. injection Hi2 as <-. rewrite Hi' in Hr2.
    by injection Hr2. }
  rewrite Forall_forall in Hw.
  assert (im * ncoef + ncoef <= w) as Himw by (subst w; nia).
  assert (is_ * ncoef + ncoef <= w) as Hisw by (subst w; nia).
  assert (k < length src) as Hklt by by eapply lookup_lt_Some.
  assert (forall p b, basis_m !! p = Some b ->
            ndm !! (k * num_cells m0 + p)
            = Some (net_row w ncoef im is_
                      (if offset then Some (nep * ncoef + (0 + k)) else None)
                      b)) as Hrow.
  { intros p b Hp. rewrite <- Hndm, <- Hlen.
    rewrite (net_blocks_lookup _ _ _ _ _ _ _ 0 k p m b Hm Hp).
    unfold idx. by rewrite Hmm, Hms, Him, His. }
  exists im, is_, orb. split; [done|]. split; [done|]. split; [|split].
  - intros p brow Hp. eexists. split; [by apply Hrow|].
    intros c Hc. apply net_row_slave; try done.
    + by eapply Hw, list_elem_of_lookup_2.
    + intros col Hcol. destruct offset; [|done]. injection Hcol as <-. nia.
  - intros Hne p brow Hp. unfold mneg in Hp.
    rewrite list_lookup_fmap in Hp.
    destruct (basis_m !! p) as [b|] eqn:Hb; [|done]. injection Hp as <-.
    eexists. split; [by apply Hrow|].
    intros c Hc. rewrite list_lookup_fmap. apply net_row_master; try done.
    + by eapply Hw, list_elem_of_lookup_2.
    + intros col Hcol. destruct offset; [|done]. injection Hcol as <-. nia.
    + intros ->. apply Hne.
      by eapply (master_slave_ids_dense (get_all_epochs objs)).
  - split; [by apply coef_blocks_lookup|].
    split; [by apply coef_blocks_lookup|]. split; [done|].
    intros Hone. rewrite Hheap, Hone. simpl.
    rewrite Hi'. unfold correct_obj. by rewrite Horb.
Qed.

(** [_validate_mlooked] also accepts a multilooked sequence whose epochs,
    and epoch index, differ from those of [ifgs]. *)
Lemma validate_mlooked_ignores_epochs :
  exists st (i m : @Ifg num),
    heap st 0 = PyIfg i /\ heap st 1 = PyIfg m /\
    _validate_mlooked (PyList [1]) [0] st = (ok tt, st) /\
    ~ same_epochs [m] [i] /\
    master_slave_ids (get_all_epochs [m]) ≠ master_slave_ids (get_all_epochs [i]).
Proof.
  set (r0 := {| rshape := (0, 0); rdata := @nil num |}).
  set (i := {| phase_data := r0; nrows := 0; ncols := 0; x_size := f0;
               y_size := f0; master := 1%Z; slave := 2%Z |}).
  set (m := {| phase_data := r0; nrows := 0; ncols := 0; x_size := f0;
               y_size := f0; master := 3%Z; slave := 4%Z |}).
  exists {| heap := fun r => match r with 0 => PyIfg i | _ => PyIfg m end;
            built := [] |}, i, m.
  split; [done|]. split; [done|]. split; [done|]. split.
  - intros H. apply Forall2_cons_1 in H as [[H _] _]. discriminate H.
  - intros H. apply (f_equal (fun ids => ids !! 1%Z)) in H.
    vm_compute in H. discriminate H.
Qed.

End EpochIndex.

(** ** The independent correction of an exact polynomial trend *)

Section Exact.
Context {num : Type} {NUM : Numeric num} {SOLV : Solvers num}.
Variables fle flt : num -> num -> Prop.
Hypothesis Hsor : SOR f0 f1 fadd fmul fsub fneg (@eq num) fle flt.
Add Ring num_sor_ring : (SORrt Hsor).
Implicit Types (a : list (list num)) (m b c : list num) (st : @State num).

(** The residual sum of squares of the model [m] for the system [a], [b]. *)
Definition rss a m b : num :=
  foldr (fun p acc =>
           let e := fsub (vdot p.1 m) p.2 in fadd (fmul e e) acc)
        f0 (zip a b).

(** [m] minimises the residual sum of squares among the vectors of its
    length. *)
Definition least_squares a b m : Prop :=
  forall m', length m' = length m -> fle (rss a m b) (rss a m' b).

Lemma rss_nonneg a m b : fle f0 (rss a m b).
Proof.
  unfold rss. induction (zip a b) as [|p l IH]; simpl.
  - apply (Rle_refl Hsor).
  - apply (Rplus_nonneg_nonneg Hsor); [apply (Rtimes_square_nonneg Hsor)|exact IH].
Qed.

Lemma sum_nonneg_zero (x y : num) :
  fle f0 x -> fle f0 y -> fadd x y = f0 -> x = f0 /\ y = f0.
Proof.
  intros Hx Hy Hxy.
  assert (x = f0) as ->.
  { apply (Rle_antisymm Hsor); [|done].
    rewrite <- Hxy. replace x with (fadd x f0) at 1 by ring.
    by apply (Rplus_le_mono_l Hsor). }
  split; [done|]. rewrite <- Hxy. ring.
Qed.

Lemma square_zero (x : num) : fmul x x = f0 -> x = f0.
Proof.
  intros Hx. apply (Req_dne Hsor). intros Hne.
  by apply (Rtimes_neq_0 Hsor x x).
Qed.

Lemma rss_zero a m b :
  length a = length b -> rss a m b = f0 ->
  map (fun row => vdot row m) a = b.
Proof.
  revert b. induction a as [|row a IH]; intros [|y b] Hlen; try done.
  unfold rss. simpl. intros H.
  apply sum_nonneg_zero in H as [Hsq Hrest];
    [|apply (Rtimes_square_nonneg Hsor)|apply rss_nonneg].
  apply square_zero in Hsq. f_equal.
  - replace y with (fsub (vdot row m) (fsub (vdot row m) y)) by ring.
    rewrite Hsq. ring.
  - apply IH; [by injection Hlen|exact Hrest].
Qed.

Lemma rss_exact a c : rss a c (map (fun row => vdot row c) a) = f0.
Proof.
  unfold rss. induction a as [|row a IH]; simpl; [done|].
  rewrite IH. ring.
Qed.

(** A least-squares solution of a system that has an exact solution is an
    exact solution. *)
Lemma least_squares_exact a c m :
  length c = length m ->
  least_squares a (map (fun row => vdot row c) a) m ->
  map (fun row => vdot row m) a = map (fun row => vdot row c) a.
Proof.
  intros Hlen Hmin. apply rss_zero; [by rewrite length_map|].
  apply (Rle_antisymm Hsor); [|apply rss_nonneg].
  rewrite <- (rss_exact a c). by apply Hmin.
Qed.

Lemma zip_with_sub_diag (v : list num) :
  zip_with fsub v v = replicate (length v) f0.
Proof.
  induction v as [|x v IH]; simpl; [done|]. rewrite IH. f_equal. ring.
Qed.

Lemma bool_index_all_valid {A} (v : list num) (l : list A) :
  Forall (fun x => isnan x = false) v -> length v = length l ->
  bool_index (not_nan v) l = ok l.
Proof.
  intros Hv Hlen. unfold bool_index, not_nan.
  rewrite length_map, Hlen, Nat.eqb_refl. f_equal.
  revert l Hlen. induction Hv as [|x v Hx _ IH]; intros [|y l] Hlen; try done.
  change (zip (map (fun t : num => negb (isnan t)) (x :: v)) (y :: l))
    with ((negb (isnan x), y) :: zip (map (fun t : num => negb (isnan t)) v) l).
  rewrite filter_cons_True by (by rewrite Hx).
  change (map snd ((negb (isnan x), y) :: ?t)) with (y :: map snd t).
  f_equal. apply IH. by injection Hlen.
Qed.

Lemma bindM_liftR_ok {A B} (x : result A) (v : A) (k : A -> M B) st :
  x = ok v -> bindM (liftR x) k st = k v st.
Proof. by intros ->. Qed.

Lemma bindM_get_ifg_ok {B} (r : ref) (i : Ifg) (k : Ifg -> M B) st :
  heap st r = PyIfg i -> bindM (get_ifg r) k st = k i st.
Proof. intros H. unfold bindM, get_ifg. by rewrite H. Qed.

Lemma bindM_log {B} (ev : event) (k : unit -> M B) st :
  bindM (log ev) k st
  = k tt {| heap := heap st; built := built st ++ [ev] |}.
Proof. done. Qed.

(** C4.  In an ordered ring, for a well-formed interferogram without
    no-data pixels whose phase is exactly a polynomial trend of the chosen
    basis ([phase = dm · coef]), and a least-squares solver that returns a
    minimiser of the residual sum of squares, the independent correction
    returns and leaves the phase zero at every pixel. *)
Theorem independent_correction_exact (r : ref) (ifg : Ifg) (degree : string)
    (offset : bool) (dm : list (list num)) (coef : list num) st :
  heap st r = PyIfg ifg ->
  wf_ifg ifg ->
  Forall (fun v => isnan v = false) (rdata (phase_data ifg)) ->
  get_design_matrix ifg degree offset = ok dm ->
  get_num_params degree (Some offset) = ok (length coef) ->
  rdata (phase_data ifg) = map (fun row => vdot row coef) dm ->
  length (lstsq dm (rdata (phase_data ifg))) = length coef ->
  least_squares dm (rdata (phase_data ifg)) (lstsq dm (rdata (phase_data ifg))) ->
  _independent_correction r degree offset st
  = (ok tt,
     {| heap := upd_heap (heap st) r
                  (PyIfg (set_phase_data ifg
                            {| rshape := (nrows ifg, ncols ifg);
                               rdata := replicate (num_cells ifg) f0 |}));
        built := built st ++ [EvDesignMatrix] |}).
Proof.
  intros Hheap [Hshape Hlen] Hvalid Hdm Hn Hphase Hmlen Hmin.
  destruct (get_design_matrix_shape ifg degree offset dm _ Hdm Hn) as [Hrows Hw].
  set (phase := rdata (phase_data ifg)) in *.
  assert (map (fun row => vdot row (lstsq dm phase)) dm = phase) as Hfwd.
  { transitivity (map (fun row => vdot row coef) dm); [|by symmetry].
    apply least_squares_exact; [done|]. by rewrite <- Hphase. }
  assert (raster_flat (phase_data ifg) (num_cells ifg) = ok phase) as H1.
  { unfold raster_flat, num_cells. fold phase. by rewrite Hlen, Nat.eqb_refl. }
  assert (bool_index (not_nan phase) dm = ok dm) as H3.
  { apply bool_index_all_valid; [done|]. rewrite Hrows. exact Hlen. }
  assert (bool_index (not_nan phase) phase = ok phase) as H4.
  { by apply bool_index_all_valid. }
  assert (dot_mv dm (lstsq dm phase) = ok phase) as H5.
  { rewrite dot_mv_ok by (by rewrite Hmlen). by rewrite Hfwd. }
  assert (reshape_raster phase (rshape (phase_data ifg))
          = ok {| rshape := (nrows ifg, ncols ifg); rdata := phase |}) as H6.
  { unfold reshape_raster. rewrite Hshape. simpl. by rewrite Hlen, Nat.eqb_refl. }
  assert (raster_sub (phase_data ifg)
                     {| rshape := (nrows ifg, ncols ifg); rdata := phase |}
          = ok {| rshape := (nrows ifg, ncols ifg);
                  rdata := replicate (num_cells ifg) f0 |}) as H7.
  { unfold raster_sub. simpl. fold phase.
    rewrite bool_decide_eq_true_2, Nat.eqb_refl by done. simpl.
    rewrite Hshape, zip_with_sub_diag. unfold num_cells. by rewrite Hlen. }
  unfold _independent_correction.
  rewrite (bindM_get_ifg_ok _ _ _ _ Hheap).
  rewrite (bindM_liftR_ok _ _ _ _ H1).
  rewrite (bindM_liftR_ok _ _ _ _ Hdm).
  rewrite bindM_log.
  rewrite (bindM_liftR_ok _ _ _ _ H3).
  rewrite (bindM_liftR_ok _ _ _ _ H4).
  rewrite (bindM_liftR_ok _ _ _ _ H5).
  rewrite (bindM_liftR_ok _ _ _ _ H6).
  rewrite (bindM_liftR_ok _ _ _ _ H7).
  by rewrite (store_phase_ok _ _ _ ifg).
Qed.

End Exact.

(** * The theorems at concrete inputs *)

Lemma get_network_design_matrix_layout_witness :
  network_layout (fun ifg => master ifg ≠ slave ifg) [ex_ifg; ex_ifg2]
                 PLANAR true.
Proof.
  apply (get_network_design_matrix_layout [ex_ifg; ex_ifg2] PLANAR true (2, 3)).
  - discriminate.
  - repeat constructor.
  - repeat constructor.
Defined.

Lemma get_design_matrix_spec_witness :
  exists dm : list (list Z),
    get_design_matrix ex_ifg QUADRATIC true = ok dm /\ length dm = 6.
Proof.
  destruct (get_design_matrix_spec ex_ifg QUADRATIC true) as (dm & H1 & H2 & _).
  - repeat constructor.
  - exists dm. split; [exact H1|exact H2].
Defined.

Lemma network_correction_subtracts_witness :
  let st' := (@_network_correction Z _ ex_solvers [0; 1] PLANAR true None
                ex_state).2 in
  exists (basis coefs : list (list Z)) (ids : gmap epoch nat),
    network_solve (SOLV := ex_solvers) (heap ex_state) [0; 1] PLANAR true None
                  basis coefs ids /\
    forall r, heap st' r
              = Nat.iter (occurrences r [0; 1])
                         (correct_obj (SOLV := ex_solvers) basis coefs ids true)
                         (heap ex_state r).
Proof.
  intros st'.
  destruct (network_correction_subtracts (SOLV := ex_solvers)
              [0; 1] PLANAR true None ex_state st')
    as (basis & coefs & ids & H1 & H2 & _).
  - subst st'.
    assert ((@_network_correction Z _ ex_solvers [0; 1] PLANAR true None
               ex_state).1 = ok tt) as H by (vm_compute; reflexivity).
    rewrite <- H. apply surjective_pairing.
  - exists basis, coefs, ids. split; [exact H1|exact H2].
Defined.

Lemma independent_correction_exact_witness :
  exists st' i,
    @_independent_correction Z _ ex_solvers 0 PLANAR false ex_state
    = (ok tt, st') /\
    heap st' 0 = PyIfg i /\
    rdata (phase_data i) = [0; 0; 0; 0; 0; 0]%Z.
Proof.
  eexists. eexists. split.
  - apply (independent_correction_exact (NUM := Z_numeric) (SOLV := ex_solvers)
             Z.le Z.lt Zsor
             0 ex_ifg PLANAR false
             [[0; 0]; [3; 0]; [6; 0]; [0; 2]; [3; 2]; [6; 2]]%Z [1; 1]%Z
             ex_state).
    + reflexivity.
    + split; reflexivity.
    + repeat constructor.
    + vm_compute. reflexivity.
    + reflexivity.
    + vm_compute. reflexivity.
    + reflexivity.
    + intros m' _. apply (Z.le_trans _ 0).
      * vm_compute. discriminate.
      * apply (rss_nonneg (NUM := Z_numeric) Z.le Z.lt Zsor).
  - split; reflexivity.
Defined.

Lemma network_rows_cancel_witness :
  dot_mv (take 6 (drop 6
            (match get_network_design_matrix [ex_ifg; ex_ifg2] PLANAR true with
             | inr ndm => ndm
             | inl _ => []
             end)))
         (equal_blocks 3 [7; -3]%Z 2)
  = ok (replicate 6 0%Z).
Proof.
  apply (network_rows_cancel (NUM := Z_numeric) (SORrt Zsor)
           [ex_ifg; ex_ifg2] PLANAR true (2, 3)
           _ 2 [7; -3]%Z 1 ex_ifg2).
  - discriminate.
  - repeat constructor.
  - repeat constructor.
  - vm_compute. reflexivity.
  - reflexivity.
  - reflexivity.
  - reflexivity.
  - vm_compute. discriminate.
Defined.

(** C7.  The NETWORK method called with two interferograms and, as
    [mlooked], a tuple of an interferogram and an object without phase
    data: formatting the message of the type mismatch raises a [TypeError],
    and no [OrbitalError] (the state is left as it was). *)
Lemma orbital_correction_mlooked_tuple_type_error :
  @orbital_correction Z _ ex_solvers [0; 1] PLANAR NETWORK_METHOD
                      (Some (PyTuple [0; 2])) true ex_state
  = (raise TypeError, ex_state).
Proof. reflexivity. Qed.

Lemma orbital_correction_unknown_method_witness :
  @orbital_correction Z _ ex_solvers [0; 1] PLANAR "KRIGING" None true ex_state
  = (raise (OrbitalError
              "Unknown method: 'KRIGING', need INDEPENDENT or NETWORK method"),
     ex_state).
Proof.
  apply (orbital_correction_unknown_method (SOLV := ex_solvers)
           [0; 1] PLANAR "KRIGING" None true ex_state).
  - repeat constructor.
  - rewrite !elem_of_cons, elem_of_nil. intros [H|[H|[]]]; discriminate H.
Defined.

Lemma nodata_stays_nodata_witness :
  nan_kept (heap nan_state)
           (heap (@_independent_correction _ _ nan_solvers 0 PLANAR false
                    nan_state).2).
Proof.
  destruct (nodata_stays_nodata (NUM := NaNZ_numeric) (SOLV := nan_solvers))
    with (st := nan_state) (degree := PLANAR) (offset := false)
    as [Hind _].
  - intros [a|] b H; [discriminate H|reflexivity].
  - eapply Hind. apply surjective_pairing.
Defined.

Lemma epoch_index_agreement_witness :
  let st' := (@_network_correction Z _ ex_solvers [0; 1] PLANAR true
                (Some [2; 3]) ex_state_mlooked).2 in
  exists (ndm basis_m : list (list Z)) (ncoef : nat) (orb : list Z),
    get_network_design_matrix [ex_ifg_mlooked; ex_ifg2_mlooked] PLANAR true
    = ok ndm /\
    block_at ndm 1 1 ncoef 2 basis_m /\
    block_at ndm 1 1 ncoef 1 (mneg basis_m) /\
    heap st' 1
    = PyIfg (set_phase_data ex_ifg2
               {| rshape := (2, 3);
                  rdata := zip_with Z.sub (rdata (phase_data ex_ifg2))
                             (subtracted (SOLV := ex_solvers) true
                                (rdata (phase_data ex_ifg2)) orb) |}).
Proof.
  intros st'.
  destruct (epoch_index_agreement (SOLV := ex_solvers) [0; 1] [2; 3] PLANAR
              true ex_state_mlooked st' [ex_ifg; ex_ifg2]
              [ex_ifg_mlooked; ex_ifg2_mlooked])
    as (ndm & tmp & basis_m & basis & fd & model & ncoef & m0 & i0 & _ & Hm0
        & _ & _ & _ & _ & Hndm & _ & _ & _ & Hk & _).
  - repeat constructor.
  - repeat constructor.
  - intros m m' Hm Hm'.
    rewrite !elem_of_cons, elem_of_nil in Hm, Hm'.
    by destruct Hm as [->|[->|[]]], Hm' as [->|[->|[]]].
  - repeat constructor.
  - subst st'.
    assert ((@_network_correction Z _ ex_solvers [0; 1] PLANAR true
               (Some [2; 3]) ex_state_mlooked).1 = ok tt) as H
      by (vm_compute; reflexivity).
    rewrite <- H. apply surjective_pairing.
  - injection Hm0 as <-.
    destruct (Hk 1 1 ex_ifg2 eq_refl eq_refl)
      as (im & is_ & orb & Him & His & Hs & Hm & _ & _ & _ & Hheap).
    vm_compute in Him. injection Him as <-.
    vm_compute in His. injection His as <-.
    exists ndm, basis_m, ncoef, orb. split; [exact Hndm|].
    split; [exact Hs|]. split; [apply Hm; discriminate|].
    apply Hheap. reflexivity.
Defined.

(** * Further properties *)

(** ** Errors of the matrix builders *)

Section BuilderErrors.
Context {num : Type} {NUM : Numeric num}.
Implicit Types (ifg : @Ifg num) (ifgs : list (@Ifg num)) (degree : string).

Lemma degree_in_list_false degree :
  degree_in_list degree = false <-> degree ∉ [PLANAR; QUADRATIC; PART_CUBIC].
Proof.
  rewrite <- degree_in_list_spec. by destruct (degree_in_list degree).
Qed.

(** X1.  [get_design_matrix] returns a matrix exactly for the three
    degrees; for any other degree it raises the orbital error "Invalid
    degree argument".  It raises nothing else: the reshape of the pixel
    grids always fits. *)
Theorem get_design_matrix_outcome ifg degree (offset : bool) :
  match get_design_matrix ifg degree offset with
  | inr dm => (degree ∈ [PLANAR; QUADRATIC; PART_CUBIC]) /\
              length dm = num_cells ifg
  | inl e => (degree ∉ [PLANAR; QUADRATIC; PART_CUBIC]) /\
             e = OrbitalError "Invalid degree argument"
  end.
Proof.
  destruct (degree_in_list degree) eqn:Hd.
  - apply degree_in_list_spec in Hd.
    destruct (get_design_matrix_unfold ifg degree offset Hd) as (n & Hn & Hdm).
    destruct (get_design_matrix_shape ifg degree offset _ n Hdm Hn) as [Hlen _].
    rewrite Hdm in *. by split.
  - unfold get_design_matrix. rewrite Hd. simpl.
    by apply degree_in_list_false in Hd.
Qed.

Lemma broadcast_to_length {A} (n : nat) (l l' : list A) :
  broadcast_to n l = Some l' -> length l' = n.
Proof.
  unfold broadcast_to. destruct (Nat.eqb_spec (length l) n) as [<-|_].
  - by intros [= <-].
  - destruct l as [|a [|b l]]; intros [= <-]. apply length_replicate.
Qed.

Lemma mapR_inl {A B} (f : A -> result B) (l : list A) (e : PyErr) :
  mapR f l = inl e -> exists a, a ∈ l /\ f a = inl e.
Proof.
  induction l as [|a l IH]; simpl; [done|].
  destruct (f a) as [e'|b] eqn:Ha; simpl.
  - intros [= ->]. exists a. split; [left|done].
  - destruct (mapR f l) as [e'|bs]; simpl; [|done].
    intros [= ->]. destruct (IH eq_refl) as (a' & Hin & Ha').
    exists a'. split; [by right|done].
Qed.

Lemma mapR_inr {A B} (f : A -> result B) (l : list A) (l' : list B) :
  mapR f l = inr l' -> Forall2 (fun a b => f a = inr b) l l'.
Proof.
  revert l'. induction l as [|a l IH]; simpl; intros l'.
  - intros [= <-]. constructor.
  - destruct (f a) as [e'|b] eqn:Ha; simpl; [done|].
    destruct (mapR f l) as [e'|bs]; simpl; [done|].
    intros [= <-]. constructor; [done|]. by apply IH.
Qed.

Lemma assign_row_inl (row brow : list num) (cs ce : nat) (e : PyErr) :
  assign_row row cs ce brow = inl e -> e = ValueError.
Proof.
  unfold assign_row. destruct (broadcast_to _ brow); by intros [= <-].
Qed.

Lemma assign_row_width (row brow row' : list num) (cs ce : nat) :
  assign_row row cs ce brow = inr row' -> length row' = length row.
Proof.
  unfold assign_row. destruct (broadcast_to _ brow) as [vals|] eqn:Hb; [|done].
  intros [= <-]. apply broadcast_to_length in Hb.
  rewrite !length_app, length_take, length_drop, Hb. lia.
Qed.

Lemma assign_block_inl (ndm blk : list (list num)) (rs re cs ce : nat)
    (e : PyErr) :
  assign_block ndm rs re cs ce blk = inl e -> e = ValueError.
Proof.
  unfold assign_block. destruct (broadcast_to _ blk) as [brows|]; [|by intros [= <-]].
  destruct (mapR _ _) as [e'|mid] eqn:Hmid; simpl; [|done].
  intros [= ->]. apply mapR_inl in Hmid as ([r b] & _ & Hrow).
  by eapply assign_row_inl.
Qed.

Lemma splice_widths (ndm mid : list (list num)) (r0 k w : nat) :
  Forall (fun row => length row = w) ndm ->
  Forall (fun row => length row = w) mid ->
  Forall (fun row => length row = w) (take r0 ndm ++ mid ++ drop k ndm).
Proof.
  intros Hndm Hmid. apply Forall_app. split; [by apply Forall_take|].
  apply Forall_app. split; [done|by apply Forall_drop].
Qed.

Lemma assign_block_widths (ndm blk ndm' : list (list num)) (rs re cs ce w : nat) :
  Forall (fun row => length row = w) ndm ->
  assign_block ndm rs re cs ce blk = inr ndm' ->
  Forall (fun row => length row = w) ndm'.
Proof.
  intros Hw. unfold assign_block.
  destruct (broadcast_to _ blk) as [brows|]; [|done].
  destruct (mapR _ _) as [e'|mid] eqn:Hmid; simpl; [done|].
  intros [= <-]. apply splice_widths; [done|].
  apply mapR_inr in Hmid. apply Forall_forall. intros row' Hin.
  apply list_elem_of_lookup in Hin as [k Hk].
  destruct (Forall2_lookup_r _ _ _ _ _ Hmid Hk) as ([r b] & Hrb & Hrow).
  simpl in Hrow. apply assign_row_width in Hrow. rewrite Hrow.
  apply list_elem_of_lookup_2, elem_of_zip_l in Hrb.
  assert (Forall (fun row => length row = w)
            (take ((re `min` length ndm) - (rs `min` length ndm))
                  (drop ((rs `min` length ndm)) ndm))) as Hsl
    by (by apply Forall_take, Forall_drop).
  rewrite Forall_forall in Hsl. by apply Hsl.
Qed.

Lemma assign_col_widths (ndm ndm' : list (list num)) (rs re col w : nat) (v : num) :
  Forall (fun row => length row = w) ndm ->
  assign_col ndm rs re col v = inr ndm' ->
  Forall (fun row => length row = w) ndm'.
Proof.
  intros Hw. unfold assign_col.
  destruct (mapR _ _) as [e'|mid] eqn:Hmid; simpl; [done|].
  intros [= <-]. apply splice_widths; [done|].
  apply mapR_inr in Hmid. apply Forall_forall. intros row' Hin.
  apply list_elem_of_lookup in Hin as [k Hk].
  destruct (Forall2_lookup_r _ _ _ _ _ Hmid Hk) as (r & Hr & Hrow).
  apply list_elem_of_lookup_2 in Hr.
  assert (Forall (fun row => length row = w)
            (take (Nat.min re (length ndm) - Nat.min rs (length ndm))
                  (drop (Nat.min rs (length ndm)) ndm))) as Hsl
    by (by apply Forall_take, Forall_drop).
  rewrite Forall_forall in Hsl. specialize (Hsl _ Hr). clear Hw.
  destruct (col <? length r); [|done]. injection Hrow as <-.
  by rewrite length_insert.
Qed.

Lemma assign_col_in_range (ndm : list (list num)) (rs re col w : nat) (v : num) :
  Forall (fun row => length row = w) ndm -> col < w ->
  exists ndm', assign_col ndm rs re col v = inr ndm'.
Proof.
  intros Hw Hcol. unfold assign_col.
  rewrite (mapR_ok_map _ (fun r => <[col := v]> r)); [by eexists|].
  apply Forall_take, Forall_drop. eapply Forall_impl; [exact Hw|].
  intros r Hr. simpl in *.
  destruct (Nat.ltb_spec col (length r)); [done|lia].
Qed.

(** A failure of the loop over well-indexed interferograms is a
    [ValueError]: every epoch has an index, and the offset column is within
    the matrix. *)
Lemma ndm_loop_inl (ids : gmap epoch nat) (w ncoef oc nepochs : nat)
    (tmp : list (list num)) (offset : bool) (rest : list Ifg) :
  Forall (indexed ids nepochs) rest ->
  forall (i : nat) (ndm : list (list num)) (e : PyErr),
    Forall (fun row => length row = w) ndm ->
    (offset = true -> oc + i + length rest <= w) ->
    ndm_loop ids ncoef oc tmp offset i rest ndm = inl e ->
    e = ValueError.
Proof.
  induction 1 as [|ifg rest [(m & Hm & _) (s & Hs & _)] _ IH];
    intros i ndm e Hw Hoc; simpl; [done|].
  unfold dict_get. rewrite Hm, Hs. simpl.
  destruct (assign_block ndm _ _ (m * ncoef) _ _) as [e1|ndm1] eqn:H1; simpl.
  { intros [= <-]. by eapply assign_block_inl. }
  apply (assign_block_widths _ _ _ _ _ _ _ w Hw) in H1.
  destruct (assign_block ndm1 _ _ _ _ _) as [e2|ndm2] eqn:H2; simpl.
  { intros [= <-]. by eapply assign_block_inl. }
  apply (assign_block_widths _ _ _ _ _ _ _ w H1) in H2.
  destruct offset.
  - destruct (assign_col_in_range ndm2 (i * num_cells ifg)
                (i * num_cells ifg + num_cells ifg) (oc + i) w f1 H2)
      as [ndm3 H3].
    { specialize (Hoc eq_refl). simpl in Hoc. lia. }
    rewrite H3. simpl. apply IH.
    + by eapply assign_col_widths.
    + intros _. specialize (Hoc eq_refl). simpl in Hoc. lia.
  - simpl. apply IH; [done|done].
Qed.

Lemma get_network_design_matrix_unfold ifgs degree (offset : bool) ifg0
    (ncoef : nat) (tmp : list (list num)) :
  degree ∈ [PLANAR; QUADRATIC; PART_CUBIC] ->
  ifgs !! 0 = Some ifg0 ->
  get_num_params degree None = ok ncoef ->
  get_design_matrix ifg0 degree false = ok tmp ->
  get_network_design_matrix ifgs degree offset
  = ndm_loop (master_slave_ids (get_all_epochs ifgs)) ncoef
             (get_epoch_count ifgs * ncoef) tmp offset 0 ifgs
             (zeros (num_cells ifg0 * length ifgs)
                    (ncoef * get_epoch_count ifgs
                     + (if offset then length ifgs else 0))).
Proof.
  intros Hd H0 Hn Htmp. unfold get_network_design_matrix.
  apply degree_in_list_spec in Hd. rewrite Hd.
  destruct ifgs as [|i0 rest]; [done|]. injection H0 as ->.
  simpl negb. cbv iota. simpl length. simpl Nat.ltb. cbv iota.
  rewrite Hn. simpl. by rewrite Htmp.
Qed.

(** X2.  The failures of [get_network_design_matrix].  An unknown degree
    raises the orbital error "Invalid degree argument", also for an empty
    sequence; an empty sequence with a known degree raises "Invalid number
    of Ifgs: 0"; any other failure is a [ValueError] and there is an
    interferogram whose number of cells differs from that of the first.  No
    epoch lookup fails and no offset column is out of range. *)
Theorem get_network_design_matrix_failures ifgs degree (offset : bool)
    (e : PyErr) :
  get_network_design_matrix ifgs degree offset = inl e ->
  ((degree ∉ [PLANAR; QUADRATIC; PART_CUBIC]) /\
   e = OrbitalError "Invalid degree argument") \/
  ((degree ∈ [PLANAR; QUADRATIC; PART_CUBIC]) /\ ifgs = [] /\
   e = OrbitalError "Invalid number of Ifgs: 0") \/
  ((degree ∈ [PLANAR; QUADRATIC; PART_CUBIC]) /\ e = ValueError /\
   exists ifg0 ifg, ifgs !! 0 = Some ifg0 /\ ifg ∈ ifgs /\
                    num_cells ifg ≠ num_cells ifg0).
Proof.
  intros H. destruct (degree_in_list degree) eqn:Hd.
  2:{ left. unfold get_network_design_matrix in H. rewrite Hd in H.
      injection H as <-. by apply degree_in_list_false in Hd. }
  right. apply degree_in_list_spec in Hd as Hd'.
  destruct ifgs as [|ifg0 rest] eqn:Hifgs.
  { left. unfold get_network_design_matrix in H. rewrite Hd in H.
    by injection H as <-. }
  right. rewrite <- Hifgs in *.
  assert (ifgs !! 0 = Some ifg0) as H0 by by subst.
  destruct (get_num_params_valid degree None Hd') as (ncoef & Hn & _).
  destruct (get_design_matrix_unfold ifg0 degree false Hd') as (n' & _ & Htmp).
  set (basis := zip_with _ _ _) in Htmp.
  split; [done|].
  destruct (decide (Forall (fun ifg => num_cells ifg = num_cells ifg0) ifgs))
    as [Hall|Hnot].
  { by rewrite (get_network_design_matrix_closed ifgs degree offset ifg0 ncoef
                  basis H0 Hall Hn Htmp) in H. }
  split.
  - rewrite (get_network_design_matrix_unfold ifgs degree offset ifg0 ncoef
               basis Hd' H0 Hn Htmp) in H.
    eapply (ndm_loop_inl _ _ _ _ (get_epoch_count ifgs)); [| | |exact H].
    + apply all_indexed.
    + apply Forall_replicate. apply length_replicate.
    + intros ->. simpl. lia.
  - apply not_Forall_Exists in Hnot; [|apply _].
    apply Exists_exists in Hnot as (ifg & Hin & Hne).
    exists ifg0, ifg. by repeat split.
Qed.

End BuilderErrors.

(** ** The orchestrator: order of checks, empty input, sequencing *)

Section OrchestratorMore.
Context {num : Type} {NUM : Numeric num} {SOLV : Solvers num}.
Implicit Types (st : @State num) (ifgs ml : list ref) (degree method : string).

(** X3.  The degree is checked before anything else: with a degree outside
    the enumeration [orbital_correction] raises the orbital error naming
    the degree, whatever the method and the multilooked sequence are (also
    an unknown method, also a mismatched sequence), and the state is
    unchanged. *)
Theorem orbital_correction_invalid_degree ifgs degree method
    (mlooked : option pyseq) (offset : bool) st :
  degree ∉ [PLANAR; QUADRATIC; PART_CUBIC] ->
  orbital_correction ifgs degree method mlooked offset st
  = (raise (OrbitalError ("Invalid degree of " +:+ degree
                          +:+ " for orbital correction")), st).
Proof.
  intros Hd. apply degree_in_list_false in Hd.
  unfold orbital_correction. by rewrite Hd.
Qed.

Lemma for_each_app {A} (f : A -> M unit) (l1 l2 : list A) st :
  for_each f (l1 ++ l2) st
  = match for_each f l1 st with
    | (inl e, st1) => (inl e, st1)
    | (inr _, st1) => for_each f l2 st1
    end.
Proof.
  revert st. induction l1 as [|a l1 IH]; intros st; simpl; [done|].
  unfold bindM. destruct (f a st) as [[e|[]] st1]; [done|]. apply IH.
Qed.

(** X4.  The independent method corrects the interferograms one after the
    other and never looks at the multilooked sequence: a run over
    [l1 ++ l2] is the run over [l1] followed, when that returned, by the run
    over [l2] from the state it left; when the run over [l1] raises, the run
    over [l1 ++ l2] raises the same error in the same state, so that the
    corrections made before the failure stay. *)
Theorem independent_method_sequential (l1 l2 : list ref) degree
    (mlooked mlooked' mlooked'' : option pyseq) (offset : bool) st :
  orbital_correction (l1 ++ l2) degree INDEPENDENT_METHOD mlooked offset st
  = match orbital_correction l1 degree INDEPENDENT_METHOD mlooked' offset st with
    | (inl e, st1) => (inl e, st1)
    | (inr _, st1) =>
        orbital_correction l2 degree INDEPENDENT_METHOD mlooked'' offset st1
    end.
Proof.
  unfold orbital_correction.
  destruct (degree_in_list degree); simpl; [|done].
  change (String.eqb INDEPENDENT_METHOD NETWORK_METHOD) with false.
  change (String.eqb INDEPENDENT_METHOD INDEPENDENT_METHOD) with true.
  cbv iota. apply for_each_app.
Qed.

(** X5.  With the network method and no interferogram at all the stacking
    of the phase vectors fails first: the call raises a [ValueError], not
    the orbital error for an invalid number of interferograms, and the state
    is unchanged. *)
Theorem network_method_empty degree (mlooked : option pyseq)
    (offset : bool) st :
  degree ∈ [PLANAR; QUADRATIC; PART_CUBIC] ->
  mlooked = None \/
  (exists sq : pyseq, mlooked = Some sq /\ items sq = []) ->
  orbital_correction [] degree NETWORK_METHOD mlooked offset st
  = (raise ValueError, st).
Proof.
  intros Hd Hml. apply degree_in_list_spec in Hd.
  unfold orbital_correction. rewrite Hd. simpl.
  destruct Hml as [->|(sq & -> & Hml)]; [done|].
  by destruct sq as [l|l]; simpl in Hml; subst l.
Qed.

End OrchestratorMore.

(** ** What a correction leaves alone *)

Section Frame.
Context {num : Type} {NUM : Numeric num} {SOLV : Solvers num}.
Implicit Types (st : @State num) (h : ref -> @pyobj num) (o : @pyobj num).

(** Two values of one object that differ at most in the cells of the
    phase raster: the kind of object, the geometry, the epochs, and the
    shape and size of the raster are the same. *)
Definition same_but_phase o o' : Prop :=
  match o, o' with
  | PyOther, PyOther => True
  | PyIfg i, PyIfg i' =>
      nrows i' = nrows i /\ ncols i' = ncols i /\
      x_size i' = x_size i /\ y_size i' = y_size i /\
      master i' = master i /\ slave i' = slave i /\
      rshape (phase_data i') = rshape (phase_data i) /\
      length (rdata (phase_data i')) = length (rdata (phase_data i))
  | _, _ => False
  end.

(** From [h] to [h'] only phase cells of the objects of [l] changed. *)
Definition only_phase_of (l : list ref) h h' : Prop :=
  forall r, same_but_phase (h r) (h' r) /\ (r ∉ l -> h' r = h r).

Lemma same_but_phase_refl o : same_but_phase o o.
Proof. destruct o; simpl; tauto. Qed.

Lemma same_but_phase_trans o1 o2 o3 :
  same_but_phase o1 o2 -> same_but_phase o2 o3 -> same_but_phase o1 o3.
Proof.
  destruct o1, o2, o3; simpl; try tauto.
  intros (?&?&?&?&?&?&?&?) (?&?&?&?&?&?&?&?). repeat split; congruence.
Qed.

Lemma only_phase_of_refl l h : only_phase_of l h h.
Proof. intros r. split; [apply same_but_phase_refl|done]. Qed.

Lemma only_phase_of_trans l h1 h2 h3 :
  only_phase_of l h1 h2 -> only_phase_of l h2 h3 -> only_phase_of l h1 h3.
Proof.
  intros H12 H23 r. destruct (H12 r) as [Ha Hb], (H23 r) as [Hc Hd]. split.
  - by eapply same_but_phase_trans.
  - intros Hr. by rewrite Hd, Hb.
Qed.

Variable l : list ref.

Definition frame_pres {A} (c : M A) : Prop :=
  forall st r st', c st = (r, st') -> only_phase_of l (heap st) (heap st').

Definition frame_step (x : ref) (i : Ifg) {A} (c : M A) : Prop :=
  forall st r st', heap st x = PyIfg i -> c st = (r, st') ->
    only_phase_of l (heap st) (heap st').

Lemma heap_pres_frame_pres {A} (c : M A) : heap_pres c -> frame_pres c.
Proof. intros Hc st r st' H. rewrite (Hc _ _ _ H). apply only_phase_of_refl. Qed.

Lemma frame_pres_bind {A B} (c : M A) (k : A -> M B) :
  frame_pres c -> (forall a, frame_pres (k a)) -> frame_pres (bindM c k).
Proof.
  intros Hc Hk st r st' H.
  apply bindM_inv in H as [(e & H & _)|(a & st1 & H1 & H2)].
  - by eapply Hc.
  - eapply only_phase_of_trans; [by eapply Hc|by eapply Hk].
Qed.

Lemma frame_pres_for_each (f : ref -> M unit) (l' : list ref) :
  (forall a, a ∈ l' -> frame_pres (f a)) -> frame_pres (for_each f l').
Proof.
  induction l' as [|a l' IH]; intros Hf; simpl.
  - apply heap_pres_frame_pres, heap_pres_ret.
  - apply frame_pres_bind; [apply Hf; left|].
    intros []. apply IH. intros b Hb. apply Hf. by right.
Qed.

Lemma frame_step_liftR_bind x i {A B} (c : result A) (k : A -> M B) :
  (forall a, c = inr a -> frame_step x i (k a)) ->
  frame_step x i (bindM (liftR c) k).
Proof.
  intros Hk st r st' Hx H.
  apply bindM_inv in H as [(e & H & _)|(a & st1 & H1 & H2)].
  - apply liftR_inv in H as [_ ->]. apply only_phase_of_refl.
  - apply liftR_inv in H1 as [<- ->]. by eapply Hk.
Qed.

Lemma frame_step_log_bind x i {B} (ev : event) (k : unit -> M B) :
  frame_step x i (k tt) -> frame_step x i (bindM (log ev) k).
Proof.
  intros Hk st r st' Hx H.
  apply bindM_inv in H as [(e & [=] & _)|(a & st1 & H1 & H2)].
  apply log_inv in H1 as (_ & Hh & _). destruct a.
  rewrite <- Hh. apply (Hk _ _ _) in H2; [done|]. by rewrite Hh.
Qed.

Lemma frame_step_get_ifg (x : ref) {B} (k : Ifg -> M B) :
  (forall i, frame_step x i (k i)) -> frame_pres (bindM (get_ifg x) k).
Proof.
  intros Hk st r st' H.
  apply bindM_inv in H as [(e & H & _)|(a & st1 & H1 & H2)].
  - apply get_ifg_inv in H as ->. apply only_phase_of_refl.
  - apply get_ifg_ok_inv in H1 as [Hx ->]. by eapply Hk.
Qed.

Lemma frame_step_store x i (q p : Raster) :
  x ∈ l -> raster_sub (phase_data i) q = inr p ->
  frame_step x i (store_phase x p).
Proof.
  intros Hin Hsub st r st' Hx H.
  rewrite (store_phase_ok _ _ _ i Hx) in H. injection H as <- <-. simpl.
  symmetry in Hsub. apply raster_sub_inv in Hsub as (-> & _ & Hlen).
  intros y. unfold upd_heap. destruct (Nat.eqb_spec y x) as [->|Hne].
  - split; [|done]. rewrite Hx. simpl. repeat split; try done.
    rewrite length_zip_with. lia.
  - split; [apply same_but_phase_refl|done].
Qed.

Lemma independent_frame_pres (x : ref) (degree : string) (offset : bool) :
  x ∈ l -> frame_pres (_independent_correction x degree offset).
Proof.
  intros Hin. unfold _independent_correction.
  apply frame_step_get_ifg. intros i.
  repeat (first [apply frame_step_liftR_bind; intros ? ?
                |apply frame_step_log_bind]).
  by eapply frame_step_store.
Qed.

Lemma network_step_frame_pres dm coefs ids shape0 (offset : bool) (x : ref) :
  x ∈ l -> frame_pres (network_step dm coefs ids shape0 offset x).
Proof.
  intros Hin. unfold network_step.
  apply frame_step_get_ifg. intros i.
  do 7 (apply frame_step_liftR_bind; intros ? ?).
  destruct offset;
    repeat (apply frame_step_liftR_bind; intros ? ?); by eapply frame_step_store.
Qed.

Lemma network_frame_pres (ifgs : list ref) (degree : string) (offset : bool)
    (m_ifgs : option (list ref)) :
  ifgs ⊆ l -> frame_pres (_network_correction ifgs degree offset m_ifgs).
Proof.
  intros Hsub. unfold _network_correction.
  do 5 (apply frame_pres_bind;
        [apply heap_pres_frame_pres; auto 6 with heap_pres|intros ?]).
  destruct (squeeze _); [apply heap_pres_frame_pres, heap_pres_network_0d|].
  repeat (apply frame_pres_bind;
          [apply heap_pres_frame_pres; auto 6 with heap_pres|intros ?]).
  apply frame_pres_for_each. intros x Hx. apply network_step_frame_pres.
  by apply Hsub.
Qed.

Lemma orbital_correction_frame_pres (ifgs : list ref) (degree method : string)
    (mlooked : option pyseq) (offset : bool) :
  ifgs ⊆ l -> frame_pres (orbital_correction ifgs degree method mlooked offset).
Proof.
  intros Hsub. unfold orbital_correction.
  destruct (degree_in_list degree); simpl.
  2:{ intros st r st' [= _ <-]. apply only_phase_of_refl. }
  destruct (String.eqb method NETWORK_METHOD).
  { destruct mlooked as [ml|]; [|by apply network_frame_pres].
    apply frame_pres_bind; [|intros ?; by apply network_frame_pres].
    intros s r s'. unfold _validate_mlooked.
    repeat case_match; intros [= _ <-]; apply only_phase_of_refl. }
  destruct (String.eqb method INDEPENDENT_METHOD).
  { apply frame_pres_for_each. intros x Hx. apply independent_frame_pres.
    by apply Hsub. }
  intros st r st' [= _ <-]. apply only_phase_of_refl.
Qed.

End Frame.

(** X6.  Whatever [orbital_correction] does, and whether it returns or
    raises, it changes nothing but cells of the phase rasters of the
    interferograms it was asked to correct: every object keeps its kind, its
    dimensions, pixel sizes and epochs, and the shape and size of its
    raster, and an object that is not in [ifgs] (a multilooked one, for
    instance) is left exactly as it was. *)
Theorem orbital_correction_frame {num : Type} {NUM : Numeric num}
    {SOLV : Solvers num} (ifgs : list ref) (degree method : string)
    (mlooked : option pyseq) (offset : bool)
    (st : @State num) (res : result unit) (st' : @State num) :
  orbital_correction ifgs degree method mlooked offset st = (res, st') ->
  only_phase_of ifgs (heap st) (heap st').
Proof.
  intros Hrun.
  by eapply (orbital_correction_frame_pres ifgs ifgs degree method mlooked
               offset).
Qed.

(** ** The coefficient blocks and the forward model of the matrix *)

Section CoefBlocks.
Context {num : Type} {NUM : Numeric num}.

(** X7.  The per-epoch blocks cut from the solved vector are consecutive:
    put back together they are the first [n * ncoef] cells of the vector, so
    that the cells after them (the offsets) belong to no block; when the
    vector is that long, there are [n] blocks of [ncoef] cells each. *)
Theorem coef_blocks_partition (model : list num) (n ncoef : nat) :
  concat (coef_blocks model n ncoef) = take (n * ncoef) model /\
  length (coef_blocks model n ncoef) = n /\
  (n * ncoef <= length model ->
   Forall (fun b => length b = ncoef) (coef_blocks model n ncoef)).
Proof.
  unfold coef_blocks. split; [|split].
  - induction n as [|n IH]; [done|].
    rewrite seq_S, map_app, concat_app, IH. simpl.
    rewrite app_nil_r, take_take_drop. f_equal. lia.
  - by rewrite length_map, length_seq.
  - intros Hlen. apply Forall_fmap, Forall_forall. intros k Hk.
    apply elem_of_seq in Hk. simpl.
    rewrite length_take, length_drop. nia.
Qed.

End CoefBlocks.

Section ForwardModel.
Context {num : Type} {NUM : Numeric num} {SOLV : Solvers num}.
Hypothesis Rth : ring_theory f0 f1 fadd fmul fsub fneg (@eq num).
Add Ring num_ring_fm : Rth.
Implicit Types (b v : list num).

Lemma vdot_sub b (c1 c2 : list num) :
  length c1 = length c2 ->
  vdot b (zip_with fsub c1 c2) = fsub (vdot b c1) (vdot b c2).
Proof.
  revert c1 c2. induction b as [|x b IH]; intros [|y1 c1] [|y2 c2] Hlen;
    try done; simpl zip_with; try (unfold vdot; simpl; ring).
  rewrite !vdot_cons, IH by (simpl in Hlen; lia). ring.
Qed.

Lemma vdot_singleton (x y : num) : vdot [x] [y] = fmul x y.
Proof. unfold vdot. simpl. ring. Qed.

Lemma take1_drop (l : list num) (k : nat) (x : num) :
  l !! k = Some x -> take 1 (drop k l) = [x].
Proof.
  intros Hk. rewrite <- (take_drop_middle l k x Hk).
  apply lookup_lt_Some in Hk.
  rewrite drop_app_length' by (rewrite length_take; lia). done.
Qed.

(** The product of one row of the matrix with a coefficient vector. *)
Lemma net_row_forward (w ncoef nepochs m s : nat) (ocol : option nat) b v :
  length b = ncoef -> length v = w -> ncoef * nepochs <= w ->
  m < nepochs -> s < nepochs -> m ≠ s ->
  (forall col, ocol = Some col -> ncoef * nepochs <= col < w) ->
  vdot (net_row w ncoef m s ocol b) v
  = fadd (fsub (vdot b (take ncoef (drop (s * ncoef) v)))
               (vdot b (take ncoef (drop (m * ncoef) v))))
         (match ocol with
          | Some col => default f0 (v !! col)
          | None => f0
          end).
Proof.
  intros Hb Hv Hw Hm Hs Hms Hoc.
  assert (m * ncoef + ncoef <= w) as Hmw by nia.
  assert (s * ncoef + ncoef <= w) as Hsw by nia.
  set (r1 := put (replicate w f0) (m * ncoef) (map fneg b)).
  assert (length r1 = w) as Hr1.
  { subst r1. rewrite put_length; rewrite ?length_map, length_replicate; lia. }
  assert (vdot (put r1 (s * ncoef) b) v
          = fsub (vdot b (take ncoef (drop (s * ncoef) v)))
                 (vdot b (take ncoef (drop (m * ncoef) v)))) as Hr2.
  { rewrite (vdot_put Rth) by lia. subst r1.
    rewrite (vdot_put Rth); rewrite ?length_map, ?length_replicate; try lia.
    rewrite Hb.
    rewrite (put_segment_zero w (m * ncoef) (s * ncoef) _ ncoef);
      rewrite ?length_map; try lia;
      [|destruct (Nat.lt_total m s) as [?|[?|?]]; [right|done|left]; nia].
    rewrite drop_replicate, take_replicate.
    rewrite !(vdot_zeros_l Rth), (vdot_neg Rth). ring. }
  unfold net_row. fold r1. destruct ocol as [col|].
  2:{ rewrite Hr2. ring. }
  destruct (Hoc col eq_refl) as [Hlo Hhi].
  assert (length (put r1 (s * ncoef) b) = w) as Hl2
    by (rewrite put_length; lia).
  destruct (lookup_lt_is_Some_2 v col) as [x Hx]; [lia|].
  assert (put r1 (s * ncoef) b !! col = Some f0) as Hz.
  { rewrite put_lookup_out by nia. subst r1.
    rewrite put_lookup_out; rewrite ?length_map, ?length_replicate; try nia.
    apply lookup_replicate_2. lia. }
  rewrite insert_as_put by lia.
  rewrite (vdot_put Rth) by (simpl; lia). rewrite Hr2. simpl length.
  rewrite (take1_drop _ _ _ Hx), (take1_drop _ _ _ Hz), Hx.
  rewrite !vdot_singleton. simpl. ring.
Qed.

(** X8.  In a commutative ring, the row-block of an interferogram with
    distinct epochs, multiplied by any coefficient vector of the width of
    the matrix, is the orbital trend the correction loop computes from the
    per-epoch blocks of that vector, [basis · (coef[slave] − coef[master])],
    plus, with offset, the offset entry of the interferogram: the matrix of
    the inversion and the correction that is subtracted are the same
    model. *)
Theorem network_rows_forward_model (ifgs : list Ifg) (degree : string)
    (offset : bool) (shape : nat * nat) (ndm basis : list (list num))
    (ncoef : nat) (ifg0 : Ifg) (v : list num) (i : nat) (ifg : Ifg) :
  degree ∈ [PLANAR; QUADRATIC; PART_CUBIC] ->
  Forall (fun ifg => ifg_shape ifg = shape) ifgs ->
  ifgs !! 0 = Some ifg0 ->
  get_network_design_matrix ifgs degree offset = ok ndm ->
  get_num_params degree None = ok ncoef ->
  get_design_matrix ifg0 degree false = ok basis ->
  length v = ncoef * get_epoch_count ifgs + (if offset then length ifgs else 0) ->
  ifgs !! i = Some ifg ->
  master ifg ≠ slave ifg ->
  let n := num_cells ifg in
  let nepochs := get_epoch_count ifgs in
  exists orb,
    orb_of basis (coef_blocks v nepochs ncoef)
           (master_slave_ids (get_all_epochs ifgs)) ifg = Some orb /\
    dot_mv (take n (drop (i * n) ndm)) v
    = ok (if offset
          then map (fun o => fadd o (default f0 (v !! (nepochs * ncoef + i)))) orb
          else orb).
Proof.
  intros Hd Hshape H0 Hndm Hn Htmp Hv Hi Hms n nepochs.
  assert (forall x, x ∈ ifgs -> num_cells x = num_cells ifg0) as Hcells.
  { rewrite Forall_forall in Hshape. intros x Hin.
    assert (ifg_shape x = ifg_shape ifg0) as [= Hr Hcc].
    { rewrite (Hshape x Hin). symmetry. apply Hshape.
      by eapply list_elem_of_lookup_2. }
    unfold num_cells. by rewrite Hr, Hcc. }
  rewrite (get_network_design_matrix_closed ifgs degree offset ifg0 ncoef
             basis H0) in Hndm; [|by apply Forall_forall|done..].
  injection Hndm as <-.
  destruct (get_design_matrix_shape ifg0 degree false basis ncoef Htmp Hn)
    as [Hlen Hw].
  subst n. rewrite (Hcells ifg) by (by eapply list_elem_of_lookup_2).
  rewrite <- Hlen.
  rewrite (net_blocks_block _ _ _ _ _ _ _ 0 i ifg Hi).
  set (ids := master_slave_ids _). fold nepochs. fold nepochs in Hv.
  pose proof (all_indexed ifgs) as Hidx. fold ids nepochs in Hidx.
  rewrite Forall_forall in Hidx.
  destruct (Hidx ifg) as [(m & Hm & Hmlt) (s & Hs & Hslt)];
    [by eapply list_elem_of_lookup_2|].
  assert (m ≠ s) as Hne'.
  { intros ->. apply Hms.
    by eapply (master_slave_ids_dense (get_all_epochs ifgs)). }
  assert (i < length ifgs) as Hilt by by eapply lookup_lt_Some.
  set (cs := take ncoef (drop (s * ncoef) v)).
  set (cm := take ncoef (drop (m * ncoef) v)).
  assert (length cs = ncoef) as Hcs
    by (subst cs; rewrite length_take, length_drop; nia).
  assert (length cm = ncoef) as Hcm
    by (subst cm; rewrite length_take, length_drop; nia).
  exists (map (fun row => vdot row (zip_with fsub cs cm)) basis). split.
  { unfold orb_of. rewrite Hs. simpl.
    rewrite coef_blocks_lookup by done. simpl. rewrite Hm. simpl.
    rewrite coef_blocks_lookup by done. simpl. fold cs cm.
    unfold vec_sub. by rewrite Hcs, Hcm, Nat.eqb_refl. }
  unfold idx. rewrite Hm, Hs. simpl.
  rewrite Forall_forall in Hw.
  rewrite (dot_mv_ok).
  2:{ apply Forall_fmap, Forall_forall. intros b Hb. simpl. rewrite Hv.
      apply net_row_length; [by apply Hw|nia|nia]. }
  f_equal. destruct offset; rewrite !map_map.
  - apply map_ext_in. intros b Hb%list_elem_of_In.
    rewrite (net_row_forward _ ncoef nepochs); try done; try lia.
    + rewrite vdot_sub by lia. fold cs cm.
      replace (nepochs * ncoef + (0 + i)) with (nepochs * ncoef + i) by lia.
      done.
    + by apply Hw.
    + intros col [= <-]. lia.
  - apply map_ext_in. intros b Hb%list_elem_of_In.
    rewrite (net_row_forward _ ncoef nepochs); try done; try lia.
    + rewrite vdot_sub by lia. fold cs cm. ring.
    + by apply Hw.
Qed.

End ForwardModel.

(** ** The runs on well-formed interferograms *)

Section Runs.
Context {num : Type} {NUM : Numeric num} {SOLV : Solvers num}.
Implicit Types (st : @State num) (i ifg : @Ifg num).

(** The cells of [l] at the positions where [mask] is true. *)
Definition select {A} (mask : list bool) (l : list A) : list A :=
  map snd (filter (fun p => p.1 = true) (zip mask l)).

Lemma bool_index_ok {A} (mask : list bool) (l : list A) :
  length mask = length l -> bool_index mask l = ok (select mask l).
Proof. intros H. unfold bool_index. by rewrite H, Nat.eqb_refl. Qed.

Lemma bindM_step {A B} (c : M A) (k : A -> M B) (a : A) st st1 :
  c st = (ok a, st1) -> bindM c k st = k a st1.
Proof. intros H. unfold bindM. by rewrite H. Qed.

Lemma get_design_matrix_rows ifg (degree : string) (offset : bool)
    (dm : list (list num)) :
  get_design_matrix ifg degree offset = ok dm -> length dm = num_cells ifg.
Proof.
  intros Hdm.
  assert (degree ∈ [PLANAR; QUADRATIC; PART_CUBIC]) as Hd.
  { apply degree_in_list_spec. unfold get_design_matrix in Hdm.
    by destruct (degree_in_list degree). }
  destruct (get_num_params_valid degree (Some offset) Hd) as (n & Hn & _).
  by destruct (get_design_matrix_shape ifg degree offset dm n Hdm Hn).
Qed.

(** X9.  The independent correction of a well-formed interferogram, for a
    degree of the enumeration and a solver that returns one coefficient per
    column, does not fail: it subtracts from the phase, in place, the
    forward model [dm · model] at every pixel, where [model] is the
    least-squares solution over the rows and phases of the pixels that are
    not no-data, and it changes nothing else. *)
Theorem independent_correction_result (r : ref) ifg (degree : string)
    (offset : bool) (dm : list (list num)) st :
  heap st r = PyIfg ifg ->
  wf_ifg ifg ->
  get_design_matrix ifg degree offset = ok dm ->
  let phase := rdata (phase_data ifg) in
  let model := lstsq (select (not_nan phase) dm) (select (not_nan phase) phase) in
  Forall (fun row => length row = length model) dm ->
  _independent_correction r degree offset st
  = (ok tt,
     {| heap := upd_heap (heap st) r
                  (PyIfg (set_phase_data ifg
                            {| rshape := (nrows ifg, ncols ifg);
                               rdata := zip_with fsub phase
                                          (map (fun row => vdot row model) dm) |}));
        built := built st ++ [EvDesignMatrix] |}).
Proof.
  intros Hheap [Hshape Hlen] Hdm phase model Hmodel.
  change (length phase = nrows ifg * ncols ifg) in Hlen.
  pose proof (get_design_matrix_rows _ _ _ _ Hdm) as Hrows.
  assert (raster_flat (phase_data ifg) (num_cells ifg) = ok phase) as H1.
  { unfold raster_flat, num_cells. fold phase. by rewrite Hlen, Nat.eqb_refl. }
  assert (length (not_nan phase) = length phase) as Hmask
    by apply length_map.
  assert (bool_index (not_nan phase) dm = ok (select (not_nan phase) dm)) as H3.
  { apply bool_index_ok. rewrite Hmask, Hrows. exact Hlen. }
  assert (bool_index (not_nan phase) phase = ok (select (not_nan phase) phase))
    as H4 by (by apply bool_index_ok).
  assert (dot_mv dm model = ok (map (fun row => vdot row model) dm)) as H5
    by (by apply dot_mv_ok).
  assert (reshape_raster (map (fun row => vdot row model) dm)
                         (rshape (phase_data ifg))
          = ok {| rshape := (nrows ifg, ncols ifg);
                  rdata := map (fun row => vdot row model) dm |}) as H6.
  { unfold reshape_raster. rewrite Hshape. simpl.
    rewrite length_map, Hrows. unfold num_cells. by rewrite Nat.eqb_refl. }
  assert (raster_sub (phase_data ifg)
            {| rshape := (nrows ifg, ncols ifg);
               rdata := map (fun row => vdot row model) dm |}
          = ok {| rshape := (nrows ifg, ncols ifg);
                  rdata := zip_with fsub phase
                             (map (fun row => vdot row model) dm) |}) as H7.
  { unfold raster_sub. simpl. fold phase.
    rewrite bool_decide_eq_true_2 by done.
    rewrite length_map, Hrows, Hlen. unfold num_cells.
    rewrite Nat.eqb_refl. simpl. by rewrite Hshape. }
  unfold _independent_correction.
  rewrite (bindM_get_ifg_ok _ _ _ _ Hheap).
  rewrite (bindM_liftR_ok _ _ _ _ H1).
  rewrite (bindM_liftR_ok _ _ _ _ Hdm).
  rewrite bindM_log.
  rewrite (bindM_liftR_ok _ _ _ _ H3).
  rewrite (bindM_liftR_ok _ _ _ _ H4).
  fold model.
  rewrite (bindM_liftR_ok _ _ _ _ H5).
  rewrite (bindM_liftR_ok _ _ _ _ H6).
  rewrite (bindM_liftR_ok _ _ _ _ H7).
  by rewrite (store_phase_ok _ _ _ ifg).
Qed.

(** An object the correction loop can correct: a well-formed
    interferogram of the shape [shape0] whose epochs are indexed. *)
Definition ready (ids : gmap epoch nat) (nepochs : nat) (shape0 : nat * nat)
    (o : pyobj) : Prop :=
  exists i, o = PyIfg i /\ wf_ifg i /\ ifg_shape i = shape0 /\
            indexed ids nepochs i.

Section Loop.
Variables (basis : list (list num)) (model : list num) (ids : gmap epoch nat).
Variables (nepochs ncoef : nat) (shape0 : nat * nat) (offset : bool).
Hypothesis Hbasis_w : Forall (fun row => length row = ncoef) basis.
Hypothesis Hbasis_n : length basis = shape0.1 * shape0.2.
Hypothesis Hmodel : nepochs * ncoef <= length model.

Let coefs := coef_blocks model nepochs ncoef.

Lemma orb_of_ready i :
  indexed ids nepochs i ->
  exists orb, orb_of basis coefs ids i = Some orb /\ length orb = length basis.
Proof.
  intros [(m & Hm & Hmlt) (s & Hs & Hslt)].
  set (cs := take ncoef (drop (s * ncoef) model)).
  set (cm := take ncoef (drop (m * ncoef) model)).
  assert (length cs = ncoef) as Hcs
    by (subst cs; rewrite length_take, length_drop; nia).
  assert (length cm = ncoef) as Hcm
    by (subst cm; rewrite length_take, length_drop; nia).
  exists (map (fun row => vdot row (zip_with fsub cs cm)) basis).
  split; [|apply length_map].
  unfold orb_of, coefs. rewrite Hs. simpl.
  rewrite coef_blocks_lookup by done. simpl. rewrite Hm. simpl.
  rewrite coef_blocks_lookup by done. simpl. fold cs cm.
  unfold vec_sub. by rewrite Hcs, Hcm, Nat.eqb_refl.
Qed.

Lemma subtracted_length (phase orb : list num) :
  length (subtracted offset phase orb) = length orb.
Proof. unfold subtracted. destruct offset; [apply length_map|done]. Qed.

Lemma correct_obj_ready (o : pyobj) :
  ready ids nepochs shape0 o ->
  ready ids nepochs shape0 (correct_obj basis coefs ids offset o).
Proof.
  intros (i & -> & [Hshape Hlen] & Hsh & Hidx). simpl.
  destruct (orb_of_ready i Hidx) as (orb & -> & Horb).
  eexists. split; [reflexivity|]. split; [|split; [exact Hsh|exact Hidx]].
  split; simpl; [exact Hshape|].
  rewrite length_zip_with, subtracted_length, Horb, Hbasis_n, Hlen.
  rewrite <- Hsh. simpl. lia.
Qed.

Lemma network_step_run (r : ref) st :
  ready ids nepochs shape0 (heap st r) ->
  network_step basis coefs ids shape0 offset r st
  = (ok tt, {| heap := upd_heap (heap st) r
                         (correct_obj basis coefs ids offset (heap st r));
               built := built st |}).
Proof.
  intros (i & Hi & [Hshape Hlen] & Hsh & Hidx).
  assert (exists st1, network_step basis coefs ids shape0 offset r st
                      = (ok tt, st1)) as [st1 Hrun].
  { destruct Hidx as [(m & Hm & Hmlt) (s & Hs & Hslt)].
    set (cs := take ncoef (drop (s * ncoef) model)).
    set (cm := take ncoef (drop (m * ncoef) model)).
    assert (length cs = ncoef) as Hcs
      by (subst cs; rewrite length_take, length_drop; nia).
    assert (length cm = ncoef) as Hcm
      by (subst cm; rewrite length_take, length_drop; nia).
    set (orb := map (fun row => vdot row (zip_with fsub cs cm)) basis).
    assert (dict_get ids (slave i) = ok s) as H1
      by (unfold dict_get; by rewrite Hs).
    assert (seq_get coefs s = ok cs) as H2
      by (unfold seq_get, coefs; by rewrite coef_blocks_lookup).
    assert (dict_get ids (master i) = ok m) as H3
      by (unfold dict_get; by rewrite Hm).
    assert (seq_get coefs m = ok cm) as H4
      by (unfold seq_get, coefs; by rewrite coef_blocks_lookup).
    assert (vec_sub cs cm = ok (zip_with fsub cs cm)) as H5
      by (unfold vec_sub; by rewrite Hcs, Hcm, Nat.eqb_refl).
    assert (dot_mv basis (zip_with fsub cs cm) = ok orb) as H6.
    { apply dot_mv_ok. eapply Forall_impl; [exact Hbasis_w|].
      intros row Hrow. simpl in *. rewrite length_zip_with. lia. }
    assert (reshape_raster orb shape0 = ok {| rshape := shape0; rdata := orb |})
      as H7.
    { unfold reshape_raster. subst orb.
      by rewrite length_map, Hbasis_n, Nat.eqb_refl. }
    assert (forall q : list num, length q = length orb ->
              raster_sub (phase_data i) {| rshape := shape0; rdata := q |}
              = ok {| rshape := rshape (phase_data i);
                      rdata := zip_with fsub (rdata (phase_data i)) q |}) as H8.
    { intros q Hq. unfold raster_sub. simpl.
      rewrite bool_decide_eq_true_2 by (by rewrite Hshape, <- Hsh).
      assert (length (rdata (phase_data i)) = length q) as ->; [|by rewrite Nat.eqb_refl].
      rewrite Hq, Hlen. subst orb. rewrite length_map, Hbasis_n.
      by rewrite <- Hsh. }
    unfold network_step.
    rewrite (bindM_get_ifg_ok _ _ _ _ Hi).
    rewrite (bindM_liftR_ok _ _ _ _ H1), (bindM_liftR_ok _ _ _ _ H2).
    rewrite (bindM_liftR_ok _ _ _ _ H3), (bindM_liftR_ok _ _ _ _ H4).
    rewrite (bindM_liftR_ok _ _ _ _ H5), (bindM_liftR_ok _ _ _ _ H6).
    rewrite (bindM_liftR_ok _ _ _ _ H7).
    destruct offset.
    - rewrite (bindM_liftR_ok _ _ _ _ (H8 orb eq_refl)).
      unfold raster_add_scalar. simpl rshape. simpl rdata.
      erewrite bindM_liftR_ok; [|apply H8; by rewrite length_map].
      rewrite (store_phase_ok _ _ _ i Hi). by eexists.
    - rewrite (bindM_liftR_ok _ _ _ _ (H8 orb eq_refl)).
      rewrite (store_phase_ok _ _ _ i Hi). by eexists. }
  rewrite Hrun. f_equal.
  apply network_step_ok in Hrun as (i' & orb & Hi' & _ & ->).
  by rewrite Hi'.
Qed.

Lemma network_loop_run (l : list ref) :
  forall st,
    (forall r, r ∈ l -> ready ids nepochs shape0 (heap st r)) ->
    exists st', for_each (network_step basis coefs ids shape0 offset) l st
                = (ok tt, st').
Proof.
  induction l as [|a l IH]; intros st Hready; simpl.
  - by eexists.
  - rewrite (bindM_step _ _ _ _ _ (network_step_run a st (Hready a ltac:(left)))).
    apply IH. intros r Hr. simpl. unfold upd_heap.
    destruct (Nat.eqb_spec r a) as [->|Hne].
    + apply correct_obj_ready, Hready. left.
    + apply Hready. by right.
Qed.

End Loop.

Lemma mapM_get_ifg_run (l : list ref) (objs : list Ifg) st :
  Forall2 (fun r i => heap st r = PyIfg i) l objs ->
  mapM get_ifg l st = (ok objs, st).
Proof.
  induction 1 as [|r i l objs Hr _ IH]; simpl; [done|].
  rewrite (bindM_get_ifg_ok _ _ _ _ Hr).
  by rewrite (bindM_step _ _ _ _ _ IH).
Qed.

Lemma mapM_flat_run (l : list ref) (objs : list Ifg) st :
  Forall2 (fun r i => heap st r = PyIfg i) l objs ->
  Forall wf_ifg objs ->
  mapM (fun r => bindM (get_ifg r) (fun i =>
                 liftR (raster_flat (phase_data i) (num_cells i)))) l st
  = (ok (map (fun i => rdata (phase_data i)) objs), st).
Proof.
  induction 1 as [|r i l objs Hr _ IH]; intros Hwf; simpl; [done|].
  apply Forall_cons in Hwf as [[_ Hlen] Hwf].
  assert (bindM (get_ifg r)
            (fun i => liftR (raster_flat (phase_data i) (num_cells i))) st
          = (ok (rdata (phase_data i)), st)) as H1.
  { rewrite (bindM_get_ifg_ok _ _ _ _ Hr). unfold liftR, raster_flat, num_cells.
    by rewrite Hlen, Nat.eqb_refl. }
  rewrite (bindM_step _ _ _ _ _ H1).
  by rewrite (bindM_step _ _ _ _ _ (IH Hwf)).
Qed.

Lemma same_shape_cells (objs : list Ifg) (shape : nat * nat) (i0 : Ifg) :
  Forall (fun i => wf_ifg i /\ ifg_shape i = shape) objs ->
  objs !! 0 = Some i0 ->
  ifg_shape i0 = shape /\
  Forall (fun i => num_cells i = num_cells i0) objs /\
  Forall (fun i => length (rdata (phase_data i)) = num_cells i0) objs.
Proof.
  intros Hall H0. rewrite Forall_forall in Hall.
  assert (ifg_shape i0 = shape) as Hs0
    by (by apply Hall, (list_elem_of_lookup_2 _ 0)).
  split; [done|]. split; apply Forall_forall; intros i Hi;
    destruct (Hall i Hi) as [[_ Hlen] Hs];
    rewrite <- Hs0 in Hs; injection Hs as Hr Hc; unfold num_cells.
  - by rewrite Hr, Hc.
  - by rewrite Hlen, Hr, Hc.
Qed.

(** The masked system the pseudo-inverse is applied to, and the solved
    vector: the network design matrix [ndm] of the source sequence and its
    stacked phase, at the cells that are not no-data. *)
Definition masked_matrix (src : list Ifg) (ndm : list (list num))
    : list (list num) :=
  select (not_nan (concat (map (fun i => rdata (phase_data i)) src))) ndm.

Definition masked_phase (src : list Ifg) : list num :=
  let vphase := concat (map (fun i => rdata (phase_data i)) src) in
  select (not_nan vphase) vphase.

Definition solved_model (src : list Ifg) (ndm : list (list num)) : list num :=
  map (fun row => vdot row (masked_phase src)) (pinv (masked_matrix src ndm)).

(** The pseudo-inverse of the masked matrix has the shape of a
    pseudo-inverse: as many rows as the matrix has columns, each as long as
    the matrix has rows. *)
Definition pinv_shaped (src : list Ifg) (ndm : list (list num)) (w : nat) : Prop :=
  length (pinv (masked_matrix src ndm)) = w /\
  Forall (fun row => length row = length (masked_phase src))
         (pinv (masked_matrix src ndm)).

(** The part of [_network_correction] before the loop. *)
Lemma network_prefix (ifgs : list ref) (objs src : list Ifg)
    (m_ifgs : option (list ref)) (degree : string) (offset : bool)
    (shape_src : nat * nat) (ndm basis : list (list num)) (ncoef : nat)
    (ifg0 : Ifg) st :
  Forall2 (fun r i => heap st r = PyIfg i) ifgs objs ->
  Forall2 (fun r i => heap st r = PyIfg i)
          (match m_ifgs with None => ifgs | Some m => m end) src ->
  Forall (fun i => wf_ifg i /\ ifg_shape i = shape_src) src ->
  src ≠ [] ->
  length src * (shape_src.1 * shape_src.2) ≠ 1 ->
  get_network_design_matrix src degree offset = ok ndm ->
  get_num_params degree None = ok ncoef ->
  objs !! 0 = Some ifg0 ->
  get_design_matrix ifg0 degree false = ok basis ->
  Forall (fun row => length row = length (masked_phase src))
         (pinv (masked_matrix src ndm)) ->
  _network_correction ifgs degree offset m_ifgs st
  = for_each (network_step basis
                (coef_blocks (solved_model src ndm) (get_epoch_count objs) ncoef)
                (master_slave_ids (get_all_epochs objs))
                (ifg_shape ifg0) offset)
             ifgs
             {| heap := heap st;
                built := built st ++ [EvNetworkDesignMatrix; EvDesignMatrix] |}.
Proof.
  intros Hobjs Hsrc Hwf Hne Hstack Hndm Hn H0 Hbasis Hpinv.
  set (vphase := concat (map (fun i => rdata (phase_data i)) src)).
  assert (exists src0, src !! 0 = Some src0) as [src0 Hs0]
    by (destruct src; [done|by eexists]).
  destruct (same_shape_cells src shape_src src0 Hwf Hs0)
    as (Hshs & Hcells & Hlens).
  assert (length vphase = length src * num_cells src0) as Hvlen.
  { subst vphase. rewrite (concat_uniform_length _ (num_cells src0)).
    - by rewrite length_map.
    - by apply Forall_fmap. }
  assert (length ndm = length src * num_cells src0) as Hndmlen.
  { assert (degree ∈ [PLANAR; QUADRATIC; PART_CUBIC]) as Hd.
    { apply degree_in_list_spec. unfold get_design_matrix in Hbasis.
      by destruct (degree_in_list degree). }
    destruct (get_design_matrix_unfold src0 degree false Hd) as (n' & _ & Htmp).
    set (tmp := zip_with _ _ _) in Htmp.
    rewrite (get_network_design_matrix_closed src degree offset src0 ncoef tmp
               Hs0 Hcells Hn Htmp) in Hndm.
    injection Hndm as <-. rewrite net_blocks_length.
    by rewrite (get_design_matrix_rows _ _ _ _ Htmp). }
  assert (vstack (map (fun i => rdata (phase_data i)) src) = ok vphase) as H2.
  { unfold vstack. destruct src as [|s0 src']; [done|]. done. }
  assert (length (not_nan vphase) = length vphase) as Hmask by apply length_map.
  assert (bool_index (not_nan vphase) ndm = ok (masked_matrix src ndm)) as H4.
  { unfold masked_matrix. fold vphase. apply bool_index_ok.
    by rewrite Hmask, Hvlen, Hndmlen. }
  assert (bool_index (not_nan vphase) vphase = ok (masked_phase src)) as H5.
  { unfold masked_phase. cbv zeta. fold vphase. by apply bool_index_ok. }
  assert (dot_mv (pinv (masked_matrix src ndm)) (masked_phase src)
          = ok (solved_model src ndm)) as H6 by (by apply dot_mv_ok).
  assert (seq_get objs 0 = ok ifg0) as H7 by (unfold seq_get; by rewrite H0).
  assert (squeeze vphase = Array1d vphase) as Hsq.
  { apply squeeze_not_single. rewrite Hvlen. unfold num_cells.
    by rewrite <- Hshs in Hstack. }
  unfold _network_correction.
  rewrite (bindM_step _ _ _ _ _ (mapM_flat_run _ _ _ Hsrc
             (Forall_impl _ _ _ Hwf (fun i H => proj1 H)))).
  rewrite (bindM_liftR_ok _ _ _ _ H2).
  rewrite (bindM_step _ _ _ _ _ (mapM_get_ifg_run _ _ _ Hsrc)).
  rewrite (bindM_liftR_ok _ _ _ _ Hndm), bindM_log. rewrite Hsq.
  rewrite (bindM_liftR_ok _ _ _ _ H4), (bindM_liftR_ok _ _ _ _ H5).
  rewrite (bindM_liftR_ok _ _ _ _ H6), (bindM_liftR_ok _ _ _ _ Hn).
  rewrite (bindM_step _ _ _ _ _
             (mapM_get_ifg_run ifgs objs
                {| heap := heap st;
                   built := built st ++ [EvNetworkDesignMatrix] |} Hobjs)).
  rewrite (bindM_liftR_ok _ _ _ _ H7), (bindM_liftR_ok _ _ _ _ Hbasis).
  rewrite bindM_log. simpl.
  rewrite size_dom, master_slave_ids_size. fold (get_epoch_count objs).
  by rewrite <- app_assoc.
Qed.

Lemma objects_ready (ifgs : list ref) (objs : list Ifg) (shape : nat * nat) st :
  Forall2 (fun r i => heap st r = PyIfg i) ifgs objs ->
  Forall (fun i => wf_ifg i /\ ifg_shape i = shape) objs ->
  forall r, r ∈ ifgs ->
    ready (master_slave_ids (get_all_epochs objs)) (get_epoch_count objs)
          shape (heap st r).
Proof.
  intros Hobjs Hwf r Hr.
  apply list_elem_of_lookup in Hr as [k Hk].
  destruct (Forall2_lookup_l _ _ _ _ _ Hobjs Hk) as (i & Hi & Hheap).
  apply list_elem_of_lookup_2 in Hi.
  rewrite Forall_forall in Hwf. destruct (Hwf i Hi) as [Hw Hs].
  exists i. split; [done|]. split; [done|]. split; [done|].
  pose proof (all_indexed objs) as Hidx. rewrite Forall_forall in Hidx.
  by apply Hidx.
Qed.

(** X10.  The network correction of well-formed interferograms returns.
    For a degree of the enumeration, a non-empty sequence of well-formed
    interferograms of one shape, a source sequence (the multilooked one
    when supplied, else the same) of well-formed interferograms of one
    shape that pairs up with it on epochs and has other than one cell in
    all (a stack of one single cell is squeezed to a 0-d array, on which the
    run raises), and a pseudo-inverse of the shape of a pseudo-inverse, no
    step of [_network_correction] raises. *)
Theorem network_correction_returns (ifgs : list ref) (objs src : list Ifg)
    (m_ifgs : option (list ref)) (degree : string) (offset : bool)
    (shape shape_src : nat * nat) st :
  degree ∈ [PLANAR; QUADRATIC; PART_CUBIC] ->
  ifgs ≠ [] ->
  Forall2 (fun r i => heap st r = PyIfg i) ifgs objs ->
  Forall2 (fun r i => heap st r = PyIfg i)
          (match m_ifgs with None => ifgs | Some m => m end) src ->
  Forall (fun i => wf_ifg i /\ ifg_shape i = shape) objs ->
  Forall (fun i => wf_ifg i /\ ifg_shape i = shape_src) src ->
  length src * (shape_src.1 * shape_src.2) ≠ 1 ->
  same_epochs src objs ->
  (forall ndm ncoef,
     get_network_design_matrix src degree offset = ok ndm ->
     get_num_params degree None = ok ncoef ->
     pinv_shaped src ndm (ncoef * get_epoch_count src
                          + (if offset then length src else 0))) ->
  exists st', _network_correction ifgs degree offset m_ifgs st = (ok tt, st').
Proof.
  intros Hd Hne Hobjs Hsrc Hwf Hwfs Hstack Hep Hpinv.
  assert (length src = length objs) as Hl1 by by eapply Forall2_length.
  assert (length ifgs = length objs) as Hl2 by by eapply Forall2_length.
  assert (src ≠ []) as Hsne.
  { intros ->. destruct ifgs; [done|]. simpl in *. lia. }
  destruct src as [|src0 src'] eqn:Esrc; [done|]. rewrite <- Esrc in *.
  assert (src !! 0 = Some src0) as Hs0 by by subst.
  destruct objs as [|ifg0 objs'] eqn:Eobjs; [by subst|]. rewrite <- Eobjs in *.
  assert (objs !! 0 = Some ifg0) as H0 by by subst.
  destruct (get_num_params_valid degree None Hd) as (ncoef & Hn & _).
  destruct (get_design_matrix_unfold src0 degree false Hd) as (? & _ & Htmp).
  set (tmp := zip_with _ _ _) in Htmp.
  destruct (get_design_matrix_unfold ifg0 degree false Hd) as (? & _ & Hbasis).
  set (basis := zip_with _ _ _) in Hbasis.
  destruct (same_shape_cells src shape_src src0 Hwfs Hs0) as (_ & Hcells & _).
  pose proof (get_network_design_matrix_closed src degree offset src0 ncoef tmp
                Hs0 Hcells Hn Htmp) as Hndm.
  destruct (Hpinv _ ncoef Hndm Hn) as [Hplen Hprows].
  rewrite (network_prefix ifgs objs src m_ifgs degree offset shape_src _ basis
             ncoef ifg0 st Hobjs Hsrc Hwfs Hsne Hstack Hndm Hn H0 Hbasis
             Hprows).
  destruct (same_shape_cells objs shape ifg0 Hwf H0) as (Hsh0 & _ & _).
  destruct (get_design_matrix_shape ifg0 degree false basis ncoef Hbasis Hn)
    as [Hbn Hbw].
  eapply (network_loop_run basis _ _ (get_epoch_count objs) ncoef
            (ifg_shape ifg0) offset Hbw).
  - exact Hbn.
  - unfold solved_model. rewrite length_map, Hplen.
    rewrite (same_epochs_count _ _ Hep). lia.
  - simpl. rewrite Hsh0. by apply (objects_ready ifgs objs shape st).
Qed.


End Runs.

(** ** The network correction of consistent polynomial trends *)

Section NetworkExact.
Context {num : Type} {NUM : Numeric num} {SOLV : Solvers num}.
Variables fle flt : num -> num -> Prop.
Hypothesis Hsor : SOR f0 f1 fadd fmul fsub fneg (@eq num) fle flt.
Add Ring num_sor_ring_net : (SORrt Hsor).
Implicit Types (st : @State num) (objs : list (@Ifg num)).

Lemma select_all_valid {A} (v : list num) (l : list A) :
  Forall (fun x => isnan x = false) v -> length v = length l ->
  select (not_nan v) l = l.
Proof.
  intros Hv Hlen.
  pose proof (bool_index_all_valid v l Hv Hlen) as H1.
  rewrite bool_index_ok in H1 by (by rewrite <- Hlen; apply length_map).
  by injection H1.
Qed.

Lemma concat_uniform_block {A} (ls : list (list A)) (n k : nat) (x : list A) :
  Forall (fun l => length l = n) ls -> ls !! k = Some x ->
  take n (drop (k * n) (concat ls)) = x.
Proof.
  intros Hall. revert k. induction Hall as [|l ls Hl _ IH]; intros k Hk; [done|].
  destruct k as [|k]; simpl in Hk |- *.
  - injection Hk as ->. rewrite drop_0. by apply take_app_length'.
  - rewrite drop_app_ge by lia.
    replace (n + k * n - length l) with (k * n) by lia. by apply IH.
Qed.

Lemma occurrences_absent (l : list ref) (r : ref) :
  r ∉ l -> occurrences r l = 0.
Proof.
  unfold occurrences. induction l as [|a l IH]; intros Hr; [done|].
  apply not_elem_of_cons in Hr as [Hne Hr].
  rewrite filter_cons, decide_False by done. by apply IH.
Qed.

Lemma occurrences_NoDup (l : list ref) (r : ref) :
  NoDup l -> r ∈ l -> occurrences r l = 1.
Proof.
  induction 1 as [|a l Ha _ IH]; intros Hr.
  - by apply elem_of_nil in Hr.
  - unfold occurrences. rewrite filter_cons.
    destruct (decide (a = r)) as [->|Hne].
    + simpl. f_equal. by apply occurrences_absent.
    + apply IH. apply elem_of_cons in Hr as [->|Hr]; done.
Qed.

(** The interferograms of a consistent network: well-formed, of one
    shape, with distinct master and slave epochs and no no-data pixel. *)
Definition clean (shape : nat * nat) (i : Ifg) : Prop :=
  wf_ifg i /\ ifg_shape i = shape /\ master i ≠ slave i /\
  Forall (fun v => isnan v = false) (rdata (phase_data i)).

(** X11.  In an ordered ring, take a non-empty sequence of distinct
    interferogram objects, well-formed, of one shape, of more than one
    cell in all (a stack of one single cell is squeezed to a 0-d array),
    with distinct master and slave epochs and no no-data pixel, whose
    stacked phase is exactly
    the network design matrix applied to some coefficient vector (the
    phases are consistent per-epoch polynomial trends), and a
    pseudo-inverse solution that minimises the residual sum of squares.
    Then the network correction without offset returns and leaves every
    phase zero at every pixel. *)
Theorem network_correction_exact (ifgs : list ref) objs (degree : string)
    (shape : nat * nat) (ndm : list (list num)) (ncoef : nat) (c : list num) st :
  NoDup ifgs ->
  ifgs ≠ [] ->
  length ifgs * (shape.1 * shape.2) ≠ 1 ->
  Forall2 (fun r i => heap st r = PyIfg i) ifgs objs ->
  Forall (clean shape) objs ->
  get_network_design_matrix objs degree false = ok ndm ->
  get_num_params degree None = ok ncoef ->
  length c = ncoef * get_epoch_count objs ->
  concat (map (fun i => rdata (phase_data i)) objs)
  = map (fun row => vdot row c) ndm ->
  pinv_shaped objs ndm (ncoef * get_epoch_count objs) ->
  least_squares fle ndm (concat (map (fun i => rdata (phase_data i)) objs))
                (solved_model objs ndm) ->
  exists st',
    _network_correction ifgs degree false None st = (ok tt, st') /\
    forall r i, r ∈ ifgs -> heap st r = PyIfg i ->
      heap st' r
      = PyIfg (set_phase_data i
                 {| rshape := rshape (phase_data i);
                    rdata := replicate (num_cells i) f0 |}).
Proof.
  intros Hnd Hne Hstack Hobjs Hclean Hndm Hn Hc Hcons [Hplen Hprows] Hls.
  set (vphase := concat (map (fun i => rdata (phase_data i)) objs)) in *.
  set (nep := get_epoch_count objs) in *.
  assert (degree ∈ [PLANAR; QUADRATIC; PART_CUBIC]) as Hd.
  { apply degree_in_list_spec. unfold get_network_design_matrix in Hndm.
    by destruct (degree_in_list degree). }
  assert (Forall (fun i => wf_ifg i /\ ifg_shape i = shape) objs) as Hwf.
  { eapply Forall_impl; [exact Hclean|]. by intros i (? & ? & _). }
  assert (length ifgs = length objs) as Hl2 by by eapply Forall2_length.
  rewrite Hl2 in Hstack.
  assert (exists ifg0, objs !! 0 = Some ifg0) as [ifg0 H0].
  { apply lookup_lt_is_Some_2. destruct ifgs; [done|]. simpl in Hl2. lia. }
  assert (objs ≠ []) as Hone by (by intros ->).
  destruct (get_design_matrix_unfold ifg0 degree false Hd) as (? & _ & Hbasis).
  set (basis := zip_with _ _ _) in Hbasis.
  destruct (same_shape_cells objs shape ifg0 Hwf H0) as (Hsh0 & Hcells & Hlens).
  destruct (get_design_matrix_shape ifg0 degree false basis ncoef Hbasis Hn)
    as [Hbn Hbw].
  (* the matrix, in closed form *)
  pose proof (get_network_design_matrix_closed objs degree false ifg0 ncoef basis
                H0 Hcells Hn Hbasis) as Hclosed.
  rewrite Hndm in Hclosed. injection Hclosed as Hclosed.
  fold nep in Hclosed. rewrite Nat.add_0_r in Hclosed.
  (* no cell is masked *)
  assert (Forall (fun x => isnan x = false) vphase) as Hvalid.
  { subst vphase. apply Forall_concat, Forall_fmap.
    eapply Forall_impl; [exact Hclean|]. by intros i (_ & _ & _ & ?). }
  assert (length vphase = length ndm) as Hvlen.
  { rewrite Hcons. by rewrite length_map. }
  assert (masked_matrix objs ndm = ndm) as Hmm
    by (unfold masked_matrix; fold vphase; by apply select_all_valid).
  assert (masked_phase objs = vphase) as Hmp
    by (unfold masked_phase; cbv zeta; fold vphase; by apply select_all_valid).
  set (model := solved_model objs ndm) in *.
  assert (length model = ncoef * nep) as Hmlen
    by (subst model; unfold solved_model; by rewrite length_map).
  (* the least-squares solution is exact *)
  assert (map (fun row => vdot row model) ndm = vphase) as Hfwd.
  { rewrite Hcons. apply (least_squares_exact fle flt Hsor); [lia|].
    by rewrite <- Hcons. }
  (* the run *)
  set (ids := master_slave_ids (get_all_epochs objs)).
  set (coefs := coef_blocks model nep ncoef).
  pose proof (network_prefix ifgs objs objs None degree false shape ndm basis
                ncoef ifg0 st Hobjs Hobjs Hwf Hone Hstack Hndm Hn H0 Hbasis
                Hprows)
    as Hprefix.
  fold model nep ids coefs in Hprefix.
  destruct (network_loop_run basis model ids nep ncoef (ifg_shape ifg0) false
              Hbw Hbn ltac:(lia) ifgs
              {| heap := heap st;
                 built := built st ++ [EvNetworkDesignMatrix; EvDesignMatrix] |})
    as [st' Hrun].
  { simpl. rewrite Hsh0. by apply (objects_ready ifgs objs shape st). }
  fold coefs in Hrun.
  exists st'. split; [by rewrite Hprefix|].
  apply network_loop_ok in Hrun as (_ & Hheap & _). simpl in Hheap.
  intros r i Hr Hi. rewrite Hheap, (occurrences_NoDup _ _ Hnd Hr). simpl.
  rewrite Hi. unfold correct_obj.
  (* the position of the object *)
  apply list_elem_of_lookup in Hr as [k Hk].
  destruct (Forall2_lookup_l _ _ _ _ _ Hobjs Hk) as (i' & Hik & Hi').
  rewrite Hi in Hi'. injection Hi' as <-.
  rewrite Forall_forall in Hclean.
  destruct (Hclean i (list_elem_of_lookup_2 _ _ _ Hik))
    as ([Hshape Hlen] & Hsh & Hms & _).
  pose proof (all_indexed objs) as Hidx. fold ids nep in Hidx.
  rewrite Forall_forall in Hidx.
  destruct (Hidx i (list_elem_of_lookup_2 _ _ _ Hik))
    as [(m & Hm & Hmlt) (s & Hs & Hslt)].
  assert (m ≠ s) as Hne'.
  { intros ->. apply Hms.
    by eapply (master_slave_ids_dense (get_all_epochs objs)). }
  set (cs := take ncoef (drop (s * ncoef) model)).
  set (cm := take ncoef (drop (m * ncoef) model)).
  assert (length cs = ncoef) as Hcs
    by (subst cs; rewrite length_take, length_drop; nia).
  assert (length cm = ncoef) as Hcm
    by (subst cm; rewrite length_take, length_drop; nia).
  assert (orb_of basis coefs ids i
          = Some (map (fun row => vdot row (zip_with fsub cs cm)) basis)) as Horb.
  { unfold orb_of, coefs. rewrite Hs. simpl.
    rewrite coef_blocks_lookup by done. simpl. rewrite Hm. simpl.
    rewrite coef_blocks_lookup by done. simpl. fold cs cm.
    unfold vec_sub. by rewrite Hcs, Hcm, Nat.eqb_refl. }
  rewrite Horb. unfold subtracted.
  (* the trend is the phase *)
  assert (map (fun row => vdot row (zip_with fsub cs cm)) basis
          = rdata (phase_data i)) as ->.
  { assert (take (length basis) (drop (k * length basis) vphase)
            = rdata (phase_data i)) as <-.
    { subst vphase. apply concat_uniform_block.
      - apply Forall_fmap. rewrite Hbn. exact Hlens.
      - by rewrite list_lookup_fmap, Hik. }
    rewrite <- Hfwd, <- fmap_drop, <- fmap_take.
    rewrite Hclosed at 1.
    rewrite (net_blocks_block _ _ _ _ _ _ _ 0 k i Hik).
    unfold idx. fold ids. rewrite Hm, Hs. simpl.
    rewrite map_map. apply map_ext_in. intros b Hb%list_elem_of_In.
    rewrite Forall_forall in Hbw.
    rewrite (net_row_forward (SORrt Hsor) _ ncoef nep); try done; try lia.
    - rewrite (vdot_sub (SORrt Hsor)) by lia. fold cs cm. ring.
    - by apply Hbw. }
  do 2 f_equal. f_equal.
  rewrite (zip_with_sub_diag fle flt Hsor). unfold num_cells. by rewrite Hlen.
Qed.

End NetworkExact.

(** * The further properties at concrete inputs *)

Lemma get_network_design_matrix_failures_witness :
  get_network_design_matrix [ex_ifg; ifg_same_epoch] PLANAR true
  = raise ValueError /\
  exists ifg0 ifg : @Ifg Z,
    [ex_ifg; ifg_same_epoch] !! 0 = Some ifg0 /\
    ifg ∈ [ex_ifg; ifg_same_epoch] /\ num_cells ifg ≠ num_cells ifg0.
Proof.
  assert (get_network_design_matrix [ex_ifg; ifg_same_epoch] PLANAR true
          = inl ValueError) as H by (vm_compute; reflexivity).
  split; [exact H|].
  destruct (get_network_design_matrix_failures _ _ _ _ H)
    as [[_ He]|[(_ & Hnil & _)|(_ & _ & Hex)]].
  - discriminate He.
  - discriminate Hnil.
  - exact Hex.
Defined.

Lemma orbital_correction_invalid_degree_witness :
  @orbital_correction Z _ ex_solvers [0; 1] "CUBIC" "KRIGING" (Some (PyList [0])) true
                      ex_state
  = (raise (OrbitalError "Invalid degree of CUBIC for orbital correction"),
     ex_state).
Proof.
  apply (orbital_correction_invalid_degree (SOLV := ex_solvers)
           [0; 1] "CUBIC" "KRIGING" (Some (PyList [0])) true ex_state).
  rewrite !elem_of_cons, elem_of_nil. intros [H|[H|[H|[]]]]; discriminate H.
Defined.

Lemma network_method_empty_witness :
  @orbital_correction Z _ ex_solvers [] QUADRATIC NETWORK_METHOD
                      (Some (PyList [])) true ex_state
  = (raise ValueError, ex_state).
Proof.
  apply (network_method_empty (SOLV := ex_solvers) QUADRATIC
           (Some (PyList [])) true ex_state).
  - repeat constructor.
  - right. by eexists.
Defined.

Lemma orbital_correction_frame_witness :
  only_phase_of [0]
    (heap ex_state)
    (heap (@orbital_correction Z _ ex_solvers [0] PLANAR INDEPENDENT_METHOD
             None false ex_state).2).
Proof.
  eapply (orbital_correction_frame (SOLV := ex_solvers)
            [0] PLANAR INDEPENDENT_METHOD None false ex_state).
  apply surjective_pairing.
Defined.

Lemma network_rows_forward_model_witness :
  exists orb : list Z,
    orb_of [[0; 0]; [3; 0]; [6; 0]; [0; 2]; [3; 2]; [6; 2]]%Z
           (coef_blocks [5; 1; 7; 2; 4; 9; 100; 200]%Z 3 2)
           (master_slave_ids (get_all_epochs [ex_ifg; ex_ifg2])) ex_ifg2
    = Some orb /\
    dot_mv (take 6 (drop 6
              (match get_network_design_matrix [ex_ifg; ex_ifg2] PLANAR true with
               | inr ndm => ndm
               | inl _ => []
               end)))
           [5; 1; 7; 2; 4; 9; 100; 200]%Z
    = ok (map (fun o => o + 200)%Z orb).
Proof.
  apply (network_rows_forward_model (NUM := Z_numeric) (SORrt Zsor)
           [ex_ifg; ex_ifg2] PLANAR true (2, 3) _ _ 2 ex_ifg
           [5; 1; 7; 2; 4; 9; 100; 200]%Z 1 ex_ifg2).
  - repeat constructor.
  - repeat constructor.
  - reflexivity.
  - vm_compute. reflexivity.
  - reflexivity.
  - vm_compute. reflexivity.
  - reflexivity.
  - reflexivity.
  - vm_compute. discriminate.
Defined.

Lemma independent_correction_result_witness :
  exists st' i,
    @_independent_correction _ _ nan_solvers 0 PLANAR false nan_state
    = (ok tt, st') /\
    heap st' 0 = PyIfg i /\
    rdata (phase_data i) = [Some 5%Z; None].
Proof.
  eexists. eexists. split.
  - apply (independent_correction_result (NUM := NaNZ_numeric)
             (SOLV := nan_solvers) 0 nan_ifg PLANAR false
             [[Some 0; Some 0]; [Some 1; Some 0]]%Z nan_state).
    + reflexivity.
    + split; reflexivity.
    + vm_compute. reflexivity.
    + repeat constructor.
  - split; reflexivity.
Defined.

Lemma network_correction_returns_witness :
  exists st',
    @_network_correction Z _ ex_solvers [0; 1] PLANAR true None ex_state
    = (ok tt, st').
Proof.
  apply (network_correction_returns (SOLV := ex_solvers)
           [0; 1] [ex_ifg; ex_ifg2] [ex_ifg; ex_ifg2] None PLANAR true
           (2, 3) (2, 3) ex_state).
  - repeat constructor.
  - discriminate.
  - repeat constructor.
  - repeat constructor.
  - repeat constructor.
  - repeat constructor.
  - discriminate.
  - repeat constructor.
  - intros ndm ncoef Hndm Hn.
    vm_compute in Hndm. injection Hndm as <-.
    vm_compute in Hn. injection Hn as <-.
    split; [reflexivity|]. vm_compute. repeat constructor.
Defined.

(** A stand-in for the pseudo-inverse on the network of [ex_ifg] and
    [ex_ifg2]: its product with their stacked phase is a vector of per-epoch
    coefficients ([0, 0], [1, 1], [2, 2]) that reproduces both phases. *)
Definition ex_solvers_exact : Solvers Z :=
  {| lstsq := fun _ _ => [1; 1]%Z;
     pinv := fun _ =>
       [[0; 0; 0; 0; 0; 0; 0; 0; 0; 0; 0; 0];
        [0; 0; 0; 0; 0; 0; 0; 0; 0; 0; 0; 0];
        [0; 1; 0; -1; 0; 0; 0; 0; 0; 0; 0; 0];
        [0; 1; 0; -1; 0; 0; 0; 0; 0; 0; 0; 0];
        [0; 0; 0; 1; 0; 0; 0; 0; 0; 0; 0; 0];
        [0; 0; 0; 1; 0; 0; 0; 0; 0; 0; 0; 0]]%Z;
     median := fun l => default 0%Z (l !! (length l / 2)) |}.

Lemma network_correction_exact_witness :
  exists st',
    @_network_correction Z _ ex_solvers_exact [0; 1] PLANAR false None ex_state
    = (ok tt, st') /\
    heap st' 0
    = PyIfg (set_phase_data ex_ifg
               {| rshape := (2, 3); rdata := [0; 0; 0; 0; 0; 0]%Z |}).
Proof.
  destruct (get_network_design_matrix [ex_ifg; ex_ifg2] PLANAR false)
    as [e|ndm] eqn:Hndm; [vm_compute in Hndm; discriminate Hndm|].
  destruct (network_correction_exact (NUM := Z_numeric)
              (SOLV := ex_solvers_exact) Z.le Z.lt Zsor
              [0; 1] [ex_ifg; ex_ifg2] PLANAR (2, 3) ndm 2
              [0; 0; 1; 1; 2; 2]%Z ex_state) as (st' & Hrun & Hheap).
  - repeat constructor; rewrite ?elem_of_cons, ?elem_of_nil; intuition lia.
  - discriminate.
  - discriminate.
  - repeat constructor.
  - repeat constructor; vm_compute; discriminate.
  - exact Hndm.
  - reflexivity.
  - reflexivity.
  - vm_compute in Hndm. injection Hndm as <-. vm_compute. reflexivity.
  - vm_compute in Hndm. injection Hndm as <-.
    split; [reflexivity|]. vm_compute. repeat constructor.
  - vm_compute in Hndm. injection Hndm as <-.
    intros m' _. apply (Z.le_trans _ 0).
    + vm_compute. discriminate.
    + apply (rss_nonneg (NUM := Z_numeric) Z.le Z.lt Zsor).
  - exists st'. split; [exact Hrun|].
    apply (Hheap 0 ex_ifg); [left|reflexivity].
Defined.


Lemma orbital_correction_mlooked_mismatch_witness :
  exists e,
    @orbital_correction Z _ ex_solvers [0; 1] PLANAR NETWORK_METHOD
                        (Some (PyList [0])) true ex_state
    = (raise e, ex_state) /\
    exists msg, e = OrbitalError msg.
Proof.
  destruct (orbital_correction_mlooked_mismatch (SOLV := ex_solvers)
              [0; 1] PLANAR (PyList [0]) true ex_state)
    as (e & Hrun & _ & Hok).
  - left. simpl. lia.
  - exists e. split; [exact Hrun|]. apply Hok. by intros [_ []].
Defined.

(** * The workflow driver (pyrate/scripts/run_pyrate.py)

    The functions of the driver around the orbital correction and the
    reference pixel.  They work on interferogram objects that, besides the
    attributes the correction reads, carry a data path and an open dataset
    with metadata items; they log, and they call into modules that are not
    among the sources.  The state of the correction is extended with the
    value of the orbital metadata item ([META_ORBITAL], the one item these
    functions read and write) and the data path of every object, and with
    the log.  The calls into the absent modules ([prepifg.prepare_ifgs],
    [refpixel.ref_pixel]) and [os.remove] are parameters, which may do
    anything to the state.  The run configuration [params], a dictionary
    keyed by the constants of the absent [config] module, is a record of
    the entries the functions read, the numeric ones as integers (a missing
    key is not modelled; [REF_MIN_FRAC] is only passed on). *)

Definition META_ORBITAL : string := "ORBITAL_ERROR".
Definition META_REMOVED : string := "REMOVED".

(** Errors of the driver: those of the correction, and a [ValueError] with
    its message. *)
Inductive DrvErr : Type :=
  | Py (e : PyErr)
  | ValueErrorMsg (msg : string).

Record Params : Type := mkParams {
  ORBITAL_FIT : Z;
  ORBITAL_FIT_LOOKS_X : Z;
  ORBITAL_FIT_LOOKS_Y : Z;
  ORBITAL_FIT_DEGREE : string;
  ORBITAL_FIT_METHOD : string;
  REFX : Z;
  REFY : Z;
  REFNX : Z;
  REFNY : Z;
  REF_CHIP_SIZE : Z;
  REF_MIN_FRAC : Z
}.

(** [template % arg] for a template with one [%s]. *)
Fixpoint percent_s (template arg : string) : string :=
  match template with
  | EmptyString => EmptyString
  | String c rest =>
      match rest with
      | String c' rest' =>
          if (Ascii.eqb c "%" && Ascii.eqb c' "s")%char
          then arg +:+ rest'
          else String c (percent_s rest arg)
      | EmptyString => template
      end
  end.

(** The truth value of a metadata item: [None] and the empty string are
    false. *)
Definition truthy (flag : option string) : bool :=
  match flag with
  | None => false
  | Some s => negb (String.eqb s "")
  end.

(** [f == META_REMOVED] *)
Definition is_removed (flag : option string) : bool :=
  match flag with
  | None => false
  | Some s => String.eqb s META_REMOVED
  end.

Section Driver.
Context {num : Type} {NUM : Numeric num} {SOLV : Solvers num}.

Record DState : Type := mkDState {
  core : @State num;
  meta : ref -> option string;
  data_path : ref -> string;
  logged : list string
}.

Definition D (A : Type) : Type := DState -> (DrvErr + A) * DState.

Definition retD {A} (a : A) : D A := fun s => (inr a, s).
Definition raiseD {A} (e : DrvErr) : D A := fun s => (inl e, s).

Definition bindD {A B} (c : D A) (k : A -> D B) : D B :=
  fun s =>
    match c s with
    | (inl e, s') => (inl e, s')
    | (inr a, s') => k a s'
    end.

Notation "'do!!' x ':=' c 'in' k" := (bindD c (fun x => k))
  (at level 10, x pattern, c at level 100, k at level 200).

(** [logging.debug(msg)] *)
Definition debug (msg : string) : D unit :=
  fun s => (inr tt, {| core := core s; meta := meta s;
                       data_path := data_path s;
                       logged := logged s ++ [msg] |}).

(** A call into the correction module. *)
Definition call {A} (c : M A) : D A :=
  fun s =>
    match c (core s) with
    | (inl e, st') => (inl (Py e), {| core := st'; meta := meta s;
                                      data_path := data_path s;
                                      logged := logged s |})
    | (inr a, st') => (inr a, {| core := st'; meta := meta s;
                                 data_path := data_path s;
                                 logged := logged s |})
    end.

(** [i.dataset.GetMetadataItem(META_ORBITAL)]: only interferogram objects
    have a dataset. *)
Definition get_metadata_item (r : ref) : D (option string) :=
  fun s =>
    match heap (core s) r with
    | PyIfg _ => (inr (meta s r), s)
    | PyOther => (inl (Py AttributeError), s)
    end.

(** [i.dataset.SetMetadataItem(META_ORBITAL, v)] *)
Definition set_metadata_item (r : ref) (v : string) : D unit :=
  fun s =>
    match heap (core s) r with
    | PyIfg _ =>
        (inr tt, {| core := core s;
                    meta := fun r' => if r' =? r then Some v else meta s r';
                    data_path := data_path s;
                    logged := logged s |})
    | PyOther => (inl (Py AttributeError), s)
    end.

(** [i.data_path] *)
Definition get_data_path (r : ref) : D string :=
  fun s =>
    match heap (core s) r with
    | PyIfg _ => (inr (data_path s r), s)
    | PyOther => (inl (Py AttributeError), s)
    end.

Fixpoint mapD {A B} (f : A -> D B) (l : list A) : D (list B) :=
  match l with
  | [] => retD []
  | a :: l' => do!! b := f a in do!! bs := mapD f l' in retD (b :: bs)
  end.

Fixpoint forD {A} (f : A -> D unit) (l : list A) : D unit :=
  match l with
  | [] => retD tt
  | a :: l' => do!! _ := f a in forD f l'
  end.

(** ** check_orbital_ifgs *)

(** The loop over [zip(ifgs, flags)]; it returns the last value of [msg]. *)
Fixpoint check_loop (msg : string) (l : list (ref * option string)) : D string :=
  match l with
  | [] => retD msg
  | (i, flag) :: l' =>
      let msg := if truthy flag
                 then "%s: prior orbital error correction detected"
                 else "%s: no orbital correction detected" in
      do!! path := get_data_path i in
      do!! _ := debug (percent_s msg path) in
      check_loop msg l'
  end.

Definition check_orbital_ifgs (ifgs : list ref) (flags : list (option string))
    : D unit :=
  let count := length (filter (fun f => is_removed f = true) flags) in
  if (count <? length flags) && (0 <? count) then
    let msg := "Detected mix of corrected and uncorrected orbital error in ifgs" in
    do!! _ := debug msg in
    do!! msg := check_loop msg (zip ifgs flags) in
    raiseD (Py (OrbitalError msg))
  else retD tt.

(** ** remove_orbital_error *)

(** [prepifg.prepare_ifgs(ifgs, crop_opt=ALREADY_SAME_SIZE, xlooks, ylooks)]
    and [os.remove(path)]: not among the sources. *)
Variable prepare_ifgs : list ref -> Z -> Z -> D pyseq.
Variable os_remove : string -> D unit.

Definition remove_orbital_error (ifgs : list ref) (params : Params) : D unit :=
  if (ORBITAL_FIT params =? 0)%Z then
    debug "Orbital correction not required."
  else
    do!! _ := debug "Calculating orbital correction" in
    do!! flags := mapD get_metadata_item ifgs in
    if forallb truthy flags then
      debug "Skipped orbital correction, ifgs already corrected"
    else
      do!! _ := check_orbital_ifgs ifgs flags in
      do!! mlooked :=
        if (1 <? ORBITAL_FIT_LOOKS_X params)%Z
           || (1 <? ORBITAL_FIT_LOOKS_Y params)%Z
        then do!! m := prepare_ifgs ifgs (ORBITAL_FIT_LOOKS_X params)
                                    (ORBITAL_FIT_LOOKS_Y params) in
             retD (Some m)
        else retD None in
      do!! _ := call (orbital_correction ifgs (ORBITAL_FIT_DEGREE params)
                        (ORBITAL_FIT_METHOD params) mlooked true) in
      do!! _ :=
        match mlooked with
        | Some ml =>
            if bool_decide (items ml = []) then retD tt
            else
            do!! paths := mapD get_data_path (items ml) in
            forD (fun path =>
                    do!! _ := debug (percent_s
                                "%s: deleted (multilooked orbital correction file)"
                                path) in
                    os_remove path) paths
        | None => retD tt
        end in
      forD (fun i =>
              do!! _ := set_metadata_item i META_REMOVED in
              do!! path := get_data_path i in
              debug (percent_s "%s: orbital error removed" path)) ifgs.

(** ** find_reference_pixel *)

(** [refpixel.ref_pixel(ifgs, refnx, refny, chipsize, minfrac)]: not among
    the sources. *)
Variable ref_pixel : list ref -> Z -> Z -> Z -> Z -> D (Z * Z).

Definition find_reference_pixel (ifgs : list ref) (params : Params)
    : D (Z * Z) :=
  let refx := REFX params in
  do!! r0 := (match ifgs !! 0 with
              | Some r => retD r
              | None => raiseD (Py IndexError)
              end) in
  do!! ifg0 := call (get_ifg r0) in
  if (Z.of_nat (ncols ifg0) - 1 <? refx)%Z then
    raiseD (ValueErrorMsg
              (percent_s "Invalid reference pixel X coordinate: %s" (pretty refx)))
  else
    let refy := REFY params in
    do!! r0 := (match ifgs !! 0 with
                | Some r => retD r
                | None => raiseD (Py IndexError)
                end) in
    do!! ifg0 := call (get_ifg r0) in
    if (Z.of_nat (nrows ifg0) - 1 <? refy)%Z then
      raiseD (ValueErrorMsg
                (percent_s "Invalid reference pixel Y coordinate: %s" (pretty refy)))
    else if (0 <=? refx)%Z && (0 <=? refy)%Z then
      do!! _ := debug ("Reusing config file reference pixel ("
                       +:+ pretty refx +:+ ", " +:+ pretty refy +:+ ")") in
      retD (refy, refx)
    else
      do!! _ := debug "Calculating reference pixel" in
      do!! yx := ref_pixel ifgs (REFNX params) (REFNY params)
                           (REF_CHIP_SIZE params) (REF_MIN_FRAC params) in
      let '(refy, refx) := yx in
      do!! _ := debug ("Reference pixel coordinate: ("
                       +:+ pretty refx +:+ ", " +:+ pretty refy +:+ ")") in
      retD (refx, refy).

End Driver.

(** * Properties of the workflow driver *)

Lemma percent_s_head (rest arg : string) :
  percent_s (String "%" (String "s" rest)) arg = arg +:+ rest.
Proof. reflexivity. Qed.

Lemma is_removed_truthy (flag : option string) :
  is_removed flag = true -> truthy flag = true.
Proof.
  destruct flag as [f|]; simpl; [|done].
  intros H%String.eqb_eq. by subst.
Qed.

Lemma is_removed_spec (flag : option string) :
  is_removed flag = true <-> flag = Some META_REMOVED.
Proof.
  destruct flag as [f|]; simpl; [|done].
  rewrite String.eqb_eq. split; [by intros ->|by intros [= ->]].
Qed.

Lemma filter_length_lt {A} (P : A -> Prop) `{!forall x, Decision (P x)}
    (l : list A) (x : A) :
  x ∈ l -> ~ P x -> length (filter P l) < length l.
Proof.
  induction l as [|a l IH]; [by intros ?%elem_of_nil|].
  intros [->|Hin]%elem_of_cons Hx.
  - rewrite filter_cons_False by done. simpl.
    pose proof (length_filter P l). lia.
  - specialize (IH Hin Hx). destruct (decide (P a)).
    + rewrite filter_cons_True by done. simpl. lia.
    + rewrite filter_cons_False by done. simpl. lia.
Qed.

Lemma filter_length_pos {A} (P : A -> Prop) `{!forall x, Decision (P x)}
    (l : list A) (x : A) :
  x ∈ l -> P x -> 0 < length (filter P l).
Proof.
  intros Hin Hx.
  assert (Hf : x ∈ filter P l) by by apply list_elem_of_filter.
  destruct (filter P l); [by apply elem_of_nil in Hf|simpl; lia].
Qed.

Section DriverFacts.
Context {num : Type} {NUM : Numeric num} {SOLV : Solvers num}.
Implicit Types (s : @DState num) (ifgs : list ref).
Implicit Types (flags : list (option string)).

(** The object is an interferogram (it has a dataset and a data path). *)
Definition is_ifg s (r : ref) : Prop :=
  exists ifg, heap (core s) r = PyIfg ifg.

(** The state after logging [msgs]. *)
Definition with_log s (msgs : list string) : DState :=
  {| core := core s; meta := meta s; data_path := data_path s;
     logged := logged s ++ msgs |}.

Lemma with_log_nil s : with_log s [] = s.
Proof. destruct s. unfold with_log. simpl. by rewrite app_nil_r. Qed.

Lemma with_log_app s (a b : list string) :
  with_log (with_log s a) b = with_log s (a ++ b).
Proof. unfold with_log. simpl. by rewrite app_assoc. Qed.

Lemma is_ifg_with_log s msgs r : is_ifg (with_log s msgs) r <-> is_ifg s r.
Proof. done. Qed.

Lemma bindD_ok {A B} (c : D A) (k : A -> D B) s a s1 :
  c s = (inr a, s1) -> bindD c k s = k a s1.
Proof. unfold bindD. by intros ->. Qed.

Lemma bindD_err {A B} (c : D A) (k : A -> D B) s e s1 :
  c s = (inl e, s1) -> bindD c k s = (inl e, s1).
Proof. unfold bindD. by intros ->. Qed.

Lemma bindD_inv_ok {A B} (c : D A) (k : A -> D B) s b s' :
  bindD c k s = (inr b, s') ->
  exists a s1, c s = (inr a, s1) /\ k a s1 = (inr b, s').
Proof.
  unfold bindD. destruct (c s) as [[e|a] s1]; [done|]. by exists a, s1.
Qed.

Lemma debug_run msg s : debug msg s = (inr tt, with_log s [msg]).
Proof. done. Qed.

Lemma get_data_path_run s r :
  is_ifg s r -> get_data_path r s = (inr (data_path s r), s).
Proof. intros [ifg H]. unfold get_data_path. by rewrite H. Qed.

Lemma get_metadata_item_run s r :
  is_ifg s r -> get_metadata_item r s = (inr (meta s r), s).
Proof. intros [ifg H]. unfold get_metadata_item. by rewrite H. Qed.

Lemma get_metadata_item_inv s r flag s' :
  get_metadata_item r s = (inr flag, s') ->
  s' = s /\ flag = meta s r /\ is_ifg s r.
Proof.
  unfold get_metadata_item, is_ifg.
  destruct (heap (core s) r) as [ifg|] eqn:H; [|done].
  intros [= <- <-]. eauto.
Qed.

Lemma mapD_get_metadata_item_run s ifgs :
  Forall (is_ifg s) ifgs ->
  mapD get_metadata_item ifgs s = (inr (map (meta s) ifgs), s).
Proof.
  induction 1 as [|r ifgs Hr _ IH]; [done|]. simpl.
  rewrite (bindD_ok _ _ _ _ _ (get_metadata_item_run _ _ Hr)).
  by rewrite (bindD_ok _ _ _ _ _ IH).
Qed.

Lemma mapD_get_metadata_item_inv s ifgs flags s' :
  mapD get_metadata_item ifgs s = (inr flags, s') ->
  s' = s /\ flags = map (meta s) ifgs /\ Forall (is_ifg s) ifgs.
Proof.
  revert flags s'. induction ifgs as [|r ifgs IH]; intros flags s'; simpl.
  - by intros [= <- <-].
  - intros (flag & s1 & H1 & H)%bindD_inv_ok.
    apply get_metadata_item_inv in H1 as (-> & -> & Hr).
    apply bindD_inv_ok in H as (fs & s2 & H2 & H).
    apply IH in H2 as (-> & -> & Hrest).
    injection H as <- <-. split; [done|]. split; [done|]. by constructor.
Qed.

(** *** check_orbital_ifgs *)

(** The message of one interferogram, as a template and as logged. *)
Definition flag_template (flag : option string) : string :=
  if truthy flag then "%s: prior orbital error correction detected"
  else "%s: no orbital correction detected".

Definition flag_line (flag : option string) (path : string) : string :=
  path +:+ (if truthy flag then ": prior orbital error correction detected"
            else ": no orbital correction detected").

Definition mix_msg : string :=
  "Detected mix of corrected and uncorrected orbital error in ifgs".

Definition last_template (msg : string) (l : list (ref * option string))
    : string :=
  match last l with
  | Some (_, flag) => flag_template flag
  | None => msg
  end.

Lemma check_loop_run s msg (l : list (ref * option string)) :
  Forall (fun p => is_ifg s p.1) l ->
  check_loop msg l s =
    (inr (last_template msg l),
     with_log s (map (fun p => flag_line p.2 (data_path s p.1)) l)).
Proof.
  intros Hl. revert s msg Hl.
  induction l as [|[i flag] l IH]; intros s msg Hl.
  - simpl. by rewrite with_log_nil.
  - apply Forall_cons in Hl as [Hi Hl]. simpl in Hi.
    cbn [check_loop].
    rewrite (bindD_ok _ _ _ _ _ (get_data_path_run _ _ Hi)).
    rewrite (bindD_ok _ _ _ _ _ (debug_run _ _)).
    rewrite IH by done. rewrite with_log_app. f_equal.
    + f_equal. unfold last_template.
      destruct l as [|p l]; [reflexivity|].
      change (last ((i, flag) :: p :: l)) with (last (p :: l)).
      destruct (last (p :: l)) as [[? ?]|] eqn:E; [done|].
      by apply last_None in E.
    + f_equal. cbn [map fst snd app]. f_equal.
      unfold flag_line. by destruct (truthy flag).
Qed.

Lemma check_orbital_ifgs_pass ifgs flags s :
  let count := length (filter (fun f => is_removed f = true) flags) in
  count = 0 \/ count = length flags ->
  check_orbital_ifgs ifgs flags s = (inr tt, s).
Proof.
  intros count Hc. unfold check_orbital_ifgs. fold count.
  destruct (count <? length flags) eqn:H1, (0 <? count) eqn:H2; try done.
  apply Nat.ltb_lt in H1, H2. lia.
Qed.

Lemma check_orbital_ifgs_mixed ifgs flags s :
  Forall (is_ifg s) ifgs ->
  let count := length (filter (fun f => is_removed f = true) flags) in
  0 < count < length flags ->
  check_orbital_ifgs ifgs flags s =
    (inl (Py (OrbitalError (last_template mix_msg (zip ifgs flags)))),
     with_log s (mix_msg ::
                 map (fun p => flag_line p.2 (data_path s p.1))
                     (zip ifgs flags))).
Proof.
  intros Hifgs count [Hc1 Hc2]. unfold check_orbital_ifgs. fold count.
  apply Nat.ltb_lt in Hc1, Hc2. rewrite Hc1, Hc2. simpl.
  rewrite (bindD_ok _ _ _ _ _ (debug_run _ _)).
  erewrite bindD_ok; [|apply check_loop_run].
  - unfold raiseD. by rewrite with_log_app.
  - apply Forall_forall. intros [i f] Hin. simpl.
    apply elem_of_zip_l in Hin. rewrite Forall_forall in Hifgs.
    by apply Hifgs.
Qed.


(** X14.  [check_orbital_ifgs] lets a list of flags pass, without logging,
    exactly when none or all of them are [META_REMOVED]; for a mix it logs
    one line per interferogram and raises [OrbitalError].  The error does
    not carry the "Detected mix" text: its message is the template of the
    last logged line, with the [%s] still in it, and it says "prior
    correction" or "no correction" after the last flag alone.  Nothing but
    the log is changed. *)
Theorem check_orbital_ifgs_outcome ifgs flags s :
  Forall (is_ifg s) ifgs ->
  let count := length (filter (fun f => is_removed f = true) flags) in
  (count = 0 \/ count = length flags ->
     check_orbital_ifgs ifgs flags s = (inr tt, s)) /\
  (0 < count < length flags ->
     check_orbital_ifgs ifgs flags s =
       (inl (Py (OrbitalError (last_template mix_msg (zip ifgs flags)))),
        with_log s (mix_msg ::
                    map (fun p => flag_line p.2 (data_path s p.1))
                        (zip ifgs flags)))).
Proof.
  intros Hifgs count. split.
  - apply check_orbital_ifgs_pass.
  - by apply check_orbital_ifgs_mixed.
Qed.

(** *** remove_orbital_error *)

Variable prepare_ifgs : list ref -> Z -> Z -> @D num pyseq.
Variable os_remove : string -> @D num unit.

Local Abbreviation remove := (remove_orbital_error prepare_ifgs os_remove).

Definition calculating_msg : string := "Calculating orbital correction".
Definition skipped_msg : string :=
  "Skipped orbital correction, ifgs already corrected".

Lemma forallb_truthy_map s ifgs :
  forallb truthy (map (meta s) ifgs) = true <->
  Forall (fun r => truthy (meta s r) = true) ifgs.
Proof.
  rewrite forallb_forall, Forall_forall. split.
  - intros H r Hr. apply H. apply in_map. by apply list_elem_of_In.
  - intros H f (r & <- & Hr)%in_map_iff. apply H. by apply list_elem_of_In.
Qed.

Lemma remove_skip_run ifgs params s :
  ORBITAL_FIT params <> 0%Z ->
  Forall (is_ifg s) ifgs ->
  Forall (fun r => truthy (meta s r) = true) ifgs ->
  remove ifgs params s = (inr tt, with_log s [calculating_msg; skipped_msg]).
Proof.
  intros Hfit Hifgs Hflags. unfold remove_orbital_error.
  apply Z.eqb_neq in Hfit. rewrite Hfit.
  rewrite (bindD_ok _ _ _ _ _ (debug_run _ _)).
  erewrite bindD_ok; [|by apply mapD_get_metadata_item_run].
  pose proof (proj2 (forallb_truthy_map (with_log s [calculating_msg]) ifgs)
                    Hflags) as Hb.
  unfold calculating_msg in Hb. rewrite Hb.
  rewrite debug_run. by rewrite with_log_app.
Qed.

(** X15.  [remove_orbital_error] corrects nothing, raises nothing and
    changes nothing but the log when the configuration switches the
    correction off, and when every interferogram carries a metadata item
    that counts as true: any non-empty value of the item, not only
    [META_REMOVED], makes it skip, and so does an empty list of
    interferograms. *)
Theorem remove_orbital_error_skips ifgs params s :
  (ORBITAL_FIT params = 0%Z ->
     remove ifgs params s =
       (inr tt, with_log s ["Orbital correction not required."])) /\
  (ORBITAL_FIT params <> 0%Z ->
   Forall (is_ifg s) ifgs ->
   Forall (fun r => truthy (meta s r) = true) ifgs ->
     remove ifgs params s =
       (inr tt, with_log s [calculating_msg; skipped_msg])).
Proof.
  split.
  - intros Hfit. unfold remove_orbital_error. by rewrite Hfit.
  - apply remove_skip_run.
Qed.

Lemma count_removed_mixed s ifgs (r r' : ref) :
  r ∈ ifgs -> meta s r = Some META_REMOVED ->
  r' ∈ ifgs -> truthy (meta s r') = false ->
  0 < length (filter (fun f => is_removed f = true) (map (meta s) ifgs))
    < length (map (meta s) ifgs).
Proof.
  intros Hr Hm Hr' Hm'. split.
  - apply (filter_length_pos _ _ (meta s r)).
    + apply list_elem_of_In, in_map. by apply list_elem_of_In.
    + by apply is_removed_spec.
  - apply (filter_length_lt _ _ (meta s r')).
    + apply list_elem_of_In, in_map. by apply list_elem_of_In.
    + intros H%is_removed_truthy. congruence.
Qed.

(** X16.  When some interferogram is flagged [META_REMOVED] and some other
    has no flag (or an empty one), [remove_orbital_error] raises
    [OrbitalError] before it multilooks or corrects anything: the phase
    data, the metadata and the data paths are as before, whatever the
    multilooking and file removal would have done. *)
Theorem remove_orbital_error_mixed ifgs params s (r r' : ref) :
  ORBITAL_FIT params <> 0%Z ->
  Forall (is_ifg s) ifgs ->
  r ∈ ifgs -> meta s r = Some META_REMOVED ->
  r' ∈ ifgs -> truthy (meta s r') = false ->
  exists msg msgs,
    remove ifgs params s = (inl (Py (OrbitalError msg)), with_log s msgs).
Proof.
  intros Hfit Hifgs Hr Hm Hr' Hm'. unfold remove_orbital_error.
  apply Z.eqb_neq in Hfit. rewrite Hfit.
  rewrite (bindD_ok _ _ _ _ _ (debug_run _ _)).
  erewrite bindD_ok; [|by apply mapD_get_metadata_item_run].
  assert (Hall : forallb truthy
                   (map (meta (with_log s ["Calculating orbital correction"]))
                        ifgs) = false).
  { apply not_true_is_false. intros H%forallb_truthy_map.
    rewrite Forall_forall in H. specialize (H r' Hr'). simpl in H.
    congruence. }
  rewrite Hall.
  erewrite bindD_err.
  2:{ apply check_orbital_ifgs_mixed; [done|].
      by apply (count_removed_mixed (with_log s _) ifgs r r'). }
  rewrite with_log_app. eauto.
Qed.


(** The last loop of [remove_orbital_error]: flag one interferogram. *)
Definition mark (i : ref) : @D num unit :=
  bindD (set_metadata_item i META_REMOVED) (fun _ =>
  bindD (get_data_path i) (fun path =>
  debug (percent_s "%s: orbital error removed" path))).

Lemma mark_inv i s s' :
  mark i s = (inr tt, s') ->
  is_ifg s i /\ core s' = core s /\ data_path s' = data_path s /\
  meta s' i = Some META_REMOVED /\ (forall r, r <> i -> meta s' r = meta s r).
Proof.
  unfold mark, bindD, set_metadata_item, get_data_path, debug, is_ifg.
  destruct (heap (core s) i) as [ifg|] eqn:Hi; [|done]. simpl. rewrite Hi.
  intros [= <-]. simpl. rewrite Nat.eqb_refl.
  repeat split; [by eexists|].
  intros r Hr. by apply Nat.eqb_neq in Hr as ->.
Qed.

Lemma mark_ok i s : is_ifg s i -> exists s', mark i s = (inr tt, s').
Proof.
  intros [ifg Hi].
  unfold mark, bindD, set_metadata_item, get_data_path, debug.
  rewrite Hi. simpl. rewrite Hi. by eexists.
Qed.

Lemma mark_loop_inv ifgs s s' :
  forD mark ifgs s = (inr tt, s') ->
  core s' = core s /\ data_path s' = data_path s /\
  Forall (is_ifg s) ifgs /\
  (forall r, meta s' r = if decide (r ∈ ifgs) then Some META_REMOVED
                         else meta s r).
Proof.
  revert s. induction ifgs as [|i ifgs IH]; intros s; simpl.
  - intros [= <-]. split; [done|]. split; [done|]. split; [constructor|].
    intros r. destruct (decide (r ∈ [])) as [H|]; [by apply elem_of_nil in H|done].
  - intros ([] & s1 & H1 & H)%bindD_inv_ok.
    apply mark_inv in H1 as (Hi & Hc1 & Hp1 & Hm1 & Hf1).
    apply IH in H as (Hc & Hp & Hall & Hm).
    split; [congruence|]. split; [congruence|]. split.
    + constructor; [done|]. eapply Forall_impl; [exact Hall|].
      intros r [ifg Hr]. exists ifg. by rewrite <- Hc1.
    + intros r. rewrite Hm.
      destruct (decide (r ∈ ifgs)) as [Hin|Hin].
      * rewrite decide_True; [done|by right].
      * destruct (decide (r = i)) as [->|Hne].
        -- rewrite decide_True; [done|by left].
        -- rewrite decide_False; [by apply Hf1|].
           by intros [?|?]%elem_of_cons.
Qed.

Lemma mark_loop_ok ifgs s :
  Forall (is_ifg s) ifgs -> exists s', forD mark ifgs s = (inr tt, s').
Proof.
  revert s. induction ifgs as [|i ifgs IH]; intros s Hall; simpl.
  - by eexists.
  - apply Forall_cons in Hall as [Hi Hall].
    destruct (mark_ok i s Hi) as [s1 H1].
    rewrite (bindD_ok _ _ _ _ _ H1).
    apply IH. apply mark_inv in H1 as (_ & Hc1 & _).
    eapply Forall_impl; [exact Hall|].
    intros r [ifg Hr]. exists ifg. by rewrite Hc1.
Qed.

(** X17.  The guard against correcting twice: once [remove_orbital_error]
    has returned, calling it again on the same interferograms with the same
    configuration returns without touching phase data or metadata; when the
    correction is switched on, every interferogram carries a flag that
    counts as true from then on.  This holds whatever the multilooking and
    the removal of files do. *)
Theorem remove_orbital_error_twice ifgs params s s' :
  remove ifgs params s = (inr tt, s') ->
  (ORBITAL_FIT params <> 0%Z ->
     Forall (fun r => truthy (meta s' r) = true) ifgs) /\
  exists msgs, remove ifgs params s' = (inr tt, with_log s' msgs).
Proof.
  intros Hrun.
  destruct (decide (ORBITAL_FIT params = 0%Z)) as [Hfit|Hfit].
  { split; [done|]. unfold remove_orbital_error in *. rewrite Hfit. simpl.
    rewrite debug_run. eauto. }
  assert (Hgoal : Forall (is_ifg s') ifgs /\
                  Forall (fun r => truthy (meta s' r) = true) ifgs).
  { unfold remove_orbital_error in Hrun.
    pose proof Hfit as Hfit'. apply Z.eqb_neq in Hfit'. rewrite Hfit' in Hrun.
    apply bindD_inv_ok in Hrun as ([] & s1 & H1 & Hrun).
    rewrite debug_run in H1. injection H1 as <-.
    apply bindD_inv_ok in Hrun as (flags & s2 & H2 & Hrun).
    apply mapD_get_metadata_item_inv in H2 as (-> & -> & Hifgs).
    destruct (forallb truthy _) eqn:Hall in Hrun.
    - rewrite debug_run in Hrun. injection Hrun as <-.
      split; [done|]. by apply forallb_truthy_map in Hall.
    - apply bindD_inv_ok in Hrun as ([] & s3 & _ & Hrun).
      apply bindD_inv_ok in Hrun as (mlooked & s4 & _ & Hrun).
      apply bindD_inv_ok in Hrun as ([] & s5 & _ & Hrun).
      apply bindD_inv_ok in Hrun as ([] & s6 & _ & Hrun).
      apply mark_loop_inv in Hrun as (Hc & _ & Hi & Hm).
      split.
      + eapply Forall_impl; [exact Hi|].
        intros r [ifg Hr]. exists ifg. by rewrite Hc.
      + apply Forall_forall. intros r Hr. rewrite Hm.
        by rewrite decide_True. }
  destruct Hgoal as [Hi Ht]. split; [done|].
  eexists. by apply remove_skip_run.
Qed.

Lemma count_removed_none s ifgs :
  Forall (fun r => meta s r <> Some META_REMOVED) ifgs ->
  length (filter (fun f => is_removed f = true) (map (meta s) ifgs)) = 0.
Proof.
  induction 1 as [|r ifgs Hr _ IH]; [done|]. simpl.
  rewrite filter_cons_False; [done|]. by intros H%is_removed_spec.
Qed.

Lemma call_run {A} (c : M A) s (res : result A) (st' : @State num) :
  c (core s) = (res, st') ->
  call c s =
    (match res with inl e => inl (Py e) | inr a => inr a end,
     {| core := st'; meta := meta s; data_path := data_path s;
        logged := logged s |}).
Proof. unfold call. intros ->. by destruct res. Qed.

(** X18.  With the correction switched on, no multilooking configured, no
    interferogram flagged [META_REMOVED] and at least one without a flag,
    [remove_orbital_error] is [orbital_correction] on the full-resolution
    interferograms (no multilooked ones, offsets included) followed by the
    flagging: if the correction returns, every interferogram of the list,
    and no other object, is flagged [META_REMOVED]; if it raises, the error
    is passed on and no flag is set, although phase data may have been
    changed by then. *)
Theorem remove_orbital_error_corrects ifgs params s (r' : ref)
    (res : result unit) (st' : @State num) :
  ORBITAL_FIT params <> 0%Z ->
  (ORBITAL_FIT_LOOKS_X params <= 1)%Z ->
  (ORBITAL_FIT_LOOKS_Y params <= 1)%Z ->
  Forall (is_ifg s) ifgs ->
  Forall (fun r => meta s r <> Some META_REMOVED) ifgs ->
  r' ∈ ifgs -> truthy (meta s r') = false ->
  orbital_correction ifgs (ORBITAL_FIT_DEGREE params)
    (ORBITAL_FIT_METHOD params) None true (core s) = (res, st') ->
  exists s',
    remove ifgs params s =
      (match res with inl e => inl (Py e) | inr _ => inr tt end, s') /\
    core s' = st' /\ data_path s' = data_path s /\
    forall r, meta s' r =
      match res with
      | inr _ => if decide (r ∈ ifgs) then Some META_REMOVED else meta s r
      | inl _ => meta s r
      end.
Proof.
  intros Hfit Hlx Hly Hifgs Hnone Hr' Hm' Hcorr. unfold remove_orbital_error.
  apply Z.eqb_neq in Hfit. rewrite Hfit.
  rewrite (bindD_ok _ _ _ _ _ (debug_run _ _)).
  erewrite bindD_ok; [|by apply mapD_get_metadata_item_run].
  assert (Hall : forallb truthy
                   (map (meta (with_log s ["Calculating orbital correction"]))
                        ifgs) = false).
  { apply not_true_is_false. intros H%forallb_truthy_map.
    rewrite Forall_forall in H. specialize (H r' Hr'). simpl in H.
    congruence. }
  rewrite Hall.
  erewrite bindD_ok.
  2:{ apply check_orbital_ifgs_pass. left.
      by apply (count_removed_none (with_log s _)). }
  apply Z.ltb_ge in Hlx, Hly. rewrite Hlx, Hly. simpl orb. cbv iota.
  erewrite (bindD_ok (retD None) _ _ None); [|reflexivity].
  pose proof (call_run _ (with_log s ["Calculating orbital correction"])
                _ _ Hcorr) as Hcall.
  destruct res as [e|[]].
  - rewrite (bindD_err _ _ _ _ _ Hcall). eexists. split; [done|]. done.
  - rewrite (bindD_ok _ _ _ _ _ Hcall).
    erewrite (bindD_ok (retD tt) _ _ tt); [|reflexivity].
    set (s3 := {| core := st' |}).
    assert (Hifgs3 : Forall (is_ifg s3) ifgs).
    { eapply Forall_impl; [exact Hifgs|]. intros r [ifg Hr]. unfold is_ifg.
      pose proof (orbital_correction_frame_pres ifgs ifgs _ _ _ _
                    (reflexivity _) _ _ _ Hcorr r) as [Hsame _].
      rewrite Hr in Hsame. simpl. destruct (heap st' r); [by eexists|done]. }
    destruct (mark_loop_ok _ _ Hifgs3) as [s' Hs'].
    exists s'. split; [exact Hs'|].
    apply mark_loop_inv in Hs' as (Hc & Hp & _ & Hm). done.
Qed.


(** *** find_reference_pixel *)

Variable ref_pixel : list ref -> Z -> Z -> Z -> Z -> @D num (Z * Z).

Local Abbreviation find := (find_reference_pixel ref_pixel).

Lemma string_app_nil_r (a : string) : a +:+ "" = a.
Proof.
  induction a as [|c a IH]; [done|].
  change (String c (a +:+ "") = String c a). by rewrite IH.
Qed.

Lemma call_get_ifg_run s (r : ref) (ifg : Ifg) :
  heap (core s) r = PyIfg ifg -> call (get_ifg r) s = (inr ifg, s).
Proof. intros H. destruct s. unfold call, get_ifg. simpl in *. by rewrite H. Qed.

(** X19.  [find_reference_pixel] checks the configured pixel against the
    raster of the first interferogram, the X coordinate first, and raises
    a [ValueError] for a coordinate beyond the last column or row.  A
    configured pixel with both coordinates non-negative is returned, as
    (REFY, REFX), without a search; with a negative coordinate the pixel is
    searched by [refpixel.ref_pixel], and a found pair (y, x) is returned
    as (x, y): the two branches give their coordinates in opposite
    orders. *)
Theorem find_reference_pixel_outcome ifgs params s (r0 : ref) (ifg0 : Ifg) :
  ifgs !! 0 = Some r0 ->
  heap (core s) r0 = PyIfg ifg0 ->
  let refx := REFX params in
  let refy := REFY params in
  let nc := Z.of_nat (ncols ifg0) in
  let nr := Z.of_nat (nrows ifg0) in
  ((nc <= refx)%Z ->
     find ifgs params s
     = (inl (ValueErrorMsg ("Invalid reference pixel X coordinate: "
                            +:+ pretty refx)), s)) /\
  ((refx < nc)%Z -> (nr <= refy)%Z ->
     find ifgs params s
     = (inl (ValueErrorMsg ("Invalid reference pixel Y coordinate: "
                            +:+ pretty refy)), s)) /\
  ((0 <= refx < nc)%Z -> (0 <= refy < nr)%Z ->
     exists msg, find ifgs params s = (inr (refy, refx), with_log s [msg])) /\
  ((refx < nc)%Z -> (refy < nr)%Z -> (refx < 0 \/ refy < 0)%Z ->
     forall (y x : Z) s2,
       ref_pixel ifgs (REFNX params) (REFNY params) (REF_CHIP_SIZE params)
                 (REF_MIN_FRAC params)
                 (with_log s ["Calculating reference pixel"])
       = (inr (y, x), s2) ->
       exists msg, find ifgs params s = (inr (x, y), with_log s2 [msg])).
Proof.
  intros H0 Hifg refx refy nc nr.
  assert (forall B (k : Ifg -> D B),
            bindD (match ifgs !! 0 with
                   | Some r => retD r
                   | None => raiseD (Py IndexError)
                   end)
                  (fun r => bindD (call (get_ifg r)) k) s
            = k ifg0 s) as Hhead.
  { intros B k. rewrite H0. unfold bindD at 1. unfold retD.
    by rewrite (bindD_ok _ _ _ _ _ (call_get_ifg_run _ _ _ Hifg)). }
  unfold find_reference_pixel. rewrite Hhead. fold refx refy nc nr.
  split; [|split; [|split]].
  - intros Hx.
    replace (nc - 1 <? refx)%Z with true
      by (symmetry; apply Z.ltb_lt; lia).
    unfold raiseD. cbn [percent_s]. simpl. by rewrite string_app_nil_r.
  - intros Hx Hy.
    replace (nc - 1 <? refx)%Z with false
      by (symmetry; apply Z.ltb_ge; lia).
    rewrite Hhead. fold nr.
    replace (nr - 1 <? refy)%Z with true
      by (symmetry; apply Z.ltb_lt; lia).
    unfold raiseD. cbn [percent_s]. simpl. by rewrite string_app_nil_r.
  - intros Hx Hy.
    replace (nc - 1 <? refx)%Z with false
      by (symmetry; apply Z.ltb_ge; lia).
    rewrite Hhead. fold nr.
    replace (nr - 1 <? refy)%Z with false
      by (symmetry; apply Z.ltb_ge; lia).
    replace (0 <=? refx)%Z with true by (symmetry; apply Z.leb_le; lia).
    replace (0 <=? refy)%Z with true by (symmetry; apply Z.leb_le; lia).
    cbn [andb]. rewrite (bindD_ok _ _ _ _ _ (debug_run _ _)). by eexists.
  - intros Hx Hy Hneg y x s2 Hsearch.
    replace (nc - 1 <? refx)%Z with false
      by (symmetry; apply Z.ltb_ge; lia).
    rewrite Hhead. fold nr.
    replace (nr - 1 <? refy)%Z with false
      by (symmetry; apply Z.ltb_ge; lia).
    replace ((0 <=? refx)%Z && (0 <=? refy)%Z) with false.
    2:{ symmetry. apply andb_false_iff.
        destruct Hneg; [left|right]; apply Z.leb_gt; lia. }
    rewrite (bindD_ok _ _ _ _ _ (debug_run _ _)).
    rewrite (bindD_ok _ _ _ _ _ Hsearch).
    rewrite (bindD_ok _ _ _ _ _ (debug_run _ _)). by eexists.
Qed.

End DriverFacts.

(** * The properties of the driver at concrete inputs *)

(** The heap of [ex_state] with data paths, no orbital flag at all
    ([ex_dstate]), the flag on both interferograms ([ex_dstate_done]) and
    the flag on the first one only ([ex_dstate_mixed]). *)
Definition ex_paths (r : ref) : string :=
  match r with
  | 0 => "a.tif"
  | _ => "b.tif"
  end.

Definition ex_dstate : @DState Z :=
  {| core := ex_state; meta := fun _ => None; data_path := ex_paths;
     logged := [] |}.

Definition ex_dstate_done : @DState Z :=
  {| core := ex_state; meta := fun _ => Some META_REMOVED;
     data_path := ex_paths; logged := [] |}.

Definition ex_dstate_mixed : @DState Z :=
  {| core := ex_state;
     meta := fun r => match r with 0 => Some META_REMOVED | _ => None end;
     data_path := ex_paths; logged := [] |}.

(** A configuration: the planar network correction without multilooking,
    and the reference pixel at column 2 of row 1. *)
Definition ex_params (fit : Z) : Params :=
  {| ORBITAL_FIT := fit; ORBITAL_FIT_LOOKS_X := 1; ORBITAL_FIT_LOOKS_Y := 1;
     ORBITAL_FIT_DEGREE := PLANAR; ORBITAL_FIT_METHOD := NETWORK_METHOD;
     REFX := 2; REFY := 1; REFNX := 5; REFNY := 5; REF_CHIP_SIZE := 3;
     REF_MIN_FRAC := 1 |}.

(** Stand-ins for the absent functions. *)
Definition ex_prepare_ifgs (ifgs : list ref) (xlooks ylooks : Z)
    : @D Z pyseq :=
  retD (PyList []).

Definition ex_os_remove (path : string) : @D Z unit := retD tt.

Definition ex_ref_pixel (ifgs : list ref) (nx ny chip frac : Z)
    : @D Z (Z * Z) :=
  retD (0, 0)%Z.

Lemma ex_dstate_is_ifg (s : @DState Z) :
  core s = ex_state -> Forall (is_ifg s) [0; 1].
Proof.
  intros H. repeat constructor; unfold is_ifg; rewrite H; by eexists.
Qed.

Lemma check_orbital_ifgs_outcome_witness :
  check_orbital_ifgs [0; 1] [Some META_REMOVED; None] ex_dstate
  = (inl (Py (OrbitalError "%s: no orbital correction detected")),
     with_log ex_dstate
       ["Detected mix of corrected and uncorrected orbital error in ifgs";
        "a.tif: prior orbital error correction detected";
        "b.tif: no orbital correction detected"]).
Proof.
  apply (proj2 (check_orbital_ifgs_outcome [0; 1] [Some META_REMOVED; None]
                  ex_dstate (ex_dstate_is_ifg ex_dstate eq_refl))).
  simpl. lia.
Defined.

Lemma remove_orbital_error_skips_witness :
  remove_orbital_error (SOLV := ex_solvers) ex_prepare_ifgs ex_os_remove
    [0; 1] (ex_params 1) ex_dstate_done
  = (inr tt,
     with_log ex_dstate_done
       ["Calculating orbital correction";
        "Skipped orbital correction, ifgs already corrected"]).
Proof.
  apply (proj2 (remove_orbital_error_skips (SOLV := ex_solvers)
                  ex_prepare_ifgs ex_os_remove [0; 1] (ex_params 1)
                  ex_dstate_done)).
  - discriminate.
  - by apply ex_dstate_is_ifg.
  - repeat constructor.
Defined.

Lemma remove_orbital_error_mixed_witness :
  exists msg msgs,
    remove_orbital_error (SOLV := ex_solvers) ex_prepare_ifgs ex_os_remove
      [0; 1] (ex_params 1) ex_dstate_mixed
    = (inl (Py (OrbitalError msg)), with_log ex_dstate_mixed msgs).
Proof.
  apply (remove_orbital_error_mixed (SOLV := ex_solvers) ex_prepare_ifgs
           ex_os_remove [0; 1] (ex_params 1) ex_dstate_mixed 0 1).
  - discriminate.
  - by apply ex_dstate_is_ifg.
  - repeat constructor.
  - reflexivity.
  - repeat constructor.
  - reflexivity.
Defined.

Lemma remove_orbital_error_twice_witness :
  let s' := (remove_orbital_error (SOLV := ex_solvers) ex_prepare_ifgs
               ex_os_remove [0; 1] (ex_params 1) ex_dstate).2 in
  exists msgs,
    remove_orbital_error (SOLV := ex_solvers) ex_prepare_ifgs ex_os_remove
      [0; 1] (ex_params 1) s'
    = (inr tt, with_log s' msgs).
Proof.
  intros s'.
  assert ((remove_orbital_error (SOLV := ex_solvers) ex_prepare_ifgs
             ex_os_remove [0; 1] (ex_params 1) ex_dstate).1 = inr tt) as H
    by (vm_compute; reflexivity).
  apply (remove_orbital_error_twice (SOLV := ex_solvers)
           ex_prepare_ifgs ex_os_remove [0; 1] (ex_params 1) ex_dstate s').
  subst s'. rewrite <- H. apply surjective_pairing.
Defined.

Lemma remove_orbital_error_corrects_witness :
  exists s',
    remove_orbital_error (SOLV := ex_solvers) ex_prepare_ifgs ex_os_remove
      [0; 1] (ex_params 1) ex_dstate
    = (inr tt, s') /\
    meta s' 0 = Some META_REMOVED /\ meta s' 1 = Some META_REMOVED /\
    meta s' 2 = None.
Proof.
  set (run := @orbital_correction Z _ ex_solvers [0; 1] PLANAR
                NETWORK_METHOD None true ex_state).
  assert (run.1 = inr tt) as Hres by (vm_compute; reflexivity).
  destruct (remove_orbital_error_corrects (SOLV := ex_solvers)
              ex_prepare_ifgs ex_os_remove [0; 1] (ex_params 1) ex_dstate 0
              (inr tt) run.2)
    as (s' & Hrun & _ & _ & Hmeta).
  - discriminate.
  - simpl. lia.
  - simpl. lia.
  - by apply ex_dstate_is_ifg.
  - repeat constructor; discriminate.
  - repeat constructor.
  - reflexivity.
  - rewrite <- Hres. apply surjective_pairing.
  - exists s'. split; [exact Hrun|].
    split; [|split]; rewrite Hmeta; reflexivity.
Defined.

Lemma find_reference_pixel_outcome_witness :
  exists msg,
    find_reference_pixel ex_ref_pixel [0] (ex_params 1) ex_dstate
    = (inr (1, 2)%Z, with_log ex_dstate [msg]).
Proof.
  destruct (find_reference_pixel_outcome ex_ref_pixel [0] (ex_params 1)
              ex_dstate 0 ex_ifg eq_refl eq_refl) as (_ & _ & H & _).
  apply H; simpl; lia.
Defined.
